(** * Thumbnail preview engine of vidplayer-react

    A shallow embedding of [src/hooks/use-thumbnail-generator.ts] (the LRU
    frame cache, the time quantizer and the [useThumbnailGenerator] hook) and
    of the position clamping of [ThumbnailPreview] in the video controls,
    with the properties of the engine proved over it.

    Conventions of the embedding:
    - a JavaScript [Map<string, string>] is an association list in insertion
      order, oldest entry first;
    - an entry count ([Map.size], [maxSize]) is an integer of [Z];
    - a JavaScript [number] holding a time, a percentage or a pixel width is
      a rational of [Q], with exact arithmetic (the rounding of IEEE doubles
      is outside the model); the [duration] prop of the controls, which can
      be [Infinity] or [NaN], is a [number];
    - the hook is a record of its React state and refs, and every callback
      the runtime can invoke (a call of [generateThumbnail], the debounce
      timer, a media event, a render with new props) is a function on it. *)

From Stdlib Require Import List String Ascii Bool Arith ZArith QArith Qround Qabs Qminmax Lia Lqa.
From Stdlib Require Import DecimalString DecimalZ DecimalPos.
Import ListNotations.

Local Open Scope Z_scope.

(** ** JavaScript [Map<string, string>] *)

Module JSMap.

Definition t := list (string * string).

Definition keys (m : t) : list string := map fst m.

Fixpoint get (m : t) (k : string) : option string :=
  match m with
  | [] => None
  | (k', v) :: r => if String.eqb k' k then Some v else get r k
  end.

Definition has (m : t) (k : string) : bool :=
  match get m k with Some _ => true | None => false end.

Definition delete (m : t) (k : string) : t :=
  filter (fun e => negb (String.eqb (fst e) k)) m.

(** [Map.prototype.set]: an existing key keeps its position, a new key is
    appended. *)
Fixpoint set (m : t) (k v : string) : t :=
  match m with
  | [] => [(k, v)]
  | (k', v') :: r => if String.eqb k' k then (k, v) :: r else (k', v') :: set r k v
  end.

Definition size (m : t) : Z := Z.of_nat (List.length m).

(** [m.keys().next().value] *)
Definition first_key (m : t) : option string :=
  match m with
  | [] => None
  | (k, _) :: _ => Some k
  end.

Definition values (m : t) : list string := map snd m.

End JSMap.

(** ** [ThumbnailLRUCache] *)

Definition MAX_CACHE_SIZE : Z := 50.

(** [revoked] is the list of the URLs handed to [URL.revokeObjectURL], in
    call order. *)
Record ThumbnailLRUCache := mkCache {
  cache : JSMap.t;
  maxSize : Z;
  revoked : list string
}.

Definition is_blob (v : string) : bool := String.prefix "blob:" v.

(** The outcome of a construction: an instance, or an error. The
    constructor of the class has no failing path. *)
Inductive construction :=
| Constructed (c : ThumbnailLRUCache)
| Rejected (err : string).

Definition new_cache (size : Z) : ThumbnailLRUCache :=
  {| cache := []; maxSize := size; revoked := [] |}.

Definition construct (size : option Z) : construction :=
  Constructed (new_cache (match size with Some n => n | None => MAX_CACHE_SIZE end)).

Definition lru_get (c : ThumbnailLRUCache) (k : string) : option string * ThumbnailLRUCache :=
  match JSMap.get (cache c) k with
  | Some value =>
      (Some value,
       {| cache := JSMap.set (JSMap.delete (cache c) k) k value;
          maxSize := maxSize c;
          revoked := revoked c |})
  | None => (None, c)
  end.

Definition lru_set (c : ThumbnailLRUCache) (k v : string) : ThumbnailLRUCache :=
  let m1 := if JSMap.has (cache c) k then JSMap.delete (cache c) k else cache c in
  let '(m2, rv) :=
    if JSMap.size m1 >=? maxSize c then
      match JSMap.first_key m1 with
      | Some oldestKey =>
          (JSMap.delete m1 oldestKey,
           match JSMap.get m1 oldestKey with
           | Some oldValue => if is_blob oldValue then revoked c ++ [oldValue] else revoked c
           | None => revoked c
           end)
      | None => (m1, revoked c)
      end
    else (m1, revoked c) in
  {| cache := JSMap.set m2 k v; maxSize := maxSize c; revoked := rv |}.

Definition lru_has (c : ThumbnailLRUCache) (k : string) : bool := JSMap.has (cache c) k.

Definition lru_clear (c : ThumbnailLRUCache) : ThumbnailLRUCache :=
  {| cache := [];
     maxSize := maxSize c;
     revoked := revoked c ++ filter is_blob (JSMap.values (cache c)) |}.

Definition lru_size (c : ThumbnailLRUCache) : Z := JSMap.size (cache c).

(** Sequences of cache operations. *)
Inductive op :=
| OGet (k : string)
| OSet (k v : string)
| OHas (k : string)
| OClear.

Definition step (c : ThumbnailLRUCache) (o : op) : ThumbnailLRUCache :=
  match o with
  | OGet k => snd (lru_get c k)
  | OSet k v => lru_set c k v
  | OHas k => c
  | OClear => lru_clear c
  end.

Definition run (ops : list op) (c : ThumbnailLRUCache) : ThumbnailLRUCache :=
  fold_left step ops c.

(** The keys inserted by a sequence, in order, and the distinct ones. *)
Fixpoint set_keys (ops : list op) : list string :=
  match ops with
  | [] => []
  | OSet k _ :: r => k :: set_keys r
  | _ :: r => set_keys r
  end.

Definition distinct_set_keys (ops : list op) : list string :=
  nodup string_dec (set_keys ops).

(** *** Touch times

    The cache run once more, with a clock that ticks at every operation and
    the time of the last touch of every key: a [set] of the key, or a [get]
    that finds it. *)
Record traced := mkTraced {
  t_cache : ThumbnailLRUCache;
  t_clock : nat;
  t_touch : string -> option nat
}.

Definition touch (f : string -> option nat) (k : string) (now : nat) : string -> option nat :=
  fun k' => if String.eqb k' k then Some now else f k'.

Definition traced_new (size : Z) : traced :=
  {| t_cache := new_cache size; t_clock := 0%nat; t_touch := fun _ => None |}.

Definition traced_step (s : traced) (o : op) : traced :=
  {| t_cache := step (t_cache s) o;
     t_clock := S (t_clock s);
     t_touch :=
       match o with
       | OGet k => if lru_has (t_cache s) k then touch (t_touch s) k (t_clock s) else t_touch s
       | OSet k _ => touch (t_touch s) k (t_clock s)
       | OHas _ | OClear => t_touch s
       end |}.

Definition traced_run (ops : list op) (s : traced) : traced :=
  fold_left traced_step ops s.

(** [k1] was last touched strictly before [k2]. *)
Definition older (f : string -> option nat) (k1 k2 : string) : Prop :=
  match f k1, f k2 with
  | Some a, Some b => (a < b)%nat
  | _, _ => False
  end.

(** [k1] precedes every key of the list, and so on down the list: the list
    is in the order of the last touches, least recent first. *)
Fixpoint by_touch (f : string -> option nat) (l : list string) : Prop :=
  match l with
  | [] => True
  | k :: r => (forall k', In k' r -> older f k k') /\ by_touch f r
  end.

Definition not_clear (o : op) : bool :=
  match o with
  | OClear => false
  | _ => true
  end.

(** *** Auxiliary notions for the proofs *)

(** What [set] does when the map is at capacity, on a map with every key
    once: the first entry goes. *)
Definition evict_if_full (limit : Z) (m : JSMap.t) : JSMap.t :=
  if JSMap.size m >=? limit then tl m else m.

(** Every key once, as in a JavaScript [Map]. *)
Definition wf (c : ThumbnailLRUCache) : Prop := NoDup (JSMap.keys (cache c)).

(** The invariant of a traced run: every key once, every touch time in the
    past, every held key touched, and the entries in the order of their
    last touches. *)
Record inv (s : traced) : Prop := mkInv {
  inv_wf : wf (t_cache s);
  inv_clock : forall k t, t_touch s k = Some t -> (t < t_clock s)%nat;
  inv_held : forall k, In k (JSMap.keys (cache (t_cache s))) -> t_touch s k <> None;
  inv_order : by_touch (t_touch s) (JSMap.keys (cache (t_cache s)))
}.

(** The invariant of a run without [clear] on a cache of maximum size at
    least 1: the cache is within its capacity, keys are missing only from a
    full cache, and every missing key was last touched before every held
    one. *)
Record inv_full (s : traced) : Prop := mkInvFull {
  inv_size : lru_size (t_cache s) <= maxSize (t_cache s);
  inv_missing : forall k, t_touch s k <> None ->
      In k (JSMap.keys (cache (t_cache s))) \/ lru_size (t_cache s) = maxSize (t_cache s);
  inv_recent : forall k k',
      In k (JSMap.keys (cache (t_cache s))) ->
      ~ In k' (JSMap.keys (cache (t_cache s))) ->
      t_touch s k' <> None ->
      older (t_touch s) k' k
}.

(** ** The time quantizer *)

Definition TIME_PRECISION : Q := 1.

(** [Math.round]: the nearest integer, a half rounded towards plus
    infinity, that is [floor (x + 1/2)]. *)
Definition Math_round (x : Q) : Z := Qfloor (x + (1 # 2))%Q.

Definition roundTime (time precision : Q) : Q :=
  (inject_Z (Math_round (time / precision)) * precision)%Q.


(** ** The position of the thumbnail preview *)

Definition THUMBNAIL_WIDTH : Q := 160.
Definition THUMBNAIL_HEIGHT : Q := 90.

(** The clamping of [ThumbnailPreview]: the percentage written to [left]. *)
Definition clampedPosition (position containerWidth : Q) : Q :=
  let halfWidth := (THUMBNAIL_WIDTH / 2)%Q in
  let minPosition := ((halfWidth / containerWidth) * 100)%Q in
  let maxPosition := (100 - minPosition)%Q in
  Qmax minPosition (Qmin maxPosition position).

(** ** The hook [useThumbnailGenerator] *)

Definition DEBOUNCE_DELAY : Z := 100.

(** JavaScript truthiness of a [string | null | undefined]. *)
Definition truthy (s : option string) : bool :=
  match s with
  | Some x => negb (String.eqb x "")
  | None => false
  end.

Definition option_string_eqb (a b : option string) : bool :=
  match a, b with
  | Some x, Some y => String.eqb x y
  | None, None => true
  | _, _ => false
  end.

(** The decimal form of an integral number, as the template literal of
    [getCacheKey] prints the rounded time. *)
Definition Number_toString (x : Q) : string :=
  NilZero.string_of_int (Z.to_int (Qfloor x)).

Definition getCacheKey (src : string) (time : Q) : string :=
  String.append src (String.append ":" (Number_toString (roundTime time TIME_PRECISION))).

(** The two media events the hook listens to. *)
Inductive media_event := Seeked | MediaError.

Definition media_event_eqb (a b : media_event) : bool :=
  match a, b with
  | Seeked, Seeked | MediaError, MediaError => true
  | _, _ => false
  end.

(** A listener attached by the timeout callback: [handleSeeked] or
    [handleError] of one capture, with what its closure holds. *)
Record listener := mkListener {
  l_video : nat;
  l_event : media_event;
  l_capture : nat;
  l_key : string
}.

Definition listener_eqb (a b : listener) : bool :=
  Nat.eqb (l_video a) (l_video b) && media_event_eqb (l_event a) (l_event b) &&
  Nat.eqb (l_capture a) (l_capture b) && String.eqb (l_key a) (l_key b).

(** The writes to the hidden video elements. *)
Inductive dom_command :=
| SetSrc (video : nat) (src : string)
| SetCurrentTime (video : nat) (time : Q).

(** A pending [setTimeout]: when it is due, and the [videoSrc] its callback
    closes over. *)
Record timer := mkTimer {
  deadline : Z;
  closure_src : string
}.

(** The state of one mounted hook: props, React state, refs, the listeners
    on its video elements, and a trace of what it did. *)
Record hook := mkHook {
  videoSrc : option string;  (* the prop [videoSrc] of the latest render *)
  enabled : bool;  (* the prop [enabled] of the latest render *)
  thumbnailUrl : option string;  (* [useState] *)
  isLoading : bool;  (* [useState] *)
  error : option string;  (* [useState] *)
  videoRef : option nat;  (* the hidden video element, by its number *)
  canvasRef : bool;  (* whether [canvasRef.current] holds a canvas *)
  cacheRef : ThumbnailLRUCache;
  debounceTimeoutRef : option timer;  (* the timeout that is still to fire *)
  pendingTimeRef : option Q;
  currentVideoSrcRef : option string;
  cleanup : bool;  (* whether the first effect left its cleanup behind *)
  created : nat;  (* the number of video elements created so far *)
  listeners : list listener;  (* the listeners attached, in registration order *)
  commands : list dom_command;  (* the writes to the video elements, in order *)
  captures : nat;  (* the number of captures started *)
  attempts : list Q;  (* the requested time of every run of the timeout callback *)
  completions : list nat  (* the captures whose handler has run, in order *)
}.

Definition set_videoSrc (x : option string) (h : hook) : hook :=
  {| videoSrc := x; enabled := enabled h; thumbnailUrl := thumbnailUrl h;
     isLoading := isLoading h; error := error h; videoRef := videoRef h;
     canvasRef := canvasRef h; cacheRef := cacheRef h;
     debounceTimeoutRef := debounceTimeoutRef h; pendingTimeRef := pendingTimeRef h;
     currentVideoSrcRef := currentVideoSrcRef h; cleanup := cleanup h; created := created h;
     listeners := listeners h; commands := commands h; captures := captures h;
     attempts := attempts h; completions := completions h |}.

Definition set_enabled (x : bool) (h : hook) : hook :=
  {| videoSrc := videoSrc h; enabled := x; thumbnailUrl := thumbnailUrl h;
     isLoading := isLoading h; error := error h; videoRef := videoRef h;
     canvasRef := canvasRef h; cacheRef := cacheRef h;
     debounceTimeoutRef := debounceTimeoutRef h; pendingTimeRef := pendingTimeRef h;
     currentVideoSrcRef := currentVideoSrcRef h; cleanup := cleanup h; created := created h;
     listeners := listeners h; commands := commands h; captures := captures h;
     attempts := attempts h; completions := completions h |}.

Definition set_thumbnailUrl (x : option string) (h : hook) : hook :=
  {| videoSrc := videoSrc h; enabled := enabled h; thumbnailUrl := x; isLoading := isLoading h;
     error := error h; videoRef := videoRef h; canvasRef := canvasRef h;
     cacheRef := cacheRef h; debounceTimeoutRef := debounceTimeoutRef h;
     pendingTimeRef := pendingTimeRef h; currentVideoSrcRef := currentVideoSrcRef h;
     cleanup := cleanup h; created := created h; listeners := listeners h;
     commands := commands h; captures := captures h; attempts := attempts h;
     completions := completions h |}.

Definition set_isLoading (x : bool) (h : hook) : hook :=
  {| videoSrc := videoSrc h; enabled := enabled h; thumbnailUrl := thumbnailUrl h;
     isLoading := x; error := error h; videoRef := videoRef h; canvasRef := canvasRef h;
     cacheRef := cacheRef h; debounceTimeoutRef := debounceTimeoutRef h;
     pendingTimeRef := pendingTimeRef h; currentVideoSrcRef := currentVideoSrcRef h;
     cleanup := cleanup h; created := created h; listeners := listeners h;
     commands := commands h; captures := captures h; attempts := attempts h;
     completions := completions h |}.

Definition set_error (x : option string) (h : hook) : hook :=
  {| videoSrc := videoSrc h; enabled := enabled h; thumbnailUrl := thumbnailUrl h;
     isLoading := isLoading h; error := x; videoRef := videoRef h; canvasRef := canvasRef h;
     cacheRef := cacheRef h; debounceTimeoutRef := debounceTimeoutRef h;
     pendingTimeRef := pendingTimeRef h; currentVideoSrcRef := currentVideoSrcRef h;
     cleanup := cleanup h; created := created h; listeners := listeners h;
     commands := commands h; captures := captures h; attempts := attempts h;
     completions := completions h |}.

Definition set_videoRef (x : option nat) (h : hook) : hook :=
  {| videoSrc := videoSrc h; enabled := enabled h; thumbnailUrl := thumbnailUrl h;
     isLoading := isLoading h; error := error h; videoRef := x; canvasRef := canvasRef h;
     cacheRef := cacheRef h; debounceTimeoutRef := debounceTimeoutRef h;
     pendingTimeRef := pendingTimeRef h; currentVideoSrcRef := currentVideoSrcRef h;
     cleanup := cleanup h; created := created h; listeners := listeners h;
     commands := commands h; captures := captures h; attempts := attempts h;
     completions := completions h |}.

Definition set_canvasRef (x : bool) (h : hook) : hook :=
  {| videoSrc := videoSrc h; enabled := enabled h; thumbnailUrl := thumbnailUrl h;
     isLoading := isLoading h; error := error h; videoRef := videoRef h; canvasRef := x;
     cacheRef := cacheRef h; debounceTimeoutRef := debounceTimeoutRef h;
     pendingTimeRef := pendingTimeRef h; currentVideoSrcRef := currentVideoSrcRef h;
     cleanup := cleanup h; created := created h; listeners := listeners h;
     commands := commands h; captures := captures h; attempts := attempts h;
     completions := completions h |}.

Definition set_cacheRef (x : ThumbnailLRUCache) (h : hook) : hook :=
  {| videoSrc := videoSrc h; enabled := enabled h; thumbnailUrl := thumbnailUrl h;
     isLoading := isLoading h; error := error h; videoRef := videoRef h;
     canvasRef := canvasRef h; cacheRef := x; debounceTimeoutRef := debounceTimeoutRef h;
     pendingTimeRef := pendingTimeRef h; currentVideoSrcRef := currentVideoSrcRef h;
     cleanup := cleanup h; created := created h; listeners := listeners h;
     commands := commands h; captures := captures h; attempts := attempts h;
     completions := completions h |}.

Definition set_debounceTimeoutRef (x : option timer) (h : hook) : hook :=
  {| videoSrc := videoSrc h; enabled := enabled h; thumbnailUrl := thumbnailUrl h;
     isLoading := isLoading h; error := error h; videoRef := videoRef h;
     canvasRef := canvasRef h; cacheRef := cacheRef h; debounceTimeoutRef := x;
     pendingTimeRef := pendingTimeRef h; currentVideoSrcRef := currentVideoSrcRef h;
     cleanup := cleanup h; created := created h; listeners := listeners h;
     commands := commands h; captures := captures h; attempts := attempts h;
     completions := completions h |}.

Definition set_pendingTimeRef (x : option Q) (h : hook) : hook :=
  {| videoSrc := videoSrc h; enabled := enabled h; thumbnailUrl := thumbnailUrl h;
     isLoading := isLoading h; error := error h; videoRef := videoRef h;
     canvasRef := canvasRef h; cacheRef := cacheRef h;
     debounceTimeoutRef := debounceTimeoutRef h; pendingTimeRef := x;
     currentVideoSrcRef := currentVideoSrcRef h; cleanup := cleanup h; created := created h;
     listeners := listeners h; commands := commands h; captures := captures h;
     attempts := attempts h; completions := completions h |}.

Definition set_currentVideoSrcRef (x : option string) (h : hook) : hook :=
  {| videoSrc := videoSrc h; enabled := enabled h; thumbnailUrl := thumbnailUrl h;
     isLoading := isLoading h; error := error h; videoRef := videoRef h;
     canvasRef := canvasRef h; cacheRef := cacheRef h;
     debounceTimeoutRef := debounceTimeoutRef h; pendingTimeRef := pendingTimeRef h;
     currentVideoSrcRef := x; cleanup := cleanup h; created := created h;
     listeners := listeners h; commands := commands h; captures := captures h;
     attempts := attempts h; completions := completions h |}.

Definition set_cleanup (x : bool) (h : hook) : hook :=
  {| videoSrc := videoSrc h; enabled := enabled h; thumbnailUrl := thumbnailUrl h;
     isLoading := isLoading h; error := error h; videoRef := videoRef h;
     canvasRef := canvasRef h; cacheRef := cacheRef h;
     debounceTimeoutRef := debounceTimeoutRef h; pendingTimeRef := pendingTimeRef h;
     currentVideoSrcRef := currentVideoSrcRef h; cleanup := x; created := created h;
     listeners := listeners h; commands := commands h; captures := captures h;
     attempts := attempts h; completions := completions h |}.

Definition set_created (x : nat) (h : hook) : hook :=
  {| videoSrc := videoSrc h; enabled := enabled h; thumbnailUrl := thumbnailUrl h;
     isLoading := isLoading h; error := error h; videoRef := videoRef h;
     canvasRef := canvasRef h; cacheRef := cacheRef h;
     debounceTimeoutRef := debounceTimeoutRef h; pendingTimeRef := pendingTimeRef h;
     currentVideoSrcRef := currentVideoSrcRef h; cleanup := cleanup h; created := x;
     listeners := listeners h; commands := commands h; captures := captures h;
     attempts := attempts h; completions := completions h |}.

Definition set_listeners (x : list listener) (h : hook) : hook :=
  {| videoSrc := videoSrc h; enabled := enabled h; thumbnailUrl := thumbnailUrl h;
     isLoading := isLoading h; error := error h; videoRef := videoRef h;
     canvasRef := canvasRef h; cacheRef := cacheRef h;
     debounceTimeoutRef := debounceTimeoutRef h; pendingTimeRef := pendingTimeRef h;
     currentVideoSrcRef := currentVideoSrcRef h; cleanup := cleanup h; created := created h;
     listeners := x; commands := commands h; captures := captures h; attempts := attempts h;
     completions := completions h |}.

Definition set_commands (x : list dom_command) (h : hook) : hook :=
  {| videoSrc := videoSrc h; enabled := enabled h; thumbnailUrl := thumbnailUrl h;
     isLoading := isLoading h; error := error h; videoRef := videoRef h;
     canvasRef := canvasRef h; cacheRef := cacheRef h;
     debounceTimeoutRef := debounceTimeoutRef h; pendingTimeRef := pendingTimeRef h;
     currentVideoSrcRef := currentVideoSrcRef h; cleanup := cleanup h; created := created h;
     listeners := listeners h; commands := x; captures := captures h; attempts := attempts h;
     completions := completions h |}.

Definition set_captures (x : nat) (h : hook) : hook :=
  {| videoSrc := videoSrc h; enabled := enabled h; thumbnailUrl := thumbnailUrl h;
     isLoading := isLoading h; error := error h; videoRef := videoRef h;
     canvasRef := canvasRef h; cacheRef := cacheRef h;
     debounceTimeoutRef := debounceTimeoutRef h; pendingTimeRef := pendingTimeRef h;
     currentVideoSrcRef := currentVideoSrcRef h; cleanup := cleanup h; created := created h;
     listeners := listeners h; commands := commands h; captures := x; attempts := attempts h;
     completions := completions h |}.

Definition set_attempts (x : list Q) (h : hook) : hook :=
  {| videoSrc := videoSrc h; enabled := enabled h; thumbnailUrl := thumbnailUrl h;
     isLoading := isLoading h; error := error h; videoRef := videoRef h;
     canvasRef := canvasRef h; cacheRef := cacheRef h;
     debounceTimeoutRef := debounceTimeoutRef h; pendingTimeRef := pendingTimeRef h;
     currentVideoSrcRef := currentVideoSrcRef h; cleanup := cleanup h; created := created h;
     listeners := listeners h; commands := commands h; captures := captures h; attempts := x;
     completions := completions h |}.

Definition set_completions (x : list nat) (h : hook) : hook :=
  {| videoSrc := videoSrc h; enabled := enabled h; thumbnailUrl := thumbnailUrl h;
     isLoading := isLoading h; error := error h; videoRef := videoRef h;
     canvasRef := canvasRef h; cacheRef := cacheRef h;
     debounceTimeoutRef := debounceTimeoutRef h; pendingTimeRef := pendingTimeRef h;
     currentVideoSrcRef := currentVideoSrcRef h; cleanup := cleanup h; created := created h;
     listeners := listeners h; commands := commands h; captures := captures h;
     attempts := attempts h; completions := x |}.

(** The listeners that a media event of a video element reaches. *)
Definition listens (video : nat) (ev : media_event) (l : listener) : bool :=
  Nat.eqb (l_video l) video && media_event_eqb (l_event l) ev.

Notation "h |> f" := (f h) (at level 45, left associativity, only parsing).

Section Hook.

(** [isBrowser] of [utils/ssr-safe]: whether a [window] exists. *)
Variable isBrowser : bool.

Definition initial (src : option string) (en : bool) : hook :=
  {| videoSrc := src; enabled := en;
     thumbnailUrl := None; isLoading := false; error := None;
     videoRef := None; canvasRef := false; cacheRef := new_cache MAX_CACHE_SIZE;
     debounceTimeoutRef := None; pendingTimeRef := None; currentVideoSrcRef := None;
     cleanup := false; created := 0%nat; listeners := []; commands := [];
     captures := 0%nat; attempts := []; completions := [] |}.

(** The first effect: the hidden video and canvas elements. *)
Definition create_elements (h : hook) : hook :=
  if negb isBrowser || negb (enabled h) then h |> set_cleanup false
  else
    h |> set_videoRef (Some (created h))
      |> set_created (S (created h))
      |> set_canvasRef true
      |> set_cleanup true.

(** The cleanup of the first effect. *)
Definition teardown (h : hook) : hook :=
  let h1 :=
    match videoRef h with
    | Some video => h |> set_commands (commands h ++ [SetSrc video ""]) |> set_videoRef None
    | None => h
    end in
  h1 |> set_canvasRef false
     |> set_cacheRef (lru_clear (cacheRef h1))
     |> set_debounceTimeoutRef None.

(** The second effect: binding the video element to the source. *)
Definition bind_source (h : hook) : hook :=
  match videoRef h, videoSrc h with
  | Some video, Some src =>
      if negb (truthy (Some src)) || negb (enabled h) then h
      else if option_string_eqb (currentVideoSrcRef h) (Some src) then h
      else
        h |> set_currentVideoSrcRef (Some src)
          |> set_commands (commands h ++ [SetSrc video src])
          |> set_cacheRef (lru_clear (cacheRef h))
          |> set_thumbnailUrl None
          |> set_error None
  | _, _ => h
  end.

Definition mount (src : option string) (en : bool) : hook :=
  bind_source (create_elements (initial src en)).

(** A render with new props: the cleanup and the body of the first effect
    when [enabled] changed, then the second effect when [videoSrc] or
    [enabled] changed. *)
Definition render (src : option string) (en : bool) (h : hook) : hook :=
  let h0 := h |> set_videoSrc src |> set_enabled en in
  let h1 :=
    if Bool.eqb (enabled h) en then h0
    else create_elements (if cleanup h then teardown h0 else h0) in
  if Bool.eqb (enabled h) en && option_string_eqb (videoSrc h) src then h1
  else bind_source h1.

Definition unmount (h : hook) : hook :=
  if cleanup h then teardown h |> set_cleanup false else h.

(** [captureThumbnail]; [frame] is what drawing the video on the canvas and
    [toDataURL] give: [None] when there is no 2d context or when either
    throws (a cross-origin source, for one). *)
Definition captureThumbnail (frame : option string) (h : hook) : option string :=
  match videoRef h with
  | None => None
  | Some _ => if canvasRef h then frame else None
  end.

Definition removeListeners (video capture : nat) (h : hook) : hook :=
  h |> set_listeners
         (filter (fun l => negb (Nat.eqb (l_video l) video && Nat.eqb (l_capture l) capture))
                 (listeners h)).

Definition handleSeeked (l : listener) (frame : option string) (h : hook) : hook :=
  let thumbnail := captureThumbnail frame h in
  let h1 :=
    match thumbnail with
    | Some url =>
        if truthy thumbnail then
          h |> set_cacheRef (lru_set (cacheRef h) (l_key l) url)
            |> set_thumbnailUrl thumbnail
            |> set_error None
        else h |> set_error (Some "Failed to capture thumbnail"%string) |> set_thumbnailUrl None
    | None => h |> set_error (Some "Failed to capture thumbnail"%string) |> set_thumbnailUrl None
    end in
  h1 |> set_isLoading false
     |> removeListeners (l_video l) (l_capture l)
     |> set_completions (completions h ++ [l_capture l]).

Definition handleError (l : listener) (h : hook) : hook :=
  h |> set_error (Some "Failed to load video for thumbnail"%string)
    |> set_thumbnailUrl None
    |> set_isLoading false
    |> removeListeners (l_video l) (l_capture l)
    |> set_completions (completions h ++ [l_capture l]).

(** The callback handed to [setTimeout], with the [videoSrc] it closes
    over. *)
Definition timeout_callback (src : string) (h : hook) : hook :=
  match pendingTimeRef h with
  | None => h
  | Some requestedTime =>
      let h := h |> set_attempts (attempts h ++ [requestedTime]) in
      let cacheKey := getCacheKey src requestedTime in
      let cached := fst (lru_get (cacheRef h) cacheKey) in
      let h := h |> set_cacheRef (snd (lru_get (cacheRef h) cacheKey)) in
      if truthy cached then
        h |> set_thumbnailUrl cached |> set_isLoading false |> set_error None
      else
        match videoRef h with
        | None => h |> set_error (Some "Video element not available"%string)
        | Some video =>
            h |> set_isLoading true
              |> set_error None
              |> set_listeners
                   (listeners h ++
                      [mkListener video Seeked (captures h) cacheKey;
                       mkListener video MediaError (captures h) cacheKey])
              |> set_captures (S (captures h))
              |> set_commands
                   (commands h ++
                      [SetCurrentTime video (roundTime requestedTime TIME_PRECISION)])
        end
  end.

(** [generateThumbnail], called when the clock reads [now]. *)
Definition generateThumbnail (now : Z) (time : Q) (h : hook) : hook :=
  if negb (enabled h) || negb (truthy (videoSrc h)) || negb isBrowser then h
  else
    match videoSrc h with
    | Some src =>
        h |> set_pendingTimeRef (Some time)
          |> set_debounceTimeoutRef
               (Some {| deadline := now + DEBOUNCE_DELAY; closure_src := src |})
    | None => h
    end.

Definition clearCache (h : hook) : hook :=
  h |> set_cacheRef (lru_clear (cacheRef h)) |> set_thumbnailUrl None.

(** *** The runtime *)

(** The pending timeout fires. *)
Definition timer_fires (h : hook) : hook :=
  match debounceTimeoutRef h with
  | None => h
  | Some tm => timeout_callback (closure_src tm) (h |> set_debounceTimeoutRef None)
  end.

Definition attached (l : listener) (h : hook) : bool :=
  existsb (listener_eqb l) (listeners h).

Definition handle (ev : media_event) (frame : option string) (h : hook) (l : listener) : hook :=
  if attached l h then
    match ev with
    | Seeked => handleSeeked l frame h
    | MediaError => handleError l h
    end
  else h.

(** A media event on a video element: the listeners attached for it when
    it is dispatched run in registration order, unless removed meanwhile. *)
Definition dispatch (video : nat) (ev : media_event) (frame : option string) (h : hook) : hook :=
  fold_left (handle ev frame) (filter (listens video ev) (listeners h)) h.

Inductive event :=
| Render (src : option string) (en : bool)
| Unmount
| GenerateThumbnail (now : Z) (time : Q)
| TimerFires
| Media (video : nat) (ev : media_event) (frame : option string)
| ClearCache.

Definition hook_step (h : hook) (e : event) : hook :=
  match e with
  | Render src en => render src en h
  | Unmount => unmount h
  | GenerateThumbnail now time => generateThumbnail now time h
  | TimerFires => timer_fires h
  | Media video ev frame => dispatch video ev frame h
  | ClearCache => clearCache h
  end.

Definition hook_run (es : list event) (h : hook) : hook := fold_left hook_step es h.

(** *** The clock *)

(** The clock reaches [now]: a timeout that is due fires. *)
Definition advance (now : Z) (h : hook) : hook :=
  match debounceTimeoutRef h with
  | Some tm => if deadline tm <=? now then timer_fires h else h
  | None => h
  end.

(** A call of [generateThumbnail time] when the clock reads [now]. *)
Definition request (h : hook) (call : Z * Q) : hook :=
  generateThumbnail (fst call) (snd call) (advance (fst call) h).

(** The calls of a list, each at its time, and then the clock running on
    to [final]. *)
Definition requests (calls : list (Z * Q)) (final : Z) (h : hook) : hook :=
  advance final (fold_left request calls h).

End Hook.

(** The message a failed capture leaves in [error]. *)
Definition failure_message (ev : media_event) : string :=
  match ev with
  | Seeked => "Failed to capture thumbnail"
  | MediaError => "Failed to load video for thumbnail"
  end.

(** What the preview shows after a failure, from the state [h0] before it:
    the cache as it was, the error set, no thumbnail, not loading. *)
Definition degraded (msg : string) (h0 h : hook) : Prop :=
  cacheRef h = cacheRef h0 /\
  error h = Some msg /\
  thumbnailUrl h = None /\
  isLoading h = false.

(** *** Bursts of calls *)

(** The last call of a non-empty list of calls. *)
Fixpoint last_call {A} (c : Z * A) (rest : list (Z * A)) : Z * A :=
  match rest with
  | [] => c
  | c' :: r => last_call c' r
  end.

(** The time between every two consecutive calls satisfies [P]. *)
Fixpoint spaced {A} (P : Z -> Prop) (calls : list (Z * A)) : Prop :=
  match calls with
  | c1 :: r => match r with
               | c2 :: _ => P (fst c2 - fst c1) /\ spaced P r
               | [] => True
               end
  | [] => True
  end.

Definition within_window (d : Z) : Prop := 0 <= d < DEBOUNCE_DELAY.

Definition beyond_window (d : Z) : Prop := DEBOUNCE_DELAY < d.

(** The scheduler after a call of [generateThumbnail time] at [now], under
    the source [src]. *)
Definition armed (src : string) (now : Z) (time : Q) (h : hook) : Prop :=
  debounceTimeoutRef h = Some {| deadline := now + DEBOUNCE_DELAY; closure_src := src |} /\
  pendingTimeRef h = Some time /\
  enabled h = true /\
  videoSrc h = Some src /\
  truthy (Some src) = true.

(** *** The listeners of a reachable state *)

(** The listeners of one capture on its element are attached together (for
    both events, or for none), the captures in flight have been counted, and
    no capture has two listeners for one event. *)
Record listeners_ok (h : hook) : Prop := mkListenersOk {
  lk_paired : forall l ev, In l (listeners h) ->
    exists l', In l' (listeners h) /\ l_video l' = l_video l /\
               l_capture l' = l_capture l /\ l_event l' = ev;
  lk_counted : forall l, In l (listeners h) -> (l_capture l < captures h)%nat;
  lk_once : NoDup (map (fun l => (l_capture l, l_event l)) (listeners h))
}.

(** The listeners of a capture on an element: what its handlers remove. *)
Definition of_capture (video capture : nat) (l : listener) : bool :=
  Nat.eqb (l_video l) video && Nat.eqb (l_capture l) capture.

(** The handler of a listener, for the event it listens to. *)
Definition handler (ev : media_event) (frame : option string) (h : hook) (l : listener) : hook :=
  match ev with
  | Seeked => handleSeeked l frame h
  | MediaError => handleError l h
  end.

(** *** What the specification asks of a superseded capture *)

(** The captures in flight in [h] are abandoned when a new one starts: once
    a later request has started its capture, no listener attached before is
    attached any more. *)
Definition abandons_in_flight (isBrowser : bool) (h : hook) : Prop :=
  forall (l : listener) (now : Z) (time : Q),
    In l (listeners h) ->
    let h' := timer_fires (generateThumbnail isBrowser now time h) in
    (captures h < captures h')%nat ->
    ~ In l (listeners h').

(** The state after unbinding from a source: the cache is empty, no timeout
    is pending, and a media event that arrives later changes nothing. *)
Definition unbound (h : hook) : Prop :=
  cache (cacheRef h) = [] /\
  debounceTimeoutRef h = None /\
  forall video ev frame, dispatch video ev frame h = h.

(** ** [debounce] of [utils/debounce.ts]

    The debounced function as a state: its delay, the timeout that is
    pending, with the arguments its callback closes over, and the calls of
    [fn] made so far. *)
Record debounced (A : Type) := mkDebounced {
  delay : Z;
  timeoutId : option (Z * A);
  fn_calls : list A
}.

Arguments mkDebounced {A}.
Arguments delay {A}.
Arguments timeoutId {A}.
Arguments fn_calls {A}.

Definition debounce {A : Type} (delay : Z) : debounced A :=
  {| delay := delay; timeoutId := None; fn_calls := [] |}.

(** A call of the debounced function when the clock reads [now]: the
    timeout is due after the delay, and [setTimeout] takes a delay below 0
    as 0. *)
Definition debounced_call {A} (now : Z) (args : A) (d : debounced A) : debounced A :=
  {| delay := delay d; timeoutId := Some (now + Z.max 0 (delay d), args);
     fn_calls := fn_calls d |}.

Definition debounced_cancel {A} (d : debounced A) : debounced A :=
  {| delay := delay d; timeoutId := None; fn_calls := fn_calls d |}.

(** The clock reaches [now]: a timeout that is due calls [fn]. *)
Definition debounced_advance {A} (now : Z) (d : debounced A) : debounced A :=
  match timeoutId d with
  | Some (due, args) =>
      if due <=? now
      then {| delay := delay d; timeoutId := None; fn_calls := fn_calls d ++ [args] |}
      else d
  | None => d
  end.


(** ** The cache as a plain map *)

(** What a plain map holds after a sequence of operations: the last value
    set for a key since the last [clear]. *)
Definition model_step (m : string -> option string) (o : op) : string -> option string :=
  match o with
  | OSet k v => fun k' => if String.eqb k' k then Some v else m k'
  | OClear => fun _ => None
  | OGet _ | OHas _ => m
  end.

Definition model (ops : list op) : string -> option string :=
  fold_left model_step ops (fun _ => None).

(** The [set] operations of a list of entries, in order. *)
Definition sets (entries : list (string * string)) : list op :=
  map (fun e => OSet (fst e) (snd e)) entries.

(** The values a sequence of operations stores. *)
Fixpoint set_values (ops : list op) : list string :=
  match ops with
  | [] => []
  | OSet _ v :: r => v :: set_values r
  | _ :: r => set_values r
  end.

(** Whether a character occurs in a string. *)
Fixpoint occurs (c : ascii) (s : string) : bool :=
  match s with
  | EmptyString => false
  | String a r => Ascii.eqb a c || occurs c r
  end.

(** ** The progress bar of [VideoControls] *)

(** Where the pointer is along the bar, as a fraction: the expression of
    [handleProgressClick] and [handleProgressMouseMove], for a bar of
    non-zero width. *)
Definition pointer_percent (clientX rect_left rect_width : Q) : Q :=
  Qmax 0 (Qmin 1 ((clientX - rect_left) / rect_width)).

(** JavaScript truthiness of a finite number. *)
Definition truthy_number (x : Q) : bool := negb (Qeq_bool x 0).

(** The [duration] prop of the controls: a finite number, an infinity (the
    duration of a live stream is [Infinity]) or [NaN] (the duration of a
    video without metadata). *)
Inductive number :=
| Finite (x : Q)
| Infinity
| NegInfinity
| NaN.

(** JavaScript truthiness of a number: zero and [NaN] are falsy. *)
Definition truthy_value (x : number) : bool :=
  match x with
  | Finite x => truthy_number x
  | Infinity | NegInfinity => true
  | NaN => false
  end.

(** The product [percent * x] of a finite [percent] and a number: zero
    times an infinity is [NaN]. *)
Definition times (percent : Q) (x : number) : number :=
  match x with
  | Finite x => Finite (percent * x)%Q
  | Infinity =>
      if Qeq_bool percent 0 then NaN
      else if Qle_bool 0 percent then Infinity else NegInfinity
  | NegInfinity =>
      if Qeq_bool percent 0 then NaN
      else if Qle_bool 0 percent then NegInfinity else Infinity
  | NaN => NaN
  end.

(** The hover state of the controls. *)
Record hover := mkHover {
  hoverTime : option number;
  hoverPosition : Q;
  progressWidth : Q
}.

(** [handleProgressClick], with the bar mounted: the time handed to
    [onSeek], if any. *)
Definition handleProgressClick
    (duration : number) (clientX rect_left rect_width : Q) : option number :=
  if negb (truthy_value duration) then None
  else Some (times (pointer_percent clientX rect_left rect_width) duration).

(** [handleProgressMouseMove], with the bar mounted: the new hover state,
    and the time [generateThumbnail] is called with, if it is called. *)
Definition handleProgressMouseMove
    (enableThumbnailPreview : bool) (videoSrc : option string)
    (duration : number) (clientX rect_left rect_width : Q) (st : hover) :
    hover * option number :=
  if negb (truthy_value duration) then (st, None)
  else
    let percent := pointer_percent clientX rect_left rect_width in
    let time := times percent duration in
    ({| hoverTime := Some time;
        hoverPosition := (percent * 100)%Q;
        progressWidth := rect_width |},
     if enableThumbnailPreview && truthy videoSrc then Some time else None).

(** The percentage at which [VideoControls] places the preview: the clamping
    of [ThumbnailPreview] on [hoverPosition] and [progressWidth || 1]. *)
Definition preview_position (st : hover) : Q :=
  clampedPosition (hoverPosition st)
                  (if truthy_number (progressWidth st) then progressWidth st else 1).

(** *** The cache of the hook *)

(** The cache [c'] comes from [c] by operations of the cache that store only
    non-empty values. *)
Definition cache_follows (c c' : ThumbnailLRUCache) : Prop :=
  exists ops, c' = run ops c /\ forall v, In v (set_values ops) -> v <> ""%string.

(** The state of a hook that has nothing to work with: no element, no
    timeout, no listener, no write to an element, an empty cache and the
    initial preview state. *)
Record inert (h : hook) : Prop := mkInert {
  inert_video : videoRef h = None;
  inert_canvas : canvasRef h = false;
  inert_timer : debounceTimeoutRef h = None;
  inert_listeners : listeners h = [];
  inert_commands : commands h = [];
  inert_cache : cache (cacheRef h) = [];
  inert_thumbnail : thumbnailUrl h = None;
  inert_loading : isLoading h = false;
  inert_error : error h = None;
  inert_attempts : attempts h = []
}.

(** What can happen to a debounced function: a call, a [cancel], or the
    clock running on. *)
Inductive debounce_event (A : Type) :=
| DCall (now : Z) (args : A)
| DCancel
| DAdvance (now : Z).

Arguments DCall {A}.
Arguments DCancel {A}.
Arguments DAdvance {A}.

Definition debounced_step {A} (d : debounced A) (e : debounce_event A) : debounced A :=
  match e with
  | DCall now args => debounced_call now args d
  | DCancel => debounced_cancel d
  | DAdvance now => debounced_advance now d
  end.

(** The arguments of the calls among the events, in order. *)
Fixpoint called_with {A} (es : list (debounce_event A)) : list A :=
  match es with
  | [] => []
  | DCall _ args :: r => args :: called_with r
  | _ :: r => called_with r
  end.

(** [l] is [m] with some elements left out. *)
Inductive subseq {A : Type} : list A -> list A -> Prop :=
| subseq_nil : subseq [] []
| subseq_skip l m a : subseq l m -> subseq l (a :: m)
| subseq_take l m a : subseq l m -> subseq (a :: l) (a :: m).

(** The arguments a pending timeout holds, as a list. *)
Definition pending_args {A} (d : debounced A) : list A :=
  match timeoutId d with
  | Some (_, args) => [args]
  | None => []
  end.

(** ** [throttle] of [utils/debounce.ts]

    The throttled function as a state: its limit, [inThrottle], [lastArgs],
    the timeout that is pending (by the time it is due), and the calls of
    [fn] made so far, each with the time it was made at. A timeout is due
    [max 0 limit] after it is set, and its callback runs at that time. *)
Record throttled (A : Type) := mkThrottled {
  limit : Z;
  inThrottle : bool;
  lastArgs : option A;
  throttle_timeout : option Z;
  throttle_calls : list (Z * A)
}.

Arguments mkThrottled {A}.
Arguments limit {A}.
Arguments inThrottle {A}.
Arguments lastArgs {A}.
Arguments throttle_timeout {A}.
Arguments throttle_calls {A}.

Definition throttle {A : Type} (limit : Z) : throttled A :=
  {| limit := limit; inThrottle := false; lastArgs := None;
     throttle_timeout := None; throttle_calls := [] |}.

(** A call of the throttled function when the clock reads [now]. *)
Definition throttled_call {A} (now : Z) (args : A) (t : throttled A) : throttled A :=
  if negb (inThrottle t) then
    {| limit := limit t; inThrottle := true; lastArgs := lastArgs t;
       throttle_timeout := Some (now + Z.max 0 (limit t));
       throttle_calls := throttle_calls t ++ [(now, args)] |}
  else
    {| limit := limit t; inThrottle := inThrottle t; lastArgs := Some args;
       throttle_timeout := throttle_timeout t; throttle_calls := throttle_calls t |}.

Definition throttled_cancel {A} (t : throttled A) : throttled A :=
  {| limit := limit t; inThrottle := false; lastArgs := None;
     throttle_timeout := None; throttle_calls := throttle_calls t |}.

(** The callback of the timeout, run when the clock reads [now]. *)
Definition throttle_callback {A} (now : Z) (t : throttled A) : throttled A :=
  let t1 := {| limit := limit t; inThrottle := false; lastArgs := lastArgs t;
               throttle_timeout := None; throttle_calls := throttle_calls t |} in
  match lastArgs t with
  | Some args =>
      let t2 := throttled_call now args t1 in
      {| limit := limit t2; inThrottle := inThrottle t2; lastArgs := None;
         throttle_timeout := throttle_timeout t2; throttle_calls := throttle_calls t2 |}
  | None => t1
  end.

(** A timeout that is due by [now] runs, at the time it is due. *)
Definition throttle_fire (now : Z) {A} (t : throttled A) : throttled A :=
  match throttle_timeout t with
  | Some due => if due <=? now then throttle_callback due t else t
  | None => t
  end.

(** The clock reaches [now]: the timeout that is due runs, and so does the
    one it may set. *)
Definition throttle_advance {A} (now : Z) (t : throttled A) : throttled A :=
  throttle_fire now (throttle_fire now t).

Definition throttled_request {A} (t : throttled A) (call : Z * A) : throttled A :=
  throttled_call (fst call) (snd call) (throttle_advance (fst call) t).

(** The last call of [fn], if any: its time and its arguments. *)
Definition last_fn {A} (t : throttled A) : option (Z * A) :=
  match throttle_calls t with
  | [] => None
  | c :: r => Some (last_call c r)
  end.

Definition last_fn_time {A} (t : throttled A) : option Z := option_map fst (last_fn t).

Definition last_fn_args {A} (t : throttled A) : option A := option_map snd (last_fn t).

(** The calls come at non-decreasing times, from [now] on. *)
Fixpoint ascending {A} (now : Z) (calls : list (Z * A)) : Prop :=
  match calls with
  | [] => True
  | c :: r => now <= fst c /\ ascending (fst c) r
  end.

(** The time of the last of the calls, [now] when there is none. *)
Fixpoint last_time {A} (now : Z) (calls : list (Z * A)) : Z :=
  match calls with
  | [] => now
  | c :: r => last_time (fst c) r
  end.

(** The arguments of the latest call have been passed to [fn], or are
    waiting for the timeout. *)
Definition latest_kept {A} (latest : A) (t : throttled A) : Prop :=
  match lastArgs t with
  | Some args => args = latest /\ inThrottle t = true
  | None => last_fn_args t = Some latest
  end.

(** The invariant of a throttled function that is called at non-decreasing
    times, the last at [now], and never cancelled: the calls of [fn] are at
    least the limit apart; while [inThrottle], the timeout is due one limit
    after the last call of [fn]; otherwise no timeout and no arguments are
    pending and the last call of [fn] is at least one limit back. *)
Record throttle_inv {A} (now : Z) (t : throttled A) : Prop := mkThrottleInv {
  ti_spaced : spaced (fun gap => limit t <= gap) (throttle_calls t);
  ti_busy : inThrottle t = true ->
            exists time, last_fn_time t = Some time /\
                         throttle_timeout t = Some (time + Z.max 0 (limit t)) /\
                         time <= now;
  ti_idle : inThrottle t = false ->
            throttle_timeout t = None /\ lastArgs t = None /\
            forall time, last_fn_time t = Some time -> time + limit t <= now
}.

(** ** Durations: [utils/format-duration.ts] *)

(** [String.prototype.padStart] with a pad of one character. *)
Definition padStart (targetLength : nat) (padString : ascii) (s : string) : string :=
  String.append
    (string_of_list_ascii (repeat padString (targetLength - String.length s))) s.

(** [toString] of an integral number. *)
Definition toString (z : Z) : string := NilZero.string_of_int (Z.to_int z).

(** [String.prototype.split] with a separator of one character. *)
Fixpoint split (separator : ascii) (s : string) : list string :=
  match s with
  | EmptyString => [EmptyString]
  | String c r =>
      if Ascii.eqb c separator then EmptyString :: split separator r
      else match split separator r with
           | h :: t => String c h :: t
           | [] => [String c EmptyString]
           end
  end.

Record format_options := mkFormatOptions {
  forceHours : bool;
  padMinutes : bool
}.

(** [formatDuration]: the argument is [None] for a number that is not finite
    (NaN, an infinity). *)
Definition formatDuration (seconds : option Q) (options : format_options) : string :=
  match seconds with
  | None => "0:00"%string
  | Some seconds =>
      if negb (Qle_bool 0 seconds) then "0:00"%string
      else
        let totalSeconds := Qfloor seconds in
        let hours := totalSeconds / 3600 in
        let minutes := Z.rem totalSeconds 3600 / 60 in
        let secs := Z.rem totalSeconds 60 in
        let paddedSecs := padStart 2 "0" (toString secs) in
        if (0 <? hours) || forceHours options then
          let paddedMins := padStart 2 "0" (toString minutes) in
          String.append (toString hours)
            (String.append ":" (String.append paddedMins (String.append ":" paddedSecs)))
        else
          let formattedMins :=
            if padMinutes options then padStart 2 "0" (toString minutes)
            else toString minutes in
          String.append formattedMins (String.append ":" paddedSecs)
  end.

Section Durations.

(** The conversion [Number] of a string, [None] when the result is not
    finite. *)
Variable Number : string -> option Q.

Definition parseDuration (duration : string) : Q :=
  let parts := map Number (split ":" duration) in
  if existsb (fun p => match p with
                       | None => true
                       | Some p => negb (Qle_bool 0 p)
                       end) parts
  then 0%Q
  else match parts with
       | [Some hours; Some minutes; Some seconds] =>
           (hours * 3600 + minutes * 60 + seconds)%Q
       | [Some minutes; Some seconds] => (minutes * 60 + seconds)%Q
       | Some p :: _ => p
       | _ => 0%Q
       end.

End Durations.

(** The number a string of decimal digits denotes, leading zeros allowed. *)
Definition decimal_value (s : string) : option Z :=
  option_map Z.of_uint (NilZero.uint_of_string s).

(** Whether an event is a render that enables the engine. *)
Definition enabling (e : event) : bool :=
  match e with
  | Render _ true => true
  | _ => false
  end.

(** * Properties *)

(** ** The map operations on association lists *)

Section JSMapFacts.

Implicit Types (m : JSMap.t) (k v : string).

Lemma get_none_iff m k : JSMap.get m k = None <-> ~ In k (JSMap.keys m).
Proof.
  induction m as [|[k' v'] r IH]; simpl.
  - tauto.
  - destruct (String.eqb_spec k' k) as [->|Hne].
    + split; [discriminate | intros H; elim H; now left].
    + rewrite IH. split; [intros H [E|I]; [congruence | tauto] | tauto].
Qed.

Lemma has_true_iff m k : JSMap.has m k = true <-> In k (JSMap.keys m).
Proof.
  unfold JSMap.has. destruct (JSMap.get m k) eqn:E.
  - split; [intros _ | reflexivity].
    destruct (in_dec string_dec k (JSMap.keys m)) as [I|N]; [exact I|].
    apply get_none_iff in N. congruence.
  - apply get_none_iff in E. split; [discriminate | tauto].
Qed.

Lemma has_false_iff m k : JSMap.has m k = false <-> ~ In k (JSMap.keys m).
Proof.
  rewrite <- has_true_iff. destruct (JSMap.has m k); split; congruence.
Qed.

Lemma delete_absent m k : ~ In k (JSMap.keys m) -> JSMap.delete m k = m.
Proof.
  induction m as [|[k' v'] r IH]; simpl; intros H; [reflexivity|].
  destruct (String.eqb_spec k' k) as [->|Hne]; simpl.
  - elim H. now left.
  - f_equal. apply IH. tauto.
Qed.

Lemma keys_delete m k :
  JSMap.keys (JSMap.delete m k) = filter (fun x => negb (String.eqb x k)) (JSMap.keys m).
Proof.
  induction m as [|[k' v'] r IH]; simpl; [reflexivity|].
  destruct (String.eqb k' k); simpl; now rewrite <- IH.
Qed.

Lemma in_keys_delete m k x :
  In x (JSMap.keys (JSMap.delete m k)) <-> In x (JSMap.keys m) /\ x <> k.
Proof.
  rewrite keys_delete, filter_In. destruct (String.eqb_spec x k); simpl; intuition congruence.
Qed.

Lemma set_absent m k v : ~ In k (JSMap.keys m) -> JSMap.set m k v = m ++ [(k, v)].
Proof.
  induction m as [|[k' v'] r IH]; simpl; intros H; [reflexivity|].
  destruct (String.eqb_spec k' k) as [->|Hne].
  - elim H. now left.
  - f_equal. apply IH. tauto.
Qed.

Lemma delete_first k v r :
  NoDup (JSMap.keys ((k, v) :: r)) -> JSMap.delete ((k, v) :: r) k = r.
Proof.
  simpl. intros H. inversion_clear H as [|? ? Hn _].
  rewrite String.eqb_refl. simpl. now apply delete_absent.
Qed.

Lemma NoDup_keys_delete m k : NoDup (JSMap.keys m) -> NoDup (JSMap.keys (JSMap.delete m k)).
Proof. rewrite keys_delete. apply NoDup_filter. Qed.

End JSMapFacts.

(** ** What [get] and [set] do to the list of entries *)

Lemma lru_set_cache c k v :
  NoDup (JSMap.keys (cache c)) ->
  cache (lru_set c k v) = evict_if_full (maxSize c) (JSMap.delete (cache c) k) ++ [(k, v)].
Proof.
  intros Hnd. unfold lru_set, evict_if_full.
  assert (Hm1 : (if JSMap.has (cache c) k then JSMap.delete (cache c) k else cache c)
                = JSMap.delete (cache c) k).
  { destruct (JSMap.has (cache c) k) eqn:E; [reflexivity|].
    symmetry. apply delete_absent. now apply has_false_iff. }
  rewrite Hm1.
  pose proof (NoDup_keys_delete (cache c) k Hnd) as Hnd1.
  assert (Hk : ~ In k (JSMap.keys (JSMap.delete (cache c) k))).
  { rewrite in_keys_delete. tauto. }
  destruct (JSMap.size (JSMap.delete (cache c) k) >=? maxSize c).
  - destruct (JSMap.delete (cache c) k) as [|[k0 v0] r] eqn:E; simpl JSMap.first_key; cbv iota.
    + reflexivity.
    + cbn [cache]. rewrite (delete_first k0 v0 r Hnd1). simpl tl.
      apply set_absent. simpl in Hk. tauto.
  - cbn [cache]. now apply set_absent.
Qed.

Lemma lru_get_hit c k v :
  JSMap.get (cache c) k = Some v ->
  lru_get c k = (Some v, {| cache := JSMap.delete (cache c) k ++ [(k, v)];
                            maxSize := maxSize c; revoked := revoked c |}).
Proof.
  intros E. unfold lru_get. rewrite E. f_equal. f_equal.
  apply set_absent. rewrite in_keys_delete. tauto.
Qed.

Lemma lru_get_miss c k : JSMap.get (cache c) k = None -> lru_get c k = (None, c).
Proof. intros E. unfold lru_get. now rewrite E. Qed.

Lemma maxSize_step c o : maxSize (step c o) = maxSize c.
Proof.
  destruct o; simpl; try reflexivity.
  - unfold lru_get. destruct (JSMap.get (cache c) k); reflexivity.
  - unfold lru_set. destruct (if JSMap.size _ >=? _ then _ else _). reflexivity.
Qed.

Lemma maxSize_lru_set c k v : maxSize (lru_set c k v) = maxSize c.
Proof. apply (maxSize_step c (OSet k v)). Qed.

Lemma maxSize_run ops c : maxSize (run ops c) = maxSize c.
Proof.
  revert c. induction ops as [|o r IH]; intros c; simpl; [reflexivity|].
  unfold run in IH. now rewrite IH, maxSize_step.
Qed.

(** ** The scenarios of the test suite *)

Example store_and_retrieve :
  fst (lru_get (run [OSet "key1" "value1"] (new_cache 5)) "key1") = Some "value1"%string.
Proof. reflexivity. Qed.

Example evict_oldest :
  let c := run [OSet "key1" "value1"; OSet "key2" "value2"; OSet "key3" "value3";
                OSet "key4" "value4"; OSet "key5" "value5"; OSet "key6" "value6"]
               (new_cache 5) in
  fst (lru_get c "key1") = None /\
  fst (lru_get c "key6") = Some "value6"%string /\
  lru_size c = 5.
Proof. repeat split. Qed.

Example order_updated_on_get :
  let c := run [OSet "key1" "value1"; OSet "key2" "value2"; OSet "key3" "value3";
                OSet "key4" "value4"; OSet "key5" "value5"; OGet "key1";
                OSet "key6" "value6"]
               (new_cache 5) in
  fst (lru_get c "key1") = Some "value1"%string /\ fst (lru_get c "key2") = None.
Proof. split; reflexivity. Qed.

Example duplicate_set :
  let c := run [OSet "key1" "value1"; OSet "key2" "value2"; OSet "key3" "value3";
                OSet "key4" "value4"; OSet "key5" "value5"; OSet "key1" "updated1";
                OSet "key6" "value6"]
               (new_cache 5) in
  fst (lru_get c "key1") = Some "updated1"%string /\ fst (lru_get c "key2") = None.
Proof. split; reflexivity. Qed.

Example clear_revokes_blobs :
  let c := lru_clear (run [OSet "a" "blob:1"; OSet "b" "data:2"; OSet "c" "blob:3"]
                          (new_cache 5)) in
  lru_size c = 0 /\ revoked c = ["blob:1"%string; "blob:3"%string].
Proof. split; reflexivity. Qed.

(** ** Well-formed caches *)

Lemma keys_app (m1 m2 : JSMap.t) : JSMap.keys (m1 ++ m2) = JSMap.keys m1 ++ JSMap.keys m2.
Proof. apply map_app. Qed.

Lemma keys_tl (m : JSMap.t) : JSMap.keys (tl m) = tl (JSMap.keys m).
Proof. now destruct m. Qed.

Lemma In_tl {A} (x : A) l : In x (tl l) -> In x l.
Proof. destruct l; simpl; tauto. Qed.

Lemma NoDup_tl {A} (l : list A) : NoDup l -> NoDup (tl l).
Proof. destruct l; simpl; [trivial|]. now inversion 1. Qed.

Lemma NoDup_snoc {A} (l : list A) x : NoDup l -> ~ In x l -> NoDup (l ++ [x]).
Proof.
  intros Hl Hx. apply NoDup_app; [exact Hl | repeat constructor; simpl; tauto |].
  intros y Hy [<-|[]]. tauto.
Qed.

Lemma in_keys_evict limit m x :
  In x (JSMap.keys (evict_if_full limit m)) -> In x (JSMap.keys m).
Proof.
  unfold evict_if_full. destruct (_ >=? _); [|trivial].
  rewrite keys_tl. apply In_tl.
Qed.

Lemma NoDup_keys_evict limit m :
  NoDup (JSMap.keys m) -> NoDup (JSMap.keys (evict_if_full limit m)).
Proof.
  unfold evict_if_full. destruct (_ >=? _); [|trivial].
  rewrite keys_tl. apply NoDup_tl.
Qed.

Lemma wf_new size : wf (new_cache size).
Proof. constructor. Qed.

Lemma wf_step c o : wf c -> wf (step c o).
Proof.
  unfold wf. intros H. destruct o as [k|k v|k|]; simpl.
  - destruct (JSMap.get (cache c) k) as [v|] eqn:E.
    + rewrite (lru_get_hit c k v E). simpl. rewrite keys_app. apply NoDup_snoc.
      * now apply NoDup_keys_delete.
      * rewrite in_keys_delete. tauto.
    + now rewrite (lru_get_miss c k E).
  - rewrite (lru_set_cache c k v H), keys_app. apply NoDup_snoc.
    + now apply NoDup_keys_evict, NoDup_keys_delete.
    + intros I. apply in_keys_evict, in_keys_delete in I. tauto.
  - exact H.
  - constructor.
Qed.

Lemma wf_run ops c : wf c -> wf (run ops c).
Proof.
  revert c. induction ops as [|o r IH]; intros c H; simpl; [exact H|].
  apply IH, wf_step, H.
Qed.

(** ** The size of the cache *)

Lemma size_nonneg c : 0 <= lru_size c.
Proof. unfold lru_size, JSMap.size. lia. Qed.

Lemma length_delete_le (m : JSMap.t) k : (List.length (JSMap.delete m k) <= List.length m)%nat.
Proof. apply filter_length_le. Qed.

Lemma length_delete_present (m : JSMap.t) k :
  NoDup (JSMap.keys m) -> In k (JSMap.keys m) ->
  S (List.length (JSMap.delete m k)) = List.length m.
Proof.
  induction m as [|[k' v'] r IH]; simpl; intros Hnd Hin; [tauto|].
  inversion_clear Hnd as [|? ? Hn Hr].
  destruct (String.eqb_spec k' k) as [->|Hne]; simpl.
  - f_equal. f_equal. now apply delete_absent.
  - f_equal. apply IH; [exact Hr|]. destruct Hin; [congruence | assumption].
Qed.

Lemma length_evict_snoc limit (m : JSMap.t) e :
  Z.of_nat (List.length m) <= Z.max 1 limit ->
  Z.of_nat (List.length (evict_if_full limit m ++ [e])) <= Z.max 1 limit.
Proof.
  unfold evict_if_full, JSMap.size. intros H. rewrite length_app. simpl.
  destruct (Z.geb_spec (Z.of_nat (List.length m)) limit) as [Hge|Hlt].
  - destruct m; simpl in *; lia.
  - lia.
Qed.

Lemma size_step_bound c o :
  wf c ->
  lru_size c <= Z.max 1 (maxSize c) ->
  lru_size (step c o) <= Z.max 1 (maxSize c).
Proof.
  unfold lru_size, JSMap.size. intros Hwf Hle. destruct o as [k|k v|k|]; simpl.
  - destruct (JSMap.get (cache c) k) as [v|] eqn:E.
    + rewrite (lru_get_hit c k v E). simpl. rewrite length_app. simpl.
      assert (In k (JSMap.keys (cache c))) as I.
      { apply has_true_iff. unfold JSMap.has. now rewrite E. }
      pose proof (length_delete_present (cache c) k Hwf I). lia.
    + now rewrite (lru_get_miss c k E).
  - rewrite (lru_set_cache c k v Hwf). apply length_evict_snoc.
    pose proof (length_delete_le (cache c) k). lia.
  - exact Hle.
  - lia.
Qed.

Lemma size_run_bound ops c :
  wf c ->
  lru_size c <= Z.max 1 (maxSize c) ->
  lru_size (run ops c) <= Z.max 1 (maxSize c).
Proof.
  revert c. induction ops as [|o r IH]; intros c Hwf Hle; simpl; [exact Hle|].
  specialize (IH (step c o) (wf_step c o Hwf)).
  rewrite maxSize_step in IH. apply IH. now apply size_step_bound.
Qed.

(** ** C2: the capacity invariant *)

(** C2. A cache constructed with a maximum size [N >= 1] holds between 0 and
    [N] entries after every operation of every sequence of [get], [set],
    [has] and [clear]: the bound holds after each prefix of the sequence. *)
Theorem capacity_invariant (N : Z) (ops : list op) (n : nat) :
  1 <= N ->
  0 <= lru_size (run (firstn n ops) (new_cache N)) <= N.
Proof.
  intros HN. split; [apply size_nonneg|].
  pose proof (size_run_bound (firstn n ops) (new_cache N) (wf_new N)) as H.
  simpl maxSize in H. rewrite Z.max_r in H by lia. apply H.
  unfold lru_size, JSMap.size. simpl. lia.
Qed.

Lemma capacity_invariant_witness :
  0 <= lru_size (run (firstn 4 [OSet "a" "1"; OSet "b" "2"; OGet "a"; OSet "c" "3"; OClear])
                     (new_cache 2)) <= 2.
Proof. apply (capacity_invariant 2); lia. Defined.

(** ** C7: construction with a maximum size below 1 *)

(** C7 (as stated, refuted). The specification has the constructor reject a
    maximum size below 1; the constructor stores it and returns an (empty)
    cache. *)
Lemma construct_zero_not_rejected :
  ~ (exists err, construct (Some 0) = Rejected err).
Proof. intros [err H]. discriminate H. Qed.

(** C7 (amended). For a maximum size [N < 1] the constructor returns an empty
    cache whose [maxSize] is [N]; no error is raised. On that cache every
    [set] of a key stores it (after evicting the entry held, if any), so it
    holds one entry after a [set] and at most one after every sequence of
    operations. *)
Theorem construct_below_one (N : Z) (ops : list op) :
  N < 1 ->
  construct (Some N) = Constructed (new_cache N) /\
  cache (new_cache N) = [] /\ maxSize (new_cache N) = N /\
  0 <= lru_size (run ops (new_cache N)) <= 1 /\
  (forall k v, lru_get (lru_set (run ops (new_cache N)) k v) k
               = (Some v, {| cache := [(k, v)]; maxSize := N;
                             revoked := revoked (lru_set (run ops (new_cache N)) k v) |})).
Proof.
  intros HN. split; [reflexivity|]. split; [reflexivity|]. split; [reflexivity|].
  pose proof (size_run_bound ops (new_cache N) (wf_new N)) as H.
  simpl maxSize in H. rewrite Z.max_l in H by lia.
  assert (Hb : lru_size (run ops (new_cache N)) <= 1).
  { apply H. unfold lru_size, JSMap.size. simpl. lia. }
  split; [split; [apply size_nonneg | exact Hb]|].
  intros k v.
  pose proof (wf_run ops (new_cache N) (wf_new N)) as Hwf.
  pose proof (maxSize_run ops (new_cache N)) as Hm. simpl in Hm.
  set (c := run ops (new_cache N)) in *.
  assert (Hc : cache (lru_set c k v) = [(k, v)]).
  { rewrite (lru_set_cache c k v Hwf). unfold evict_if_full, JSMap.size.
    pose proof (length_delete_le (cache c) k) as Hl.
    unfold lru_size, JSMap.size in Hb.
    destruct (Z.geb_spec (Z.of_nat (List.length (JSMap.delete (cache c) k))) (maxSize c)) as [_|Hlt];
      [|lia].
    destruct (JSMap.delete (cache c) k) as [|e [|e' r]]; simpl in *; try reflexivity; lia. }
  assert (Hms : maxSize (lru_set c k v) = N).
  { change (lru_set c k v) with (step c (OSet k v)). now rewrite maxSize_step. }
  unfold lru_get. rewrite Hc. simpl. rewrite String.eqb_refl. simpl.
  now rewrite Hms.
Qed.

Lemma construct_below_one_witness :
  construct (Some 0) = Constructed (new_cache 0) /\
  0 <= lru_size (run [OSet "a" "1"; OSet "b" "2"] (new_cache 0)) <= 1.
Proof.
  destruct (construct_below_one 0 [OSet "a" "1"; OSet "b" "2"]) as (H1 & _ & _ & H2 & _); [lia|].
  split; [exact H1 | exact H2].
Defined.

(** ** The order of the entries and the touch times *)

Lemma touch_same f k n : touch f k n k = Some n.
Proof. unfold touch. now rewrite String.eqb_refl. Qed.

Lemma touch_other f k n x : x <> k -> touch f k n x = f x.
Proof. unfold touch. intros H. destruct (String.eqb_spec x k); [congruence | reflexivity]. Qed.

Lemma older_touch_other f k n x y :
  x <> k -> y <> k -> older f x y -> older (touch f k n) x y.
Proof. unfold older. intros Hx Hy. now rewrite !touch_other. Qed.

Lemma older_touch_new f k n x :
  x <> k -> f x <> None -> (forall t, f x = Some t -> (t < n)%nat) ->
  older (touch f k n) x k.
Proof.
  unfold older. intros Hx Hs Hlt. rewrite touch_same, touch_other by exact Hx.
  destruct (f x) as [t|]; [now apply Hlt | congruence].
Qed.

Lemma by_touch_filter f p l : by_touch f l -> by_touch f (filter p l).
Proof.
  induction l as [|a r IH]; simpl; [trivial|]. intros [Ha Hr].
  destruct (p a); simpl; [|now apply IH].
  split; [|now apply IH]. intros k' Hk'. apply Ha. now apply filter_In in Hk'.
Qed.

Lemma by_touch_tl f l : by_touch f l -> by_touch f (tl l).
Proof. destruct l; simpl; tauto. Qed.

Lemma by_touch_promote f n l k :
  (forall x t, f x = Some t -> (t < n)%nat) ->
  (forall x, In x l -> f x <> None) ->
  ~ In k l ->
  by_touch f l ->
  by_touch (touch f k n) (l ++ [k]).
Proof.
  intros Hclock. induction l as [|a r IH]; simpl; intros Hheld Hk Hs.
  - split; [tauto | trivial].
  - destruct Hs as [Ha Hr]. split.
    + intros k' Hk'. apply in_app_or in Hk'. destruct Hk' as [Hin|[<-|[]]].
      * apply older_touch_other; [tauto | intros ->; tauto | now apply Ha].
      * apply older_touch_new; [tauto | apply Hheld; now left | apply Hclock].
    + apply IH; [intros x Hx; apply Hheld; now right | tauto | exact Hr].
Qed.

Lemma by_touch_keys_evict f limit m :
  by_touch f (JSMap.keys m) -> by_touch f (JSMap.keys (evict_if_full limit m)).
Proof.
  unfold evict_if_full. destruct (_ >=? _); [|trivial].
  rewrite keys_tl. apply by_touch_tl.
Qed.

Lemma inv_new size : inv (traced_new size).
Proof.
  constructor; simpl.
  - apply wf_new.
  - discriminate.
  - tauto.
  - exact I.
Qed.

(** Moving [k] to the newest end, on a sublist [m'] of the entries without
    [k]. *)
Lemma inv_promote s (m' : JSMap.t) k v c' :
  inv s ->
  cache c' = m' ++ [(k, v)] ->
  (forall x, In x (JSMap.keys m') -> In x (JSMap.keys (cache (t_cache s))) /\ x <> k) ->
  NoDup (JSMap.keys m') ->
  by_touch (t_touch s) (JSMap.keys m') ->
  inv {| t_cache := c'; t_clock := S (t_clock s);
         t_touch := touch (t_touch s) k (t_clock s) |}.
Proof.
  intros [Hwf Hclock Hheld Horder] Hc Hsub Hnd Hs.
  constructor; unfold wf; simpl; rewrite ?Hc, ?keys_app; simpl.
  - apply NoDup_snoc; [exact Hnd | intros Hin; apply Hsub in Hin; tauto].
  - intros x t. unfold touch. destruct (String.eqb x k).
    + intros [= <-]. lia.
    + intros E. apply Hclock in E. lia.
  - intros x Hx. apply in_app_or in Hx. destruct Hx as [Hx|[<-|[]]].
    + apply Hsub in Hx. rewrite touch_other by tauto. apply Hheld. tauto.
    + rewrite touch_same. discriminate.
  - apply by_touch_promote; try assumption.
    + intros x Hx. apply Hheld. now apply Hsub.
    + intros Hin. apply Hsub in Hin. tauto.
Qed.

Lemma inv_step s o : inv s -> inv (traced_step s o).
Proof.
  intros Hinv. pose proof Hinv as [Hwf Hclock Hheld Horder].
  destruct o as [k|k v|k|]; unfold traced_step; simpl step.
  - unfold lru_has, JSMap.has. destruct (JSMap.get (cache (t_cache s)) k) as [v|] eqn:E.
    + rewrite (lru_get_hit _ k v E). simpl snd.
      eapply inv_promote with (m' := JSMap.delete (cache (t_cache s)) k) (v := v);
        [exact Hinv | reflexivity | | |].
      * intros x. apply in_keys_delete.
      * now apply NoDup_keys_delete.
      * rewrite keys_delete. now apply by_touch_filter.
    + rewrite (lru_get_miss _ k E). simpl snd.
      constructor; simpl; try assumption.
      intros x t Hx. apply Hclock in Hx. lia.
  - eapply inv_promote with
      (m' := evict_if_full (maxSize (t_cache s)) (JSMap.delete (cache (t_cache s)) k)) (v := v);
      [exact Hinv | now apply lru_set_cache | | |].
    + intros x Hx. apply in_keys_evict in Hx. now apply in_keys_delete.
    + now apply NoDup_keys_evict, NoDup_keys_delete.
    + apply by_touch_keys_evict. rewrite keys_delete. now apply by_touch_filter.
  - constructor; simpl; try assumption.
    intros x t Hx. apply Hclock in Hx. lia.
  - constructor; simpl; try tauto.
    + constructor.
    + intros x t Hx. apply Hclock in Hx. lia.
Qed.

Lemma inv_run ops s : inv s -> inv (traced_run ops s).
Proof.
  revert s. induction ops as [|o r IH]; intros s H; simpl; [exact H|].
  apply IH, inv_step, H.
Qed.

Lemma t_cache_run ops s : t_cache (traced_run ops s) = run ops (t_cache s).
Proof.
  revert s. induction ops as [|o r IH]; intros s; simpl; [reflexivity|].
  now rewrite IH.
Qed.

(** ** What a [set] evicts *)

Lemma lru_set_new_full c k v :
  wf c -> ~ In k (JSMap.keys (cache c)) -> maxSize c <= lru_size c ->
  cache (lru_set c k v) = tl (cache c) ++ [(k, v)].
Proof.
  intros Hwf Hk Hfull. rewrite (lru_set_cache c k v Hwf), (delete_absent _ _ Hk).
  unfold evict_if_full. unfold lru_size in Hfull.
  destruct (Z.geb_spec (JSMap.size (cache c)) (maxSize c)); [reflexivity | lia].
Qed.

Lemma lru_set_new_room c k v :
  wf c -> ~ In k (JSMap.keys (cache c)) -> lru_size c < maxSize c ->
  cache (lru_set c k v) = cache c ++ [(k, v)].
Proof.
  intros Hwf Hk Hroom. rewrite (lru_set_cache c k v Hwf), (delete_absent _ _ Hk).
  unfold evict_if_full. unfold lru_size in Hroom.
  destruct (Z.geb_spec (JSMap.size (cache c)) (maxSize c)); [lia | reflexivity].
Qed.

Lemma lru_set_held c k v :
  wf c -> In k (JSMap.keys (cache c)) -> lru_size c <= maxSize c ->
  cache (lru_set c k v) = JSMap.delete (cache c) k ++ [(k, v)].
Proof.
  intros Hwf Hk Hle. rewrite (lru_set_cache c k v Hwf).
  unfold evict_if_full, JSMap.size. unfold lru_size, JSMap.size in Hle.
  pose proof (length_delete_present (cache c) k Hwf Hk).
  destruct (Z.geb_spec (Z.of_nat (List.length (JSMap.delete (cache c) k))) (maxSize c));
    [lia | reflexivity].
Qed.

Lemma first_key_oldest s k0 :
  inv s ->
  JSMap.first_key (cache (t_cache s)) = Some k0 ->
  forall k', In k' (JSMap.keys (cache (t_cache s))) -> k' <> k0 -> older (t_touch s) k0 k'.
Proof.
  intros [_ _ _ Horder]. destruct (cache (t_cache s)) as [|[k1 v1] r]; simpl; [discriminate|].
  intros [= ->] k' [E|Hin] Hne; [congruence|]. simpl in Horder. now apply Horder.
Qed.

(** ** Runs without [clear] on a cache of maximum size at least 1 *)

Lemma inv_full_new size : 0 <= size -> inv_full (traced_new size).
Proof.
  intros H. constructor; simpl.
  - unfold lru_size, JSMap.size. simpl. lia.
  - tauto.
  - tauto.
Qed.

(** Promotion of a held key, by a [get] that finds it or by a [set]. *)
Lemma inv_full_promote s k v c' :
  inv s -> inv_full s ->
  In k (JSMap.keys (cache (t_cache s))) ->
  cache c' = JSMap.delete (cache (t_cache s)) k ++ [(k, v)] ->
  maxSize c' = maxSize (t_cache s) ->
  inv_full {| t_cache := c'; t_clock := S (t_clock s);
              t_touch := touch (t_touch s) k (t_clock s) |}.
Proof.
  intros [Hwf Hclock Hheld Horder] [Hsize Hmiss Hrec] Hk Hc Hm.
  assert (Hsz : lru_size c' = lru_size (t_cache s)).
  { unfold lru_size, JSMap.size. rewrite Hc, length_app. simpl.
    pose proof (length_delete_present _ k Hwf Hk). lia. }
  assert (Hin : forall x, In x (JSMap.keys (cache c')) <->
                          x = k \/ In x (JSMap.keys (cache (t_cache s)))).
  { intros x. rewrite Hc, keys_app, in_app_iff, in_keys_delete. simpl.
    destruct (string_dec x k) as [->|Hne]; intuition congruence. }
  constructor; simpl; rewrite ?Hsz, ?Hm.
  - exact Hsize.
  - intros x Hx. rewrite Hin. destruct (string_dec x k) as [->|Hne]; [tauto|].
    rewrite touch_other in Hx by exact Hne. destruct (Hmiss x Hx); tauto.
  - intros x x' Hx Hx' Ht. rewrite Hin in Hx, Hx'.
    assert (x' <> k) by tauto. rewrite touch_other in Ht by assumption.
    destruct (string_dec x k) as [->|Hne].
    + apply older_touch_new; [assumption | exact Ht | apply Hclock].
    + apply older_touch_other; try assumption. apply Hrec; tauto.
Qed.

Lemma inv_full_step s o :
  inv s -> inv_full s -> 1 <= maxSize (t_cache s) -> not_clear o = true ->
  inv_full (traced_step s o).
Proof.
  intros Hinv Hfull HN Ho.
  pose proof Hinv as [Hwf Hclock Hheld Horder]. pose proof Hfull as [Hsize Hmiss Hrec].
  destruct o as [k|k v|k|]; unfold traced_step; simpl step; [| | |discriminate].
  - unfold lru_has, JSMap.has. destruct (JSMap.get (cache (t_cache s)) k) as [v|] eqn:E.
    + rewrite (lru_get_hit _ k v E). simpl snd.
      apply inv_full_promote with (v := v); try assumption; try reflexivity.
      apply has_true_iff. unfold JSMap.has. now rewrite E.
    + rewrite (lru_get_miss _ k E). simpl snd. now constructor.
  - destruct (in_dec string_dec k (JSMap.keys (cache (t_cache s)))) as [Hk|Hk].
    + apply inv_full_promote with (v := v); try assumption.
      * now apply lru_set_held.
      * apply maxSize_lru_set.
    + destruct (Z_lt_le_dec (lru_size (t_cache s)) (maxSize (t_cache s))) as [Hroom|Hfl].
      * pose proof (lru_set_new_room _ k v Hwf Hk Hroom) as Hc.
        assert (Hall : forall x, t_touch s x <> None -> In x (JSMap.keys (cache (t_cache s)))).
        { intros x Hx. destruct (Hmiss x Hx); [assumption | lia]. }
        constructor; simpl; rewrite ?maxSize_lru_set.
        -- unfold lru_size, JSMap.size in *. rewrite Hc, length_app. simpl. lia.
        -- intros x Hx. left. rewrite Hc, keys_app, in_app_iff. simpl.
           destruct (string_dec x k) as [->|Hne]; [tauto|].
           rewrite touch_other in Hx by exact Hne. left. now apply Hall.
        -- intros x x' _ Hx' Ht. exfalso. apply Hx'.
           rewrite Hc, keys_app, in_app_iff. simpl.
           destruct (string_dec x' k) as [->|Hne]; [tauto|].
           rewrite touch_other in Ht by exact Hne. left. now apply Hall.
      * pose proof (lru_set_new_full _ k v Hwf Hk Hfl) as Hc.
        assert (Heq : lru_size (t_cache s) = maxSize (t_cache s)) by lia.
        destruct (cache (t_cache s)) as [|[k0 v0] r] eqn:Em.
        { unfold lru_size, JSMap.size in Heq. rewrite Em in Heq. simpl in Heq. lia. }
        simpl tl in Hc. simpl in Hk, Horder, Hrec.
        assert (Hsz : lru_size (lru_set (t_cache s) k v) = maxSize (t_cache s)).
        { unfold lru_size, JSMap.size in *. rewrite Hc, length_app. rewrite Em in Heq.
          simpl in *. lia. }
        constructor; simpl; rewrite ?maxSize_lru_set.
        -- lia.
        -- intros x _. now right.
        -- intros x x' Hx Hx' Ht. rewrite Hc, keys_app, in_app_iff in Hx, Hx'. simpl in Hx, Hx'.
           assert (x' <> k) by (intros ->; tauto). rewrite touch_other in Ht by assumption.
           destruct (string_dec x k) as [->|Hne].
           ++ apply older_touch_new; [assumption | exact Ht | apply Hclock].
           ++ assert (Hxr : In x (JSMap.keys r)) by (destruct Hx as [?|[?|[]]]; congruence).
              apply older_touch_other; try assumption.
              destruct (string_dec x' k0) as [->|Hne0].
              ** now apply Horder.
              ** apply Hrec; [now right | | exact Ht]. intros [E|Hin]; [congruence | tauto].
  - now constructor.
Qed.

Lemma inv_full_run ops s :
  inv s -> inv_full s -> 1 <= maxSize (t_cache s) -> forallb not_clear ops = true ->
  inv_full (traced_run ops s).
Proof.
  revert s. induction ops as [|o r IH]; intros s Hi Hf HN Hops; simpl; [exact Hf|].
  simpl in Hops. apply andb_prop in Hops as [Ho Hr].
  apply IH; [now apply inv_step | now apply inv_full_step | | exact Hr].
  simpl. now rewrite maxSize_step.
Qed.

Lemma touched_step s o k : t_touch s k <> None -> t_touch (traced_step s o) k <> None.
Proof.
  intros H. destruct o as [k1|k1 v1|k1|]; simpl; try exact H.
  - destruct (lru_has (t_cache s) k1); [|exact H].
    unfold touch. destruct (String.eqb k k1); [discriminate | exact H].
  - unfold touch. destruct (String.eqb k k1); [discriminate | exact H].
Qed.

Lemma touched_run ops s k : t_touch s k <> None -> t_touch (traced_run ops s) k <> None.
Proof.
  revert s. induction ops as [|o r IH]; intros s H; simpl; [exact H|].
  now apply IH, touched_step.
Qed.

Lemma set_keys_touched ops s k :
  In k (set_keys ops) -> t_touch (traced_run ops s) k <> None.
Proof.
  revert s. induction ops as [|o r IH]; intros s; simpl; [tauto|].
  destruct o as [k1|k1 v1|k1|]; simpl; try apply IH.
  intros [<-|Hin]; [|now apply IH].
  apply touched_run. simpl. rewrite touch_same. discriminate.
Qed.

(** ** C1: the entry evicted is the least recently touched *)

(** C1. On the cache reached from the empty one by a sequence of operations,
    a [set] of a key that is not held, while the cache is at capacity,
    removes exactly the first entry and appends the new one, and that first
    entry was last touched (by a [set] of its key, or by a [get] that found
    it) before every other held entry. Consequently, for a maximum size
    [N >= 1] and a sequence of [get], [set] and [has] that inserts more than
    [N] distinct keys, the cache holds exactly [N] keys and each of them was
    touched after every key that was touched and is no longer held. *)
Theorem lru_evicts_least_recently_touched (N : Z) (ops : list op) :
  let s := traced_run ops (traced_new N) in
  let c := t_cache s in
  c = run ops (new_cache N) /\
  (forall k v, lru_has c k = false -> N <= lru_size c ->
     cache (lru_set c k v) = tl (cache c) ++ [(k, v)] /\
     forall k0, JSMap.first_key (cache c) = Some k0 ->
       forall k', lru_has c k' = true -> k' <> k0 -> older (t_touch s) k0 k') /\
  (forallb not_clear ops = true -> 1 <= N ->
   N < Z.of_nat (List.length (distinct_set_keys ops)) ->
     lru_size c = N /\
     forall k k', lru_has c k = true -> lru_has c k' = false ->
       t_touch s k' <> None -> older (t_touch s) k' k).
Proof.
  intros s c.
  pose proof (inv_run ops (traced_new N) (inv_new N)) as Hinv. fold s in Hinv.
  pose proof (t_cache_run ops (traced_new N)) as Hrun. fold s in Hrun. fold c in Hrun.
  assert (Hmax : maxSize c = N) by (rewrite Hrun; apply maxSize_run).
  split; [exact Hrun|]. split.
  - intros k v Hk Hfull. unfold lru_has in Hk. apply has_false_iff in Hk. split.
    + apply lru_set_new_full; [apply Hinv | exact Hk | now rewrite Hmax].
    + intros k0 Hk0 k' Hk' Hne. apply (first_key_oldest s k0 Hinv Hk0); [|exact Hne].
      now apply has_true_iff.
  - intros Hops HN Hmany.
    assert (Hfull : inv_full s).
    { apply inv_full_run; [apply inv_new | apply inv_full_new; lia | simpl; lia | exact Hops]. }
    destruct Hfull as [Hsize Hmiss Hrec]. fold c in Hsize, Hmiss, Hrec.
    rewrite Hmax in Hsize, Hmiss. split.
    + destruct (Z.eq_dec (lru_size c) N) as [E|Hne]; [exact E|]. exfalso.
      assert (Hincl : incl (distinct_set_keys ops) (JSMap.keys (cache c))).
      { intros k Hk. unfold distinct_set_keys in Hk. apply nodup_In in Hk.
        destruct (Hmiss k); [now apply set_keys_touched | assumption | contradiction]. }
      apply NoDup_incl_length in Hincl; [|apply NoDup_nodup].
      unfold lru_size, JSMap.size in *. unfold JSMap.keys in Hincl.
      rewrite length_map in Hincl. lia.
    + intros k k' Hk Hk' Ht. apply Hrec; [now apply has_true_iff | now apply has_false_iff | exact Ht].
Qed.

Lemma lru_evicts_least_recently_touched_witness :
  let ops := [OSet "a" "1"; OSet "b" "2"; OGet "a"; OSet "c" "3"] in
  let s := traced_run ops (traced_new 2) in
  cache (lru_set (t_cache s) "d" "4") = tl (cache (t_cache s)) ++ [("d"%string, "4"%string)] /\
  lru_size (t_cache s) = 2 /\
  older (t_touch s) "b" "a".
Proof.
  intros ops s.
  destruct (lru_evicts_least_recently_touched 2 ops) as (_ & Hevict & Hkeep).
  destruct (Hevict "d"%string "4"%string) as [H1 _]; [reflexivity | vm_compute; discriminate |].
  destruct Hkeep as [H2 H3]; [reflexivity | lia | vm_compute; reflexivity |].
  split; [exact H1|]. split; [exact H2|].
  apply H3; [reflexivity | reflexivity | vm_compute; discriminate].
Defined.

(** ** C8: the rounding of the time quantizer *)




Section Quantizer.

Local Open Scope Q_scope.

Variables time precision : Q.
Hypothesis precision_pos : 0 < precision.

Let n : Z := Math_round (time / precision).










End Quantizer.



(** ** C9: the preview stays within its container *)

Section Clamp.

Local Open Scope Q_scope.

Variables position containerWidth : Q.
Hypothesis width_range : 160 <= containerWidth <= 2000.

Let minPosition : Q := (THUMBNAIL_WIDTH / 2 / containerWidth) * 100.

Lemma minPosition_pixels : minPosition / 100 * containerWidth == 80.
Proof. unfold minPosition, THUMBNAIL_WIDTH. field. lra. Qed.

Lemma minPosition_le_half : minPosition <= 50.
Proof.
  setoid_replace minPosition with (8000 / containerWidth)
    by (unfold minPosition, THUMBNAIL_WIDTH; field; lra).
  apply Qle_shift_div_r; lra.
Qed.

Lemma clamped_lower : minPosition <= clampedPosition position containerWidth.
Proof. unfold clampedPosition. apply Q.le_max_l. Qed.

Lemma clamped_upper : clampedPosition position containerWidth <= 100 - minPosition.
Proof.
  unfold clampedPosition. apply Q.max_lub.
  - change (minPosition <= 100 - minPosition).
    generalize minPosition_le_half. generalize minPosition. intros x Hx. lra.
  - apply Q.le_min_l.
Qed.

Lemma scale_to_pixels (a b : Q) :
  a <= b -> a / 100 * containerWidth <= b / 100 * containerWidth.
Proof.
  intros H. apply Qmult_le_compat_r; [|lra].
  unfold Qdiv. apply Qmult_le_compat_r; [exact H | discriminate].
Qed.

Lemma preview_edges :
  0 <= clampedPosition position containerWidth / 100 * containerWidth - 80 /\
  clampedPosition position containerWidth / 100 * containerWidth + 80 <= containerWidth.
Proof.
  pose proof (scale_to_pixels _ _ clamped_lower) as Hl.
  pose proof (scale_to_pixels _ _ clamped_upper) as Hu.
  rewrite minPosition_pixels in Hl.
  setoid_replace ((100 - minPosition) / 100 * containerWidth)
    with (containerWidth - minPosition / 100 * containerWidth) in Hu by (field; lra).
  rewrite minPosition_pixels in Hu.
  split; lra.
Qed.

End Clamp.

(** C9. For a hover percent between -50 and 150 and a container width between
    160 and 2000 pixels, with the preview width of 160, the clamped percent
    taken as a pixel centre ([result / 100 * containerWidth]) and widened by
    80 pixels on each side stays within [0, containerWidth]. *)
Theorem preview_within_container (hoverPercent containerWidthPx : Q) :
  (- (50) <= hoverPercent <= 150)%Q ->
  (160 <= containerWidthPx <= 2000)%Q ->
  let center := (clampedPosition hoverPercent containerWidthPx / 100 * containerWidthPx)%Q in
  (0 <= center - THUMBNAIL_WIDTH / 2)%Q /\ (center + THUMBNAIL_WIDTH / 2 <= containerWidthPx)%Q.
Proof.
  intros _ Hw center.
  setoid_replace (THUMBNAIL_WIDTH / 2)%Q with 80%Q by reflexivity.
  now apply preview_edges.
Qed.

Lemma preview_within_container_witness :
  let center := (clampedPosition (- (50)) 200 / 100 * 200)%Q in
  (0 <= center - THUMBNAIL_WIDTH / 2)%Q /\ (center + THUMBNAIL_WIDTH / 2 <= 200)%Q.
Proof.
  apply (preview_within_container (- (50)) 200); split; vm_compute; discriminate.
Defined.

(** ** C10: the guard of [generateThumbnail] *)

(** C10. When generation is disabled or no video source is bound (the prop
    is undefined or the empty string), [generateThumbnail] returns the state
    it was given: no timeout is scheduled, the cache is not touched, and
    [thumbnailUrl], [isLoading] and [error] keep their values (no error is
    reported). *)
Theorem generateThumbnail_guard (isBrowser : bool) (now : Z) (time : Q) (h : hook) :
  enabled h = false \/ truthy (videoSrc h) = false ->
  generateThumbnail isBrowser now time h = h.
Proof.
  unfold generateThumbnail. intros [H|H]; rewrite H; simpl; [reflexivity|].
  now rewrite orb_true_r.
Qed.

Lemma generateThumbnail_guard_witness :
  generateThumbnail true 0 (7 # 2) (mount true None true) = mount true None true /\
  debounceTimeoutRef (generateThumbnail true 0 (7 # 2) (mount true None true)) = None.
Proof.
  rewrite (generateThumbnail_guard true 0 (7 # 2) (mount true None true)).
  - split; reflexivity.
  - right. reflexivity.
Defined.

(** ** C6: a failed capture *)

Lemma listener_eqb_refl l : listener_eqb l l = true.
Proof.
  unfold listener_eqb. rewrite !Nat.eqb_refl, String.eqb_refl.
  now destruct (l_event l).
Qed.

Lemma attached_In l h : In l (listeners h) -> attached l h = true.
Proof.
  intros H. unfold attached. apply existsb_exists. exists l. split; [exact H|].
  apply listener_eqb_refl.
Qed.

Section Failure.

Variables (ev : media_event) (frame : option string) (h0 : hook).

(** The event is a failure: an error of the video, or a [seeked] at which
    the capture yields no image. *)
Hypothesis no_image : ev = Seeked -> truthy (captureThumbnail frame h0) = false.

Let same_elements (h : hook) : Prop :=
  videoRef h = videoRef h0 /\ canvasRef h = canvasRef h0.

Lemma handler_degrades h l :
  same_elements h -> cacheRef h = cacheRef h0 ->
  let h' := match ev with
            | Seeked => handleSeeked l frame h
            | MediaError => handleError l h
            end in
  same_elements h' /\ degraded (failure_message ev) h0 h'.
Proof.
  intros [Hv Hc] Hcache. destruct ev.
  - specialize (no_image eq_refl). unfold handleSeeked.
    assert (Hcap : captureThumbnail frame h = captureThumbnail frame h0).
    { unfold captureThumbnail. now rewrite Hv, Hc. }
    rewrite Hcap. destruct (captureThumbnail frame h0) as [url|].
    + rewrite no_image. repeat split; assumption.
    + repeat split; assumption.
  - unfold handleError. repeat split; assumption.
Qed.

Lemma handle_keeps h l :
  same_elements h -> degraded (failure_message ev) h0 h ->
  same_elements (handle ev frame h l) /\
  degraded (failure_message ev) h0 (handle ev frame h l).
Proof.
  intros Hs Hd. unfold handle. destruct (attached l h); [|tauto].
  apply handler_degrades; [exact Hs | apply Hd].
Qed.

Lemma fold_handle_keeps ls h :
  same_elements h -> degraded (failure_message ev) h0 h ->
  degraded (failure_message ev) h0 (fold_left (handle ev frame) ls h).
Proof.
  revert h. induction ls as [|l r IH]; intros h Hs Hd; simpl; [exact Hd|].
  destruct (handle_keeps h l Hs Hd). now apply IH.
Qed.

Lemma dispatch_degrades video :
  (exists l, In l (listeners h0) /\ l_video l = video /\ l_event l = ev) ->
  degraded (failure_message ev) h0 (dispatch video ev frame h0).
Proof.
  intros (l & Hin & Hv & He). unfold dispatch.
  set (p := listens video ev).
  assert (Hl : In l (filter p (listeners h0))).
  { apply filter_In. split; [exact Hin|]. unfold p, listens.
    rewrite Hv, He, Nat.eqb_refl. now destruct ev. }
  assert (Hall : forall x, In x (filter p (listeners h0)) -> In x (listeners h0)).
  { intros x Hx. now apply filter_In in Hx. }
  destruct (filter p (listeners h0)) as [|t ts]; [destruct Hl|].
  simpl. unfold handle at 2.
  rewrite (attached_In t h0) by (apply Hall; now left).
  destruct (handler_degrades h0 t) as [Hs Hd]; [split; reflexivity | reflexivity |].
  now apply fold_handle_keeps.
Qed.

End Failure.

(** C6. When a capture in flight on a video element fails (the video reports
    an error, or it reports [seeked] and the capture yields no image: the
    frame read is restricted, or there is nothing to draw on or from), the
    cache is left as it was, [error] is set, [thumbnailUrl] is cleared and
    [isLoading] is false. *)
Theorem capture_failure (h : hook) (video : nat) (ev : media_event) (frame : option string) :
  (exists l, In l (listeners h) /\ l_video l = video /\ l_event l = ev) ->
  (ev = Seeked -> truthy (captureThumbnail frame h) = false) ->
  let h' := dispatch video ev frame h in
  cacheRef h' = cacheRef h /\
  error h' = Some (failure_message ev) /\
  thumbnailUrl h' = None /\
  isLoading h' = false.
Proof.
  intros Hl Hfail. now apply dispatch_degrades.
Qed.

Lemma capture_failure_witness :
  let h := hook_run true [GenerateThumbnail 0 5; TimerFires] (mount true (Some "a.mp4"%string) true) in
  let h' := dispatch 0 Seeked None h in
  isLoading h = true /\
  cacheRef h' = cacheRef h /\
  error h' = Some "Failed to capture thumbnail"%string /\
  thumbnailUrl h' = None /\
  isLoading h' = false.
Proof.
  intros h h'. split; [reflexivity|].
  apply (capture_failure h 0 Seeked None).
  - exists (mkListener 0 Seeked 0 "a.mp4:5"). vm_compute. tauto.
  - reflexivity.
Defined.

(** ** C3: the debounce *)

Lemma timeout_callback_trace src h t :
  pendingTimeRef h = Some t ->
  let h' := timeout_callback src h in
  attempts h' = attempts h ++ [t] /\
  debounceTimeoutRef h' = debounceTimeoutRef h /\
  pendingTimeRef h' = Some t /\
  enabled h' = enabled h /\
  videoSrc h' = videoSrc h.
Proof.
  intros Hp. unfold timeout_callback. rewrite Hp. cbn zeta.
  destruct (truthy _); [now repeat split|].
  cbn [videoRef set_cacheRef set_attempts].
  destruct (videoRef h); now repeat split.
Qed.

Lemma timer_fires_trace h tm t :
  debounceTimeoutRef h = Some tm ->
  pendingTimeRef h = Some t ->
  attempts (timer_fires h) = attempts h ++ [t] /\
  debounceTimeoutRef (timer_fires h) = None /\
  pendingTimeRef (timer_fires h) = Some t /\
  enabled (timer_fires h) = enabled h /\
  videoSrc (timer_fires h) = videoSrc h.
Proof.
  intros Ht Hp. unfold timer_fires. rewrite Ht.
  apply (timeout_callback_trace (closure_src tm) (set_debounceTimeoutRef None h) t Hp).
Qed.

Lemma generateThumbnail_arms src now time h :
  enabled h = true -> videoSrc h = Some src -> truthy (Some src) = true ->
  armed src now time (generateThumbnail true now time h) /\
  attempts (generateThumbnail true now time h) = attempts h.
Proof.
  intros He Hs Ht. unfold generateThumbnail, armed. rewrite He, Hs, Ht. simpl.
  now repeat split.
Qed.

Lemma advance_early src s t now h :
  armed src s t h -> now < s + DEBOUNCE_DELAY -> advance now h = h.
Proof.
  intros (Hd & _) Hlt. unfold advance. rewrite Hd. simpl.
  destruct (Z.leb_spec (s + DEBOUNCE_DELAY) now); [lia | reflexivity].
Qed.

Lemma advance_due src s t now h :
  armed src s t h -> s + DEBOUNCE_DELAY <= now ->
  attempts (advance now h) = attempts h ++ [t] /\
  debounceTimeoutRef (advance now h) = None /\
  enabled (advance now h) = true /\
  videoSrc (advance now h) = Some src.
Proof.
  intros (Hd & Hp & He & Hs & _) Hle. unfold advance. rewrite Hd. simpl.
  destruct (Z.leb_spec (s + DEBOUNCE_DELAY) now); [|lia].
  destruct (timer_fires_trace h _ t Hd Hp) as (H1 & H2 & _ & H4 & H5).
  rewrite H1, H2, H4, H5. now repeat split.
Qed.

Lemma burst_coalesces src rest : forall s t h,
  armed src s t h ->
  spaced within_window ((s, t) :: rest) ->
  armed src (fst (last_call (s, t) rest)) (snd (last_call (s, t) rest))
        (fold_left (request true) rest h) /\
  attempts (fold_left (request true) rest h) = attempts h.
Proof.
  induction rest as [|[s' t'] r IH]; intros s t h Ha Hsp; [now split|].
  destruct Hsp as [Hw Hsp]. unfold within_window in Hw. simpl in Hw.
  cbn [fold_left last_call].
  assert (Hr : request true h (s', t') = generateThumbnail true s' t' h).
  { unfold request. cbn [fst snd]. now rewrite (advance_early src s t s' h Ha) by lia. }
  rewrite Hr.
  destruct Ha as (_ & _ & He & Hs & Ht).
  destruct (generateThumbnail_arms src s' t' h He Hs Ht) as [Ha' Hat].
  destruct (IH s' t' _ Ha' Hsp) as [H1 H2]. split; [exact H1|]. now rewrite H2.
Qed.

Lemma spaced_calls_fire src rest : forall s t h,
  armed src s t h ->
  spaced beyond_window ((s, t) :: rest) ->
  armed src (fst (last_call (s, t) rest)) (snd (last_call (s, t) rest))
        (fold_left (request true) rest h) /\
  attempts (fold_left (request true) rest h) ++ [snd (last_call (s, t) rest)]
  = attempts h ++ t :: map snd rest.
Proof.
  induction rest as [|[s' t'] r IH]; intros s t h Ha Hsp; [now split|].
  destruct Hsp as [Hw Hsp]. unfold beyond_window in Hw. simpl in Hw.
  cbn [fold_left last_call].
  change (request true h (s', t')) with (generateThumbnail true s' t' (advance s' h)).
  destruct (advance_due src s t s' h Ha) as (Hat & _ & He & Hs); [lia|].
  destruct Ha as (_ & _ & _ & _ & Ht).
  destruct (generateThumbnail_arms src s' t' _ He Hs Ht) as [Ha' Hat'].
  destruct (IH s' t' _ Ha' Hsp) as [H1 H2]. split; [exact H1|].
  rewrite H2, Hat', Hat, <- app_assoc. reflexivity.
Qed.

(** C3. From a state with generation enabled, a source bound and no timeout
    pending, after a non-empty series of calls of [generateThumbnail] and
    once the clock is past the last call by the debounce delay: if every two
    consecutive calls are less than the delay apart, the series has run the
    timeout callback (the capture attempt) exactly once, with the time of
    the last call; if every two consecutive calls are more than the delay
    apart, it has run it once for each call, with the time of that call. *)
Theorem debounce_coalescing
    (h : hook) (first : Z * Q) (rest : list (Z * Q)) (final : Z) :
  enabled h = true ->
  truthy (videoSrc h) = true ->
  debounceTimeoutRef h = None ->
  fst (last_call first rest) + DEBOUNCE_DELAY <= final ->
  (spaced within_window (first :: rest) ->
   attempts (requests true (first :: rest) final h)
   = attempts h ++ [snd (last_call first rest)]) /\
  (spaced beyond_window (first :: rest) ->
   attempts (requests true (first :: rest) final h)
   = attempts h ++ map snd (first :: rest)).
Proof.
  intros He Ht Hd Hfinal. destruct first as [s t].
  destruct (videoSrc h) as [src|] eqn:Hs; [|discriminate].
  unfold requests. cbn [fold_left].
  change (request true h (s, t)) with (generateThumbnail true s t (advance s h)).
  assert (Hadv : advance s h = h) by (unfold advance; now rewrite Hd).
  rewrite Hadv.
  destruct (generateThumbnail_arms src s t h He Hs Ht) as [Ha Hat].
  split; intros Hsp.
  - destruct (burst_coalesces src rest s t _ Ha Hsp) as [Ha' Hat'].
    destruct (advance_due src _ _ final _ Ha' Hfinal) as (H1 & _).
    now rewrite H1, Hat', Hat.
  - destruct (spaced_calls_fire src rest s t _ Ha Hsp) as [Ha' Hat'].
    destruct (advance_due src _ _ final _ Ha' Hfinal) as (H1 & _).
    rewrite H1, Hat', Hat. reflexivity.
Qed.

Lemma debounce_coalescing_witness :
  let h := mount true (Some "a.mp4"%string) true in
  attempts (requests true [(0, 1%Q); (40, 2%Q); (90, 3%Q)] 200 h) = [3%Q] /\
  attempts (requests true [(0, 1%Q); (150, 2%Q); (300, 3%Q)] 500 h) = [1%Q; 2%Q; 3%Q].
Proof.
  intros h. split.
  - apply (proj1 (debounce_coalescing h (0, 1%Q) [(40, 2%Q); (90, 3%Q)] 200
                    eq_refl eq_refl eq_refl ltac:(simpl; unfold DEBOUNCE_DELAY; lia))).
    simpl. unfold within_window, DEBOUNCE_DELAY. lia.
  - apply (proj2 (debounce_coalescing h (0, 1%Q) [(150, 2%Q); (300, 3%Q)] 500
                    eq_refl eq_refl eq_refl ltac:(simpl; unfold DEBOUNCE_DELAY; lia))).
    simpl. unfold beyond_window, DEBOUNCE_DELAY. lia.
Defined.

(** ** The listeners through the life of the hook *)

Lemma handler_effect ev frame h l :
  listeners (handler ev frame h l)
  = filter (fun x => negb (of_capture (l_video l) (l_capture l) x)) (listeners h) /\
  completions (handler ev frame h l) = completions h ++ [l_capture l] /\
  captures (handler ev frame h l) = captures h.
Proof.
  destruct ev; unfold handler, handleSeeked, handleError.
  - destruct (captureThumbnail frame h) as [url|]; [destruct (truthy (Some url))|];
      now repeat split.
  - now repeat split.
Qed.

Lemma handle_handler ev frame h l :
  handle ev frame h l = if attached l h then handler ev frame h l else h.
Proof. reflexivity. Qed.

Lemma NoDup_map_filter {A B} (f : A -> B) (p : A -> bool) l :
  NoDup (map f l) -> NoDup (map f (filter p l)).
Proof.
  induction l as [|a r IH]; simpl; [trivial|]. intros H. inversion_clear H as [|? ? Hn Hr].
  destruct (p a); simpl; [|now apply IH].
  constructor; [|now apply IH]. intros Hin. apply Hn.
  apply in_map_iff in Hin as (x & Hx & Hin). apply in_map_iff. exists x.
  split; [exact Hx|]. now apply filter_In in Hin.
Qed.

Lemma listeners_ok_same h h' :
  listeners h' = listeners h -> captures h' = captures h ->
  listeners_ok h -> listeners_ok h'.
Proof. intros Hl Hc [H1 H2 H3]. constructor; rewrite ?Hl, ?Hc; assumption. Qed.

Lemma listeners_ok_removed h h' video capture :
  listeners h' = filter (fun x => negb (of_capture video capture x)) (listeners h) ->
  captures h' = captures h ->
  listeners_ok h -> listeners_ok h'.
Proof.
  intros Hl Hc [H1 H2 H3]. constructor; rewrite ?Hl, ?Hc.
  - intros l ev Hin. apply filter_In in Hin as [Hin Hp].
    destruct (H1 l ev Hin) as (l' & Hin' & Hv & Hcp & He).
    exists l'. repeat split; try assumption.
    apply filter_In. split; [exact Hin'|]. unfold of_capture in *. now rewrite Hv, Hcp.
  - intros l Hin. apply filter_In in Hin as [Hin _]. now apply H2.
  - now apply NoDup_map_filter.
Qed.

Lemma listeners_ok_added h h' video key :
  listeners h' = listeners h ++ [mkListener video Seeked (captures h) key;
                                 mkListener video MediaError (captures h) key] ->
  captures h' = S (captures h) ->
  listeners_ok h -> listeners_ok h'.
Proof.
  intros Hl Hc [H1 H2 H3]. constructor; rewrite ?Hl, ?Hc.
  - intros l ev Hin. apply in_app_or in Hin as [Hin|Hin].
    + destruct (H1 l ev Hin) as (l' & Hin' & Hrest). exists l'.
      split; [apply in_or_app; now left | exact Hrest].
    + exists (mkListener video ev (captures h) key).
      split; [apply in_or_app; right; destruct ev; simpl; tauto|].
      destruct Hin as [<-|[<-|[]]]; now repeat split.
  - intros l Hin. apply in_app_or in Hin as [Hin|[<-|[<-|[]]]]; simpl; try lia.
    apply H2 in Hin. lia.
  - rewrite map_app. apply NoDup_app; [exact H3 | |].
    + simpl. repeat constructor; simpl; [intros [E|[]]; discriminate | tauto].
    + intros x Hx Hnew. apply in_map_iff in Hx as (l & <- & Hin). apply H2 in Hin.
      simpl in Hnew. destruct Hnew as [E|[E|[]]]; injection E; lia.
Qed.

Lemma listeners_ok_handle ev frame h l : listeners_ok h -> listeners_ok (handle ev frame h l).
Proof.
  intros H. rewrite handle_handler. destruct (attached l h); [|exact H].
  destruct (handler_effect ev frame h l) as (Hl & _ & Hc).
  exact (listeners_ok_removed h _ _ _ Hl Hc H).
Qed.

Lemma listeners_ok_fold ev frame ls : forall h,
  listeners_ok h -> listeners_ok (fold_left (handle ev frame) ls h).
Proof.
  induction ls as [|l r IH]; intros h H; simpl; [exact H|].
  now apply IH, listeners_ok_handle.
Qed.

Lemma timeout_callback_listeners src h :
  (listeners (timeout_callback src h) = listeners h /\
   captures (timeout_callback src h) = captures h) \/
  (exists video key,
     listeners (timeout_callback src h)
     = listeners h ++ [mkListener video Seeked (captures h) key;
                       mkListener video MediaError (captures h) key] /\
     captures (timeout_callback src h) = S (captures h)).
Proof.
  unfold timeout_callback. destruct (pendingTimeRef h) as [t|]; [|now left]. cbn zeta.
  destruct (truthy _); [now left|].
  cbn [videoRef set_cacheRef set_attempts].
  destruct (videoRef h) as [video|]; [|now left].
  right. exists video, (getCacheKey src t). now split.
Qed.

Lemma timer_fires_listeners h :
  (listeners (timer_fires h) = listeners h /\ captures (timer_fires h) = captures h) \/
  (exists video key,
     listeners (timer_fires h)
     = listeners h ++ [mkListener video Seeked (captures h) key;
                       mkListener video MediaError (captures h) key] /\
     captures (timer_fires h) = S (captures h)).
Proof.
  unfold timer_fires. destruct (debounceTimeoutRef h) as [tm|]; [|now left].
  apply (timeout_callback_listeners (closure_src tm) (set_debounceTimeoutRef None h)).
Qed.

Lemma teardown_listeners h :
  listeners (teardown h) = listeners h /\ captures (teardown h) = captures h.
Proof. unfold teardown. destruct (videoRef h); now split. Qed.

Lemma create_elements_listeners isBrowser h :
  listeners (create_elements isBrowser h) = listeners h /\
  captures (create_elements isBrowser h) = captures h.
Proof. unfold create_elements. destruct (_ || _); now split. Qed.

Lemma bind_source_listeners h :
  listeners (bind_source h) = listeners h /\ captures (bind_source h) = captures h.
Proof.
  unfold bind_source. destruct (videoRef h); [|now split].
  destruct (videoSrc h); [|now split].
  destruct (_ || _); [now split|]. destruct (option_string_eqb _ _); now split.
Qed.

Lemma render_listeners isBrowser src en h :
  listeners (render isBrowser src en h) = listeners h /\
  captures (render isBrowser src en h) = captures h.
Proof.
  unfold render.
  assert (H1 : forall x, listeners x = listeners h /\ captures x = captures h ->
                         listeners (bind_source x) = listeners h /\
                         captures (bind_source x) = captures h).
  { intros x [Hl Hc]. destruct (bind_source_listeners x) as [-> ->]. now split. }
  assert (H2 : forall x, listeners x = listeners h /\ captures x = captures h ->
                         listeners (create_elements isBrowser x) = listeners h /\
                         captures (create_elements isBrowser x) = captures h).
  { intros x [Hl Hc]. destruct (create_elements_listeners isBrowser x) as [-> ->]. now split. }
  assert (H3 : forall x, listeners x = listeners h /\ captures x = captures h ->
                         listeners (teardown x) = listeners h /\
                         captures (teardown x) = captures h).
  { intros x [Hl Hc]. destruct (teardown_listeners x) as [-> ->]. now split. }
  destruct (Bool.eqb (enabled h) en); cbn [andb];
    [destruct (option_string_eqb (videoSrc h) src)|];
    [now split | apply H1; now split |].
  apply H1, H2. destruct (cleanup h); [apply H3|]; now split.
Qed.

Lemma generateThumbnail_listeners isBrowser now time h :
  listeners (generateThumbnail isBrowser now time h) = listeners h /\
  captures (generateThumbnail isBrowser now time h) = captures h.
Proof.
  unfold generateThumbnail. destruct (_ || _); [now split|]. destruct (videoSrc h); now split.
Qed.

Lemma listeners_ok_step isBrowser h e :
  listeners_ok h -> listeners_ok (hook_step isBrowser h e).
Proof.
  intros H. destruct e as [src en| |now time| |video ev frame|]; simpl.
  - destruct (render_listeners isBrowser src en h) as [Hl Hc].
    exact (listeners_ok_same _ _ Hl Hc H).
  - unfold unmount. destruct (cleanup h); [|exact H].
    destruct (teardown_listeners h) as [Hl Hc].
    exact (listeners_ok_same h (set_cleanup false (teardown h)) Hl Hc H).
  - destruct (generateThumbnail_listeners isBrowser now time h) as [Hl Hc].
    exact (listeners_ok_same _ _ Hl Hc H).
  - destruct (timer_fires_listeners h) as [[Hl Hc]|(video & key & Hl & Hc)].
    + exact (listeners_ok_same _ _ Hl Hc H).
    + exact (listeners_ok_added _ _ _ _ Hl Hc H).
  - now apply listeners_ok_fold.
  - exact (listeners_ok_same h (clearCache h) eq_refl eq_refl H).
Qed.

Lemma listeners_ok_mount isBrowser src en : listeners_ok (mount isBrowser src en).
Proof.
  unfold mount.
  destruct (bind_source_listeners (create_elements isBrowser (initial src en))) as [Hl Hc].
  destruct (create_elements_listeners isBrowser (initial src en)) as [Hl' Hc'].
  apply (listeners_ok_same (initial src en)); [now rewrite Hl, Hl' | now rewrite Hc, Hc'|].
  constructor; simpl; [tauto | tauto | constructor].
Qed.

Lemma listeners_ok_run isBrowser es : forall h,
  listeners_ok h -> listeners_ok (hook_run isBrowser es h).
Proof.
  induction es as [|e r IH]; intros h H; simpl; [exact H|].
  now apply IH, listeners_ok_step.
Qed.

(** ** C4: a capture in flight when a newer request arrives *)

Lemma NoDup_map_fst_const {A B C} (f : A -> B) (g : A -> C) (c : C) l :
  (forall x, In x l -> g x = c) ->
  NoDup (map (fun x => (f x, g x)) l) -> NoDup (map f l).
Proof.
  induction l as [|a r IH]; simpl; intros Hc H; [constructor|].
  inversion_clear H as [|? ? Hn Hr]. constructor.
  - intros Hin. apply Hn. apply in_map_iff in Hin as (x & Hx & Hin).
    apply in_map_iff. exists x. split; [|exact Hin].
    rewrite Hx, (Hc x), (Hc a); auto.
  - apply IH; auto.
Qed.

Lemma listens_iff video ev l :
  listens video ev l = true <-> l_video l = video /\ l_event l = ev.
Proof.
  unfold listens. rewrite andb_true_iff, Nat.eqb_eq.
  destruct (l_event l), ev; simpl; intuition congruence.
Qed.

Lemma of_capture_iff video capture l :
  of_capture video capture l = true <-> l_video l = video /\ l_capture l = capture.
Proof. unfold of_capture. now rewrite andb_true_iff, !Nat.eqb_eq. Qed.

Lemma fold_handle_trace ev frame video ts : forall h,
  (forall t, In t ts -> In t (listeners h) /\ l_video t = video) ->
  NoDup (map l_capture ts) ->
  completions (fold_left (handle ev frame) ts h) = completions h ++ map l_capture ts /\
  (forall l, In l (listeners (fold_left (handle ev frame) ts h)) <->
             In l (listeners h) /\
             ~ (l_video l = video /\ In (l_capture l) (map l_capture ts))).
Proof.
  induction ts as [|t r IH]; intros h Hts Hnd.
  - simpl. rewrite app_nil_r. split; [reflexivity|]. intros l. tauto.
  - cbn [fold_left map]. inversion_clear Hnd as [|? ? Hn Hr].
    destruct (Hts t (or_introl eq_refl)) as [Hin Hv].
    rewrite handle_handler, (attached_In t h Hin).
    destruct (handler_effect ev frame h t) as (Hl & Hc & _).
    assert (Hin1 : forall l, In l (listeners (handler ev frame h t)) <->
                             In l (listeners h) /\
                             ~ (l_video l = video /\ l_capture l = l_capture t)).
    { intros l. rewrite Hl, filter_In, negb_true_iff, <- not_true_iff_false, of_capture_iff.
      now rewrite Hv. }
    destruct (IH (handler ev frame h t)) as [IHc IHl]; [|exact Hr|].
    { intros t' Ht'. destruct (Hts t' (or_intror Ht')) as [Hin' Hv']. split; [|exact Hv'].
      apply Hin1. split; [exact Hin'|]. intros [_ E]. apply Hn. rewrite <- E.
      now apply in_map. }
    split.
    + rewrite IHc, Hc, <- app_assoc. reflexivity.
    + intros l. rewrite IHl, Hin1. simpl. intuition congruence.
Qed.

Lemma dispatch_trace video ev frame h :
  listeners_ok h ->
  completions (dispatch video ev frame h)
  = completions h ++ map l_capture (filter (listens video ev) (listeners h)) /\
  (forall l, In l (listeners (dispatch video ev frame h)) <->
             In l (listeners h) /\ l_video l <> video).
Proof.
  intros [Hpair _ Honce]. unfold dispatch.
  set (ts := filter (listens video ev) (listeners h)).
  assert (Hts : forall t, In t ts -> In t (listeners h) /\ l_video t = video /\ l_event t = ev).
  { intros t Ht. apply filter_In in Ht as [Hin Hl]. apply listens_iff in Hl. tauto. }
  destruct (fold_handle_trace ev frame video ts h) as [Hc Hl].
  - intros t Ht. destruct (Hts t Ht). tauto.
  - apply (NoDup_map_fst_const l_capture l_event ev).
    + intros t Ht. now apply Hts.
    + now apply NoDup_map_filter.
  - split; [exact Hc|]. intros l. rewrite Hl. split.
    + intros [Hin Hno]. split; [exact Hin|]. intros Hv. apply Hno. split; [exact Hv|].
      destruct (Hpair l ev Hin) as (l' & Hin' & Hv' & Hc' & He').
      rewrite <- Hc'. apply in_map. apply filter_In. split; [exact Hin'|].
      apply listens_iff. split; congruence.
    + intros [Hin Hv]. split; [exact Hin|]. tauto.
Qed.

(** C4 (as stated, refuted). A capture for time 1 is in flight when a request
    for time 2 starts its own capture: were the first abandoned, its
    listeners would be detached; they are still attached. *)
Lemma in_flight_capture_not_abandoned :
  ~ abandons_in_flight true
      (hook_run true [GenerateThumbnail 0 1; TimerFires] (mount true (Some "a.mp4"%string) true)).
Proof.
  intros H.
  apply (H (mkListener 0 Seeked 0 "a.mp4:1") 200 2%Q); vm_compute; [tauto | lia | tauto].
Qed.

(** The superseded capture completes all the same: on the next [seeked] it
    stores the frame shown then under the key of its own time. *)
Lemma superseded_capture_writes :
  let h := hook_run true [GenerateThumbnail 0 1; TimerFires; GenerateThumbnail 200 2; TimerFires;
                          Media 0 Seeked (Some "data:frame"%string)]
                    (mount true (Some "a.mp4"%string) true) in
  cache (cacheRef h) = [("a.mp4:1"%string, "data:frame"%string);
                        ("a.mp4:2"%string, "data:frame"%string)] /\
  completions h = [0%nat; 1%nat] /\
  listeners h = [].
Proof. vm_compute. repeat split. Qed.

(** C4 (amended). In every state the hook reaches, a new request does not
    detach the listeners of a capture in flight: [generateThumbnail] leaves
    the listeners as they are, and the timeout callback only appends the
    listeners of the capture it starts. A [seeked] or [error] event of a
    video element then runs the handlers of all the captures in flight on
    it, in registration order (an older capture before a newer one), and
    leaves no listener attached to that element: a capture never runs, and
    so never writes, after a newer capture on the same element has
    completed. *)
Theorem in_flight_capture_completes_first
    (isBrowser : bool) (src : option string) (en : bool) (es : list event) :
  let h := hook_run isBrowser es (mount isBrowser src en) in
  (forall now time, listeners (generateThumbnail isBrowser now time h) = listeners h) /\
  (exists added, listeners (timer_fires h) = listeners h ++ added) /\
  (forall video ev frame,
     let h' := dispatch video ev frame h in
     completions h' = completions h ++ map l_capture (filter (listens video ev) (listeners h)) /\
     (forall l, In l (listeners h') -> l_video l <> video)).
Proof.
  intros h.
  assert (Hok : listeners_ok h) by apply listeners_ok_run, listeners_ok_mount.
  split; [|split].
  - intros now time. apply generateThumbnail_listeners.
  - destruct (timer_fires_listeners h) as [[Hl _]|(video & key & Hl & _)].
    + exists []. now rewrite app_nil_r.
    + eexists. exact Hl.
  - intros video ev frame h'. destruct (dispatch_trace video ev frame h Hok) as [Hc Hl].
    split; [exact Hc|]. intros l Hin. now apply Hl in Hin.
Qed.

(** ** C5: a change of source, and teardown *)

Lemma option_string_eqb_eq a b : option_string_eqb a b = true <-> a = b.
Proof.
  destruct a as [x|], b as [y|]; simpl; try (split; congruence).
  rewrite String.eqb_eq. split; congruence.
Qed.

Lemma option_string_eqb_neq a b : a <> b -> option_string_eqb a b = false.
Proof.
  intros H. destruct (option_string_eqb a b) eqn:E; [|reflexivity].
  apply option_string_eqb_eq in E. contradiction.
Qed.

Lemma handle_without_video ev frame h l :
  videoRef h = None ->
  videoRef (handle ev frame h l) = None /\ cacheRef (handle ev frame h l) = cacheRef h.
Proof.
  intros Hv. unfold handle. destruct (attached l h); [|now split].
  destruct ev; unfold handleSeeked, handleError, captureThumbnail; rewrite ?Hv; now split.
Qed.

Lemma dispatch_without_video video ev frame h :
  videoRef h = None -> cacheRef (dispatch video ev frame h) = cacheRef h.
Proof.
  unfold dispatch. generalize (filter (listens video ev) (listeners h)) as ls.
  intros ls. revert h. induction ls as [|l r IH]; intros h Hv; simpl; [reflexivity|].
  destruct (handle_without_video ev frame h l Hv) as [Hv' Hc'].
  now rewrite (IH _ Hv'), Hc'.
Qed.

Lemma teardown_effect h :
  cache (cacheRef (teardown h)) = [] /\
  debounceTimeoutRef (teardown h) = None /\
  videoRef (teardown h) = None /\
  canvasRef (teardown h) = false /\
  listeners (teardown h) = listeners h.
Proof.
  unfold teardown. destruct (videoRef h) eqn:E; cbn; rewrite ?E; now repeat split.
Qed.

(** C5 (as stated, refuted). The source changes from [a.mp4] to [b.mp4] while
    a capture is in flight: its [seeked] handler is still attached, and when
    the event arrives it stores a frame under the key of the old source and
    sets the thumbnail. *)
Lemma source_change_leaves_capture :
  ~ unbound (hook_run true [GenerateThumbnail 0 5; TimerFires; Render (Some "b.mp4"%string) true]
                      (mount true (Some "a.mp4"%string) true)).
Proof.
  intros (_ & _ & H). specialize (H 0%nat Seeked (Some "data:frame"%string)).
  apply (f_equal (fun h => lru_has (cacheRef h) "a.mp4:5")) in H.
  vm_compute in H. discriminate H.
Qed.

Lemma render_new_source isBrowser h src video :
  enabled h = true ->
  videoRef h = Some video ->
  truthy (Some src) = true ->
  videoSrc h <> Some src ->
  currentVideoSrcRef h <> Some src ->
  render isBrowser (Some src) true h
  = h |> set_videoSrc (Some src) |> set_enabled true
      |> set_currentVideoSrcRef (Some src)
      |> set_commands (commands h ++ [SetSrc video src])
      |> set_cacheRef (lru_clear (cacheRef h))
      |> set_thumbnailUrl None
      |> set_error None.
Proof.
  intros He Hv Ht Hs Hc. unfold render. rewrite He. cbn [Bool.eqb andb].
  rewrite (option_string_eqb_neq _ _ Hs). unfold bind_source.
  cbn [videoRef videoSrc enabled currentVideoSrcRef set_videoSrc set_enabled].
  rewrite Hv, Ht. cbn [negb orb]. now rewrite (option_string_eqb_neq _ _ Hc).
Qed.

Lemma render_disabled isBrowser h src :
  enabled h = true ->
  cleanup h = true ->
  render isBrowser src false h
  = set_cleanup false (teardown (h |> set_videoSrc src |> set_enabled false)).
Proof.
  intros He Hc. unfold render. rewrite He, Hc. cbn [Bool.eqb andb].
  unfold create_elements at 1.
  assert (E : enabled (teardown (h |> set_videoSrc src |> set_enabled false)) = false).
  { unfold teardown. cbn. now destruct (videoRef h). }
  rewrite E. cbn [negb]. rewrite orb_true_r.
  unfold bind_source.
  destruct (teardown_effect (h |> set_videoSrc src |> set_enabled false)) as (_ & _ & Hv & _).
  cbn [videoRef set_cleanup]. now rewrite Hv.
Qed.

Lemma dispatch_torn_down video ev frame h :
  videoRef h = None ->
  videoRef (dispatch video ev frame h) = None /\
  cacheRef (dispatch video ev frame h) = cacheRef h.
Proof.
  unfold dispatch. generalize (filter (listens video ev) (listeners h)) as ls.
  intros ls. revert h. induction ls as [|l r IH]; intros h Hv; simpl; [now split|].
  destruct (handle_without_video ev frame h l Hv) as [Hv' Hc'].
  destruct (IH _ Hv') as [H1 H2]. split; [exact H1 | now rewrite H2].
Qed.

Lemma teardown_torn_down h :
  videoRef (teardown h) = None /\ cache (cacheRef (teardown h)) = [] /\
  enabled (teardown h) = enabled h.
Proof. unfold teardown. destruct (videoRef h) eqn:E; cbn; rewrite ?E; now repeat split. Qed.

Lemma bind_source_torn_down h : videoRef h = None -> bind_source h = h.
Proof. intros Hv. unfold bind_source. now rewrite Hv. Qed.

Lemma render_torn_down isBrowser src h :
  videoRef h = None -> cache (cacheRef h) = [] ->
  videoRef (render isBrowser src false h) = None /\
  cache (cacheRef (render isBrowser src false h)) = [].
Proof.
  intros Hv Hc. unfold render.
  set (h0 := h |> set_videoSrc src |> set_enabled false).
  assert (Hv0 : videoRef h0 = None) by exact Hv.
  assert (Hc0 : cache (cacheRef h0) = []) by exact Hc.
  assert (H1 : forall x, videoRef x = None -> cache (cacheRef x) = [] -> enabled x = false ->
               videoRef (create_elements isBrowser x) = None /\
               cache (cacheRef (create_elements isBrowser x)) = []).
  { intros x Hx Hcx Hex. unfold create_elements. rewrite Hex. cbn [negb]. rewrite orb_true_r.
    now split. }
  assert (Hh1 : videoRef (if Bool.eqb (enabled h) false then h0
                          else create_elements isBrowser
                                 (if cleanup h then teardown h0 else h0)) = None /\
                cache (cacheRef (if Bool.eqb (enabled h) false then h0
                                 else create_elements isBrowser
                                        (if cleanup h then teardown h0 else h0))) = []).
  { destruct (Bool.eqb (enabled h) false); [now split|].
    destruct (cleanup h).
    - destruct (teardown_torn_down h0) as (T1 & T2 & T3). apply H1; [exact T1 | exact T2|].
      now rewrite T3.
    - now apply H1. }
  destruct Hh1 as [Hv1 Hc1].
  destruct (Bool.eqb (enabled h) false && option_string_eqb (videoSrc h) src);
    [now split|].
  rewrite (bind_source_torn_down _ Hv1). now split.
Qed.

Lemma timer_fires_torn_down h :
  videoRef h = None -> cache (cacheRef h) = [] ->
  videoRef (timer_fires h) = None /\ cache (cacheRef (timer_fires h)) = [].
Proof.
  intros Hv Hc. unfold timer_fires. destruct (debounceTimeoutRef h) as [tm|]; [|now split].
  unfold timeout_callback. cbn [pendingTimeRef set_debounceTimeoutRef].
  destruct (pendingTimeRef h) as [time|]; [|now split].
  cbv zeta. cbn [cacheRef set_attempts set_debounceTimeoutRef].
  rewrite lru_get_miss by now rewrite Hc.
  cbn [fst snd truthy]. cbn [videoRef set_cacheRef set_attempts set_debounceTimeoutRef].
  rewrite Hv. now split.
Qed.

Lemma torn_down_step isBrowser h e :
  enabling e = false ->
  videoRef h = None -> cache (cacheRef h) = [] ->
  videoRef (hook_step isBrowser h e) = None /\
  cache (cacheRef (hook_step isBrowser h e)) = [].
Proof.
  intros He Hv Hc. destruct e as [src [|]| |now time| |video ev frame|]; cbn [hook_step].
  - discriminate.
  - now apply render_torn_down.
  - unfold unmount. destruct (cleanup h); [|now split].
    destruct (teardown_torn_down h) as (T1 & T2 & _). now split.
  - unfold generateThumbnail.
    destruct (negb (enabled h) || negb (truthy (videoSrc h)) || negb isBrowser); [now split|].
    destruct (videoSrc h); now split.
  - now apply timer_fires_torn_down.
  - destruct (dispatch_torn_down video ev frame h Hv) as [H1 H2]. now rewrite H2.
  - now split.
Qed.

Lemma torn_down_run isBrowser (es : list event) : forall h,
  forallb (fun e => negb (enabling e)) es = true ->
  videoRef h = None -> cache (cacheRef h) = [] ->
  videoRef (hook_run isBrowser es h) = None /\
  cache (cacheRef (hook_run isBrowser es h)) = [].
Proof.
  induction es as [|e r IH]; intros h Hes Hv Hc; [now split|].
  cbn [forallb] in Hes. apply andb_prop in Hes as [He Hr].
  apply negb_true_iff in He.
  destruct (torn_down_step isBrowser h e He Hv Hc) as [Hv' Hc'].
  exact (IH _ Hr Hv' Hc').
Qed.

(** C5 (amended). When the bound source changes (a render with a new,
    non-empty [videoSrc] while enabled), the engine points the video element
    at it, clears the entire cache and resets [thumbnailUrl] and [error].
    When the engine is torn down (a render that disables it, or the
    unmount), it clears the cache, cancels the pending debounce timeout and
    drops its video and canvas elements. In neither case are the listeners
    of a capture in flight detached: they stay attached as they were. After
    a teardown, for as long as no render enables the engine again, whatever
    else happens (calls, timeouts, media events, renders that leave it
    disabled), there is no video element and the cache stays empty: a
    handler that runs late writes no cache entry. *)
Theorem source_change_and_teardown (isBrowser : bool) (h : hook) :
  (forall src video,
     enabled h = true -> videoRef h = Some video -> truthy (Some src) = true ->
     videoSrc h <> Some src -> currentVideoSrcRef h <> Some src ->
     let h' := render isBrowser (Some src) true h in
     cache (cacheRef h') = [] /\ thumbnailUrl h' = None /\ error h' = None /\
     commands h' = commands h ++ [SetSrc video src] /\
     listeners h' = listeners h) /\
  (forall h',
     (enabled h = true /\ cleanup h = true /\ exists src, h' = render isBrowser src false h) \/
     (cleanup h = true /\ h' = unmount h) ->
     cache (cacheRef h') = [] /\ debounceTimeoutRef h' = None /\
     videoRef h' = None /\ canvasRef h' = false /\
     listeners h' = listeners h /\
     (forall es, forallb (fun e => negb (enabling e)) es = true ->
        let h'' := hook_run isBrowser es h' in
        videoRef h'' = None /\ cache (cacheRef h'') = [] /\
        forall video ev frame, cacheRef (dispatch video ev frame h'') = cacheRef h'')).
Proof.
  assert (Hlate : forall h', videoRef h' = None -> cache (cacheRef h') = [] ->
            forall es, forallb (fun e => negb (enabling e)) es = true ->
              let h'' := hook_run isBrowser es h' in
              videoRef h'' = None /\ cache (cacheRef h'') = [] /\
              forall video ev frame, cacheRef (dispatch video ev frame h'') = cacheRef h'').
  { intros h' Hv Hc es Hes h''.
    destruct (torn_down_run isBrowser es h' Hes Hv Hc) as [Hv' Hc'].
    split; [exact Hv'|]. split; [exact Hc'|].
    intros video ev frame. now apply dispatch_without_video. }
  split.
  - intros src video He Hv Ht Hs Hc h'. unfold h'.
    rewrite (render_new_source isBrowser h src video He Hv Ht Hs Hc). now repeat split.
  - intros h' [(He & Hc & src & ->)|(Hc & ->)].
    + rewrite (render_disabled isBrowser h src He Hc).
      destruct (teardown_effect (h |> set_videoSrc src |> set_enabled false))
        as (H1 & H2 & H3 & H4 & H5).
      split; [exact H1|]. split; [exact H2|]. split; [exact H3|]. split; [exact H4|].
      split; [exact H5|]. now apply Hlate.
    + unfold unmount. rewrite Hc.
      destruct (teardown_effect h) as (H1 & H2 & H3 & H4 & H5).
      split; [exact H1|]. split; [exact H2|]. split; [exact H3|]. split; [exact H4|].
      split; [exact H5|]. now apply Hlate.
Qed.

Lemma source_change_and_teardown_witness :
  let h := hook_run true [GenerateThumbnail 0 5; TimerFires;
                          Media 0 Seeked (Some "data:frame"%string);
                          GenerateThumbnail 300 7; TimerFires; GenerateThumbnail 500 9]
                    (mount true (Some "a.mp4"%string) true) in
  let late := [Media 0 Seeked (Some "data:late"%string);
               Render (Some "b.mp4"%string) false; TimerFires;
               Media 0 MediaError None] in
  (cache (cacheRef h) = [("a.mp4:5", "data:frame")]%string /\
   debounceTimeoutRef h = Some {| deadline := 600; closure_src := "a.mp4" |} /\
   List.length (listeners h) = 2%nat) /\
  (cache (cacheRef (render true (Some "b.mp4"%string) true h)) = [] /\
   listeners (render true (Some "b.mp4"%string) true h) = listeners h) /\
  (cache (cacheRef (unmount h)) = [] /\ debounceTimeoutRef (unmount h) = None /\
   listeners (unmount h) = listeners h /\
   cache (cacheRef (hook_run true late (unmount h))) = []) /\
  (cache (cacheRef (render true (Some "a.mp4"%string) false h)) = [] /\
   debounceTimeoutRef (render true (Some "a.mp4"%string) false h) = None /\
   cache (cacheRef (hook_run true late (render true (Some "a.mp4"%string) false h))) = []).
Proof.
  intros h late. destruct (source_change_and_teardown true h) as [Hchange Hdown].
  split; [|split; [|split]].
  - now vm_compute.
  - destruct (Hchange "b.mp4"%string 0%nat) as (H1 & _ & _ & _ & H5);
      try reflexivity; try (vm_compute; discriminate).
    split; [exact H1 | exact H5].
  - destruct (Hdown (unmount h)) as (H1 & H2 & _ & _ & H5 & H6).
    + right. split; reflexivity.
    + split; [exact H1|]. split; [exact H2|]. split; [exact H5|].
      exact (proj1 (proj2 (H6 late eq_refl))).
  - destruct (Hdown (render true (Some "a.mp4"%string) false h))
      as (H1 & H2 & _ & _ & _ & H6).
    + left. split; [reflexivity|]. split; [reflexivity|]. now exists (Some "a.mp4"%string).
    + split; [exact H1|]. split; [exact H2|].
      exact (proj1 (proj2 (H6 late eq_refl))).
Defined.

(** Where the guarantee after a teardown ends: once a render enables the
    engine again, there is a video element again, and the [seeked] handler
    of a capture started before the teardown, still attached to the old
    element, stores a frame under its old key. *)
Lemma late_handler_after_enabling_again :
  cache (cacheRef (hook_run true
    [GenerateThumbnail 0 5; TimerFires;
     Render (Some "a.mp4"%string) false; Render (Some "a.mp4"%string) true;
     Media 0 Seeked (Some "data:frame"%string)]
    (mount true (Some "a.mp4"%string) true)))
  = [("a.mp4:5", "data:frame")]%string.
Proof. now vm_compute. Qed.

Lemma in_flight_capture_completes_first_witness :
  let h := hook_run true [GenerateThumbnail 0 1; TimerFires; GenerateThumbnail 200 2; TimerFires]
                    (mount true (Some "a.mp4"%string) true) in
  completions (dispatch 0 Seeked None h) = [0%nat; 1%nat].
Proof.
  intros h.
  destruct (in_flight_capture_completes_first true (Some "a.mp4"%string) true
              [GenerateThumbnail 0 1; TimerFires; GenerateThumbnail 200 2; TimerFires])
    as (_ & _ & H).
  destruct (H 0%nat Seeked None) as [Hc _]. exact Hc.
Defined.

(** ** The utility [debounce] coalesces the same way *)

Section DebounceUtility.

Context {A : Type}.




End DebounceUtility.


(** * Further properties of the cache *)

Lemma get_app_absent (m : JSMap.t) k v :
  ~ In k (JSMap.keys m) -> JSMap.get (m ++ [(k, v)]) k = Some v.
Proof.
  induction m as [|[k' v'] r IH]; simpl; intros H.
  - now rewrite String.eqb_refl.
  - destruct (String.eqb_spec k' k) as [->|Hne]; [elim H; now left|]. apply IH. tauto.
Qed.

Lemma get_app_other (m : JSMap.t) k v k' :
  k' <> k -> JSMap.get (m ++ [(k, v)]) k' = JSMap.get m k'.
Proof.
  intros Hne. induction m as [|[k1 v1] r IH]; simpl.
  - destruct (String.eqb_spec k k'); [congruence | reflexivity].
  - now rewrite IH.
Qed.

Lemma get_delete_other (m : JSMap.t) k k' :
  k' <> k -> JSMap.get (JSMap.delete m k) k' = JSMap.get m k'.
Proof.
  intros Hne. induction m as [|[k1 v1] r IH]; simpl; [reflexivity|].
  destruct (String.eqb_spec k1 k) as [->|H1]; simpl.
  - destruct (String.eqb_spec k k'); [congruence | exact IH].
  - now rewrite IH.
Qed.

Lemma wf_reached N ops : wf (run ops (new_cache N)).
Proof. apply wf_run, wf_new. Qed.

(** A [set] followed by a [get] of the same key returns the value set, on
    every cache the operations reach, whatever its maximum size. *)
Theorem set_then_get (N : Z) (ops : list op) (k v : string) :
  let c := run ops (new_cache N) in
  fst (lru_get (lru_set c k v) k) = Some v /\ lru_has (lru_set c k v) k = true.
Proof.
  intros c. pose proof (wf_reached N ops) as Hwf. fold c in Hwf.
  assert (Hg : JSMap.get (cache (lru_set c k v)) k = Some v).
  { rewrite (lru_set_cache c k v Hwf). apply get_app_absent.
    intros Hin. apply in_keys_evict, in_keys_delete in Hin. tauto. }
  split.
  - now rewrite (lru_get_hit _ k v Hg).
  - unfold lru_has, JSMap.has. now rewrite Hg.
Qed.

Lemma get_contents (N : Z) (ops : list op) (k k' : string) :
  let c := run ops (new_cache N) in
  JSMap.get (cache (snd (lru_get c k))) k' = JSMap.get (cache c) k' /\
  lru_size (snd (lru_get c k)) = lru_size c.
Proof.
  intros c. pose proof (wf_reached N ops) as Hwf. fold c in Hwf.
  destruct (JSMap.get (cache c) k) as [v|] eqn:E.
  - rewrite (lru_get_hit c k v E). simpl. split.
    + destruct (string_dec k' k) as [->|Hne].
      * rewrite get_app_absent; [now rewrite E|]. rewrite in_keys_delete. tauto.
      * now rewrite get_app_other, get_delete_other.
    + unfold lru_size, JSMap.size. simpl. rewrite length_app. simpl.
      assert (Hin : In k (JSMap.keys (cache c))).
      { apply has_true_iff. unfold JSMap.has. now rewrite E. }
      pose proof (length_delete_present (cache c) k Hwf Hin). lia.
  - rewrite (lru_get_miss c k E). now split.
Qed.

(** A [get] changes the order of the entries only: every key keeps its
    value, and the size stays. *)
Theorem get_keeps_contents (N : Z) (ops : list op) (k k' : string) :
  let c := run ops (new_cache N) in
  JSMap.get (cache (snd (lru_get c k))) k' = JSMap.get (cache c) k' /\
  lru_size (snd (lru_get c k)) = lru_size c.
Proof. exact (get_contents N ops k k'). Qed.

Lemma size_reached N ops : lru_size (run ops (new_cache N)) <= Z.max 1 N.
Proof.
  pose proof (size_run_bound ops (new_cache N) (wf_new N)) as H. simpl maxSize in H.
  apply H. unfold lru_size, JSMap.size. simpl. lia.
Qed.

(** On a cache the operations reach, a [set] of a held key evicts nothing:
    taking the key out leaves room, or leaves nothing to evict. *)
Lemma evict_after_delete_held N ops k :
  let c := run ops (new_cache N) in
  In k (JSMap.keys (cache c)) ->
  evict_if_full N (JSMap.delete (cache c) k) = JSMap.delete (cache c) k.
Proof.
  intros c Hin. pose proof (wf_reached N ops) as Hwf. pose proof (size_reached N ops) as Hsz.
  fold c in Hwf, Hsz. unfold evict_if_full, JSMap.size. unfold lru_size, JSMap.size in Hsz.
  pose proof (length_delete_present (cache c) k Hwf Hin) as Hl.
  destruct (Z.geb_spec (Z.of_nat (List.length (JSMap.delete (cache c) k))) N); [|reflexivity].
  destruct (JSMap.delete (cache c) k); [reflexivity | simpl in *; lia].
Qed.

Lemma get_absent_none (m : JSMap.t) k : ~ In k (JSMap.keys m) -> JSMap.get m k = None.
Proof. apply get_none_iff. Qed.

(** A [set] leaves the value of every other key as it was, except that the
    oldest entry is gone when the key set is new and the cache is at
    capacity. *)
Theorem set_keeps_other_keys (N : Z) (ops : list op) (k v k' : string) :
  k' <> k ->
  let c := run ops (new_cache N) in
  JSMap.get (cache (lru_set c k v)) k'
  = if negb (lru_has c k) && (N <=? lru_size c)
       && option_string_eqb (JSMap.first_key (cache c)) (Some k')
    then None
    else JSMap.get (cache c) k'.
Proof.
  intros Hne c. pose proof (wf_reached N ops) as Hwf. fold c in Hwf.
  assert (Hmax : maxSize c = N) by apply maxSize_run.
  rewrite (lru_set_cache c k v Hwf), get_app_other by exact Hne. rewrite Hmax.
  unfold lru_has. destruct (JSMap.has (cache c) k) eqn:Hhas; cbn [negb andb].
  - apply has_true_iff in Hhas. unfold c. rewrite (evict_after_delete_held N ops k Hhas).
    now apply get_delete_other.
  - apply has_false_iff in Hhas. rewrite (delete_absent _ _ Hhas).
    unfold evict_if_full, lru_size.
    destruct (Z.geb_spec (JSMap.size (cache c)) N) as [Hge|Hlt];
      destruct (Z.leb_spec N (JSMap.size (cache c))); try lia; cbn [andb]; [|reflexivity].
    unfold wf in Hwf. destruct (cache c) as [|[k0 v0] r]; [reflexivity|].
    simpl in *. inversion_clear Hwf as [|? ? Hn _].
    destruct (String.eqb_spec k0 k') as [->|Hk0]; [now apply get_absent_none | reflexivity].
Qed.

Lemma set_keeps_other_keys_witness :
  let c := run [OSet "a" "1"; OSet "b" "2"] (new_cache 2) in
  JSMap.get (cache (lru_set c "c" "3")) "a" = None /\
  JSMap.get (cache (lru_set c "c" "3")) "b" = Some "2"%string.
Proof.
  intros c. unfold c. split.
  - rewrite (set_keeps_other_keys 2 [OSet "a" "1"; OSet "b" "2"] "c" "3" "a");
      [reflexivity | discriminate].
  - rewrite (set_keeps_other_keys 2 [OSet "a" "1"; OSet "b" "2"] "c" "3" "b");
      [reflexivity | discriminate].
Defined.

Lemma set_revoked_list (N : Z) (ops : list op) (k v : string) :
  let c := run ops (new_cache N) in
  revoked (lru_set c k v)
  = revoked c ++
    (if negb (lru_has c k) && (N <=? lru_size c)
     then match cache c with
          | (_, oldValue) :: _ => if is_blob oldValue then [oldValue] else []
          | [] => []
          end
     else []).
Proof.
  intros c. pose proof (wf_reached N ops) as Hwf. fold c in Hwf.
  assert (Hmax : maxSize c = N) by apply maxSize_run.
  unfold lru_set, lru_has. rewrite Hmax.
  destruct (JSMap.has (cache c) k) eqn:Hhas; cbn [negb andb].
  - apply has_true_iff in Hhas.
    pose proof (evict_after_delete_held N ops k Hhas) as He. fold c in He.
    unfold evict_if_full in He.
    destruct (JSMap.size (JSMap.delete (cache c) k) >=? N); [|now rewrite app_nil_r].
    destruct (JSMap.delete (cache c) k) as [|e r]; [now rewrite app_nil_r|].
    exfalso. simpl in He. apply (f_equal (@List.length _)) in He. simpl in He. lia.
  - unfold lru_size.
    destruct (Z.geb_spec (JSMap.size (cache c)) N) as [Hge|Hlt];
      destruct (Z.leb_spec N (JSMap.size (cache c))); try lia; cbn [andb];
      [|now rewrite app_nil_r].
    destruct (cache c) as [|[k0 v0] r]; simpl; [now rewrite app_nil_r|].
    rewrite String.eqb_refl. destruct (is_blob v0); [reflexivity | now rewrite app_nil_r].
Qed.

(** What a [set] hands to [URL.revokeObjectURL]: nothing when the key is
    held (the value it replaces is not released) or when there is room; the
    value of the evicted oldest entry, if it is a blob URL, when the key is
    new and the cache is at capacity. *)
Theorem set_revokes (N : Z) (ops : list op) (k v : string) :
  let c := run ops (new_cache N) in
  revoked (lru_set c k v)
  = revoked c ++
    (if negb (lru_has c k) && (N <=? lru_size c)
     then match cache c with
          | (_, oldValue) :: _ => if is_blob oldValue then [oldValue] else []
          | [] => []
          end
     else []).
Proof. exact (set_revoked_list N ops k v). Qed.

Lemma run_snoc ops o c : run (ops ++ [o]) c = step (run ops c) o.
Proof. unfold run. now rewrite fold_left_app. Qed.

Lemma set_values_app a b : set_values (a ++ b) = set_values a ++ set_values b.
Proof.
  induction a as [|o r IH]; simpl; [reflexivity|].
  destruct o; simpl; now rewrite IH.
Qed.

Lemma set_keys_app a b : set_keys (a ++ b) = set_keys a ++ set_keys b.
Proof.
  induction a as [|o r IH]; simpl; [reflexivity|].
  destruct o; simpl; now rewrite IH.
Qed.

Lemma get_some_in (m : JSMap.t) k v : JSMap.get m k = Some v -> In (k, v) m.
Proof.
  induction m as [|[k' v'] r IH]; simpl; [discriminate|].
  destruct (String.eqb_spec k' k) as [->|Hne].
  - intros [= ->]. now left.
  - intros H. right. now apply IH.
Qed.

Lemma in_delete (m : JSMap.t) k e : In e (JSMap.delete m k) -> In e m.
Proof. unfold JSMap.delete. intros H. now apply filter_In in H. Qed.

Lemma in_evict limit (m : JSMap.t) e : In e (evict_if_full limit m) -> In e m.
Proof. unfold evict_if_full. destruct (_ >=? _); [apply In_tl | trivial]. Qed.

Lemma stored_values N ops :
  let c := run ops (new_cache N) in
  (forall k v, In (k, v) (cache c) -> In v (set_values ops)) /\
  (forall u, In u (revoked c) -> is_blob u = true /\ In u (set_values ops)).
Proof.
  induction ops as [|o ops IH] using rev_ind; [simpl; tauto|].
  rewrite run_snoc, set_values_app. destruct IH as [IHc IHr].
  pose proof (wf_reached N ops) as Hwf.
  set (c := run ops (new_cache N)) in *.
  assert (Hold : forall u, In u (set_values ops) -> In u (set_values ops ++ set_values [o])).
  { intros u Hu. apply in_or_app. now left. }
  destruct o as [k|k v|k|]; cbn [step].
  - destruct (JSMap.get (cache c) k) as [v|] eqn:E.
    + rewrite (lru_get_hit c k v E). cbn [snd cache revoked]. split.
      * intros k' v' Hin. apply Hold. apply in_app_or in Hin as [Hin|[[= <- <-]|[]]].
        -- apply (IHc k'). now apply in_delete in Hin.
        -- apply (IHc k). now apply get_some_in.
      * intros u Hu. destruct (IHr u Hu). auto.
    + rewrite (lru_get_miss c k E). cbn [snd]. split.
      * intros k' v' Hin. apply Hold. now apply (IHc k').
      * intros u Hu. destruct (IHr u Hu). auto.
  - split.
    + intros k' v' Hin. rewrite (lru_set_cache c k v Hwf) in Hin.
      apply in_app_or in Hin as [Hin|[[= <- <-]|[]]].
      * apply Hold, (IHc k'). now apply in_evict, in_delete in Hin.
      * apply in_or_app. right. now left.
    + intros u Hu. unfold c in Hu. rewrite (set_revoked_list N ops k v) in Hu. fold c in Hu.
      apply in_app_or in Hu as [Hu|Hu]; [destruct (IHr u Hu); auto|].
      destruct (_ && _); [|destruct Hu].
      destruct (cache c) as [|[k0 v0] r] eqn:Ec; [destruct Hu|].
      destruct (is_blob v0) eqn:Eb; [|destruct Hu]. destruct Hu as [<-|[]].
      split; [exact Eb|]. apply Hold, (IHc k0). now left.
  - split.
    + intros k' v' Hin. apply Hold. now apply (IHc k').
    + intros u Hu. destruct (IHr u Hu). auto.
  - cbn [lru_clear cache revoked]. split; [intros k' v' []|].
    intros u Hu. apply in_app_or in Hu as [Hu|Hu]; [destruct (IHr u Hu); auto|].
    apply filter_In in Hu as [Hu Hb]. split; [exact Hb|].
    unfold JSMap.values in Hu. apply in_map_iff in Hu as ([k' v'] & <- & Hin).
    apply Hold, (IHc k'). exact Hin.
Qed.

(** The cache releases only what it stored, and only blob URLs: every URL
    handed to [URL.revokeObjectURL] starts with [blob:] and is a value that
    some [set] stored. *)
Theorem revokes_only_stored_blobs (N : Z) (ops : list op) (u : string) :
  In u (revoked (run ops (new_cache N))) ->
  is_blob u = true /\ exists k, In (OSet k u) ops.
Proof.
  intros Hu. destruct (stored_values N ops) as [_ H]. destruct (H u Hu) as [Hb Hs].
  split; [exact Hb|]. clear - Hs. induction ops as [|o r IH]; [destruct Hs|].
  destruct o as [k|k v|k|]; simpl in Hs;
    try (destruct (IH Hs) as [k' Hk']; exists k'; now right).
  destruct Hs as [<-|Hs]; [exists k; now left|].
  destruct (IH Hs) as [k' Hk']. exists k'. now right.
Qed.

Lemma revokes_only_stored_blobs_witness :
  is_blob "blob:1" = true /\ exists k, In (OSet k "blob:1") [OSet "a" "blob:1"; OSet "b" "2"].
Proof.
  apply (revokes_only_stored_blobs 1 [OSet "a" "blob:1"; OSet "b" "2"]). simpl. now left.
Defined.

Lemma run_sets_cons k v entries c :
  run (sets ((k, v) :: entries)) c = run (sets entries) (lru_set c k v).
Proof. reflexivity. Qed.

Lemma keep_last_from (N : Z) (entries : list (string * string)) : forall c,
  1 <= N -> wf c -> maxSize c = N -> lru_size c <= N ->
  NoDup (JSMap.keys (cache c) ++ map fst entries) ->
  cache (run (sets entries) c)
  = skipn (List.length (cache c ++ entries) - Z.to_nat N) (cache c ++ entries).
Proof.
  induction entries as [|[k v] r IH]; intros c HN Hwf Hmax Hsz Hnd.
  - simpl. rewrite app_nil_r. unfold lru_size, JSMap.size in Hsz.
    replace (List.length (cache c) - Z.to_nat N)%nat with 0%nat by lia. reflexivity.
  - rewrite run_sets_cons.
    assert (Hk : ~ In k (JSMap.keys (cache c))).
    { apply NoDup_remove_2 in Hnd. intros Hin. apply Hnd. apply in_or_app. now left. }
    assert (Hr : NoDup (JSMap.keys (cache c) ++ map fst r)) by now apply NoDup_remove_1 in Hnd.
    assert (Hkr : ~ In k (map fst r)).
    { apply NoDup_remove_2 in Hnd. intros Hin. apply Hnd. apply in_or_app. now right. }
    assert (Hwf' : wf (lru_set c k v)) by apply (wf_step c (OSet k v) Hwf).
    assert (Hsz' : lru_size (lru_set c k v) <= N).
    { pose proof (size_step_bound c (OSet k v) Hwf) as H. rewrite Hmax in H.
      rewrite Z.max_r in H by lia. now apply H. }
    assert (Hmax' : maxSize (lru_set c k v) = N) by now rewrite maxSize_lru_set.
    unfold lru_size, JSMap.size in Hsz.
    destruct (Z_lt_le_dec (lru_size c) N) as [Hroom|Hfull].
    + pose proof (lru_set_new_room c k v Hwf Hk) as Hc. rewrite Hmax in Hc.
      specialize (Hc Hroom).
      rewrite (IH _ HN Hwf' Hmax' Hsz'); rewrite Hc.
      * now rewrite <- app_assoc.
      * rewrite keys_app, <- app_assoc. simpl. simpl in Hnd. exact Hnd.
    + pose proof (lru_set_new_full c k v Hwf Hk) as Hc. rewrite Hmax in Hc.
      specialize (Hc Hfull). unfold lru_size, JSMap.size in Hfull.
      destruct (cache c) as [|a t] eqn:Ec; [simpl in Hfull; lia|].
      simpl tl in Hc. rewrite (IH _ HN Hwf' Hmax' Hsz'); rewrite Hc.
      * rewrite <- app_assoc. simpl app. simpl in Hsz, Hfull.
        cbn [List.length]. rewrite !length_app. cbn [List.length].
        replace (List.length t + S (List.length r) - Z.to_nat N)%nat
          with (List.length r) by lia.
        replace (S (List.length t + S (List.length r)) - Z.to_nat N)%nat
          with (S (List.length r)) by lia.
        reflexivity.
      * rewrite keys_app, <- app_assoc. simpl. simpl in Hnd.
        inversion_clear Hnd as [|? ? _ Hnd']. exact Hnd'.
Qed.

(** After a series of [set]s of distinct keys on a new cache of maximum size
    [N >= 1], the cache holds exactly the last [N] entries set (all of them
    when there are fewer), in the order they were set. *)
Theorem distinct_sets_keep_last (N : Z) (entries : list (string * string)) :
  1 <= N ->
  NoDup (map fst entries) ->
  cache (run (sets entries) (new_cache N))
  = skipn (List.length entries - Z.to_nat N) entries.
Proof.
  intros HN Hnd.
  rewrite (keep_last_from N entries (new_cache N) HN (wf_new N) eq_refl); simpl.
  - reflexivity.
  - unfold lru_size, JSMap.size. simpl. lia.
  - exact Hnd.
Qed.

Lemma distinct_sets_keep_last_witness :
  cache (run (sets [("a", "1"); ("b", "2"); ("c", "3")]%string) (new_cache 2))
  = [("b", "2"); ("c", "3")]%string.
Proof.
  apply (distinct_sets_keep_last 2 [("a", "1"); ("b", "2"); ("c", "3")]%string); [lia|].
  simpl. repeat constructor; simpl; intuition discriminate.
Defined.

Lemma model_snoc ops o : model (ops ++ [o]) = model_step (model ops) o.
Proof. unfold model. now rewrite fold_left_app. Qed.

Lemma model_some_set ops k : model ops k <> None -> In k (set_keys ops).
Proof.
  induction ops as [|o ops IH] using rev_ind; [intros H; now elim H|].
  rewrite model_snoc, set_keys_app, in_app_iff.
  destruct o as [k1|k1 v1|k1|]; simpl; try (intros H; left; now apply IH).
  destruct (String.eqb_spec k k1) as [->|Hne]; [tauto|]. intros H. left. now apply IH.
Qed.

Lemma distinct_prefix a b :
  (List.length (distinct_set_keys a) <= List.length (distinct_set_keys (a ++ b)))%nat.
Proof.
  apply NoDup_incl_length; [apply NoDup_nodup|].
  intros k Hk. unfold distinct_set_keys in *. apply nodup_In. apply nodup_In in Hk.
  rewrite set_keys_app. apply in_or_app. now left.
Qed.

(** While the sequence sets no more distinct keys than the maximum size, the
    cache never evicts: after the sequence every key has the last value set
    for it since the last [clear], as in a plain map. *)
Theorem within_capacity_is_a_map (N : Z) (ops : list op) (k : string) :
  Z.of_nat (List.length (distinct_set_keys ops)) <= N ->
  JSMap.get (cache (run ops (new_cache N))) k = model ops k.
Proof.
  revert k. induction ops as [|o ops IH] using rev_ind; intros k' Hcap; [reflexivity|].
  assert (Hcap' : Z.of_nat (List.length (distinct_set_keys ops)) <= N).
  { pose proof (distinct_prefix ops [o]). lia. }
  rewrite run_snoc, model_snoc.
  pose proof (wf_reached N ops) as Hwf.
  destruct o as [k|k v|k|]; cbn [step model_step].
  - rewrite (proj1 (get_contents N ops k k')). now apply IH.
  - assert (Hmax : maxSize (run ops (new_cache N)) = N) by apply maxSize_run.
    rewrite (lru_set_cache _ k v Hwf), Hmax.
    set (m := cache (run ops (new_cache N))) in *.
    assert (Hroom : evict_if_full N (JSMap.delete m k) = JSMap.delete m k).
    { unfold evict_if_full, JSMap.size.
      destruct (Z.geb_spec (Z.of_nat (List.length (JSMap.delete m k))) N) as [Hge|]; [|reflexivity].
      exfalso.
      assert (Hincl : incl (JSMap.keys (JSMap.delete m k) ++ [k])
                           (distinct_set_keys (ops ++ [OSet k v]))).
      { intros x Hx. unfold distinct_set_keys. apply nodup_In. rewrite set_keys_app.
        apply in_app_or in Hx as [Hx|[<-|[]]]; apply in_or_app; [left | right; now left].
        apply in_keys_delete in Hx as [Hx _]. apply model_some_set.
        rewrite <- IH by exact Hcap'. fold m. intros Hnone.
        apply get_none_iff in Hnone. contradiction. }
      apply NoDup_incl_length in Hincl.
      - rewrite length_app in Hincl. unfold JSMap.keys in Hincl.
        rewrite length_map in Hincl. simpl in Hincl. lia.
      - apply NoDup_snoc; [now apply NoDup_keys_delete | rewrite in_keys_delete; tauto]. }
    rewrite Hroom. destruct (String.eqb_spec k' k) as [->|Hne].
    + apply get_app_absent. rewrite in_keys_delete. tauto.
    + rewrite get_app_other, get_delete_other by exact Hne. unfold m. now apply IH.
  - now apply IH.
  - reflexivity.
Qed.

Lemma within_capacity_is_a_map_witness :
  JSMap.get (cache (run [OSet "a" "1"; OSet "b" "2"; OGet "a"; OSet "a" "3"] (new_cache 2))) "a"
  = Some "3"%string.
Proof.
  rewrite (within_capacity_is_a_map 2 [OSet "a" "1"; OSet "b" "2"; OGet "a"; OSet "a" "3"] "a");
    [reflexivity | vm_compute; discriminate].
Defined.

(** * Further properties of the quantizer and of the cache keys *)

Lemma roundTime_unit (time : Q) :
  (roundTime time TIME_PRECISION == inject_Z (Qfloor (time + (1 # 2))))%Q.
Proof.
  unfold roundTime, TIME_PRECISION, Math_round.
  assert (E : (time / 1 + (1 # 2) == time + (1 # 2))%Q) by (field).
  rewrite (Qfloor_comp _ _ E). ring.
Qed.

(** The quantizer sends exactly the times of the half-open second around a
    whole number [n], from [n - 1/2] up to but not including [n + 1/2], to
    [n]: these are the times that share one cache entry. *)
Theorem roundTime_bucket (time : Q) (n : Z) :
  (roundTime time TIME_PRECISION == inject_Z n)%Q <->
  (inject_Z n - (1 # 2) <= time /\ time < inject_Z n + (1 # 2))%Q.
Proof.
  rewrite roundTime_unit. split.
  - intros E. apply (proj1 (inject_Z_injective _ _)) in E. subst n.
    pose proof (Qfloor_le (time + (1 # 2))) as Hl.
    pose proof (Qlt_floor (time + (1 # 2))) as Hu.
    rewrite inject_Z_plus in Hu. change (inject_Z 1) with 1%Q in Hu. split; lra.
  - intros [Hl Hu].
    assert (H1 : (n <= Qfloor (time + (1 # 2)))%Z).
    { rewrite <- (Qfloor_Z n). apply Qfloor_resp_le. lra. }
    assert (H2 : (Qfloor (time + (1 # 2)) < n + 1)%Z).
    { rewrite Zlt_Qlt, inject_Z_plus. change (inject_Z 1) with 1%Q.
      pose proof (Qfloor_le (time + (1 # 2))). lra. }
    assert (E : Qfloor (time + (1 # 2)) = n) by lia. now rewrite E.
Qed.

Lemma occurs_app c a b : occurs c (String.append a b) = occurs c a || occurs c b.
Proof. induction a as [|x a IH]; simpl; [reflexivity|]. now rewrite IH, orb_assoc. Qed.

Lemma digits_without_colon (d : Decimal.uint) :
  occurs ":" (NilEmpty.string_of_uint d) = false.
Proof. induction d; simpl; trivial. Qed.

Lemma Z_string_without_colon (z : Z) :
  occurs ":" (NilZero.string_of_int (Z.to_int z)) = false.
Proof.
  destruct z as [|p|p]; simpl; [reflexivity| |];
    unfold NilZero.string_of_uint; destruct (Pos.to_uint p) eqn:E;
    rewrite <- ?E; try reflexivity; rewrite ?E;
    try apply (digits_without_colon (Pos.to_uint p));
    rewrite <- E; apply (digits_without_colon (Pos.to_uint p)).
Qed.

Lemma split_at_last_colon (a b x y : string) :
  occurs ":" x = false -> occurs ":" y = false ->
  String.append a (String.append ":" x) = String.append b (String.append ":" y) ->
  a = b /\ x = y.
Proof.
  intros Hx Hy. revert b. induction a as [|c a IH]; intros [|c' b] E; simpl in E.
  - injection E as E. now split.
  - injection E as _ E. rewrite E, occurs_app in Hx. simpl in Hx.
    rewrite orb_true_r in Hx. discriminate.
  - injection E as _ E. rewrite <- E, occurs_app in Hy. simpl in Hy.
    rewrite orb_true_r in Hy. discriminate.
  - injection E as -> E. destruct (IH b E) as [-> ->]. now split.
Qed.

Lemma Z_string_injective (a b : Z) :
  NilZero.string_of_int (Z.to_int a) = NilZero.string_of_int (Z.to_int b) -> a = b.
Proof.
  intros E. apply to_int_inj.
  assert (Hn : forall z, Z.to_int z <> Decimal.Pos Decimal.Nil /\
                         Z.to_int z <> Decimal.Neg Decimal.Nil).
  { intros [|p|p]; simpl; split; try discriminate;
      intros [= H]; now apply Unsigned.to_uint_nonnil in H. }
  apply (f_equal NilZero.int_of_string) in E.
  rewrite !NilZero.isi in E by apply Hn. now injection E.
Qed.

Lemma key_number (time : Q) :
  Number_toString (roundTime time TIME_PRECISION)
  = NilZero.string_of_int (Z.to_int (Qfloor (time + (1 # 2))%Q)).
Proof.
  unfold Number_toString. rewrite (Qfloor_comp _ _ (roundTime_unit time)).
  now rewrite Qfloor_Z.
Qed.

(** Two cache keys are equal exactly when they come from the same source and
    from times that the quantizer sends to the same second: entries of
    different sources, or of different seconds, never share a key. *)
Theorem getCacheKey_injective (src1 src2 : string) (time1 time2 : Q) :
  getCacheKey src1 time1 = getCacheKey src2 time2 <->
  src1 = src2 /\ (roundTime time1 TIME_PRECISION == roundTime time2 TIME_PRECISION)%Q.
Proof.
  unfold getCacheKey. rewrite !key_number. split.
  - intros E. apply split_at_last_colon in E; try apply Z_string_without_colon.
    destruct E as [Hs Hn]. split; [exact Hs|].
    apply Z_string_injective in Hn. now rewrite !roundTime_unit, Hn.
  - intros [-> E]. rewrite !roundTime_unit in E.
    apply (proj1 (inject_Z_injective _ _)) in E. now rewrite E.
Qed.

(** * Further properties of the preview position *)

Section ClampEdges.

Local Open Scope Q_scope.

Variables position containerWidth : Q.
Hypothesis width_pos : 0 < containerWidth.

Let minPosition : Q := (THUMBNAIL_WIDTH / 2 / containerWidth) * 100.

Lemma minPosition_value : minPosition == 8000 / containerWidth.
Proof. unfold minPosition, THUMBNAIL_WIDTH. field. lra. Qed.

Lemma clamp_inside :
  minPosition <= position -> position <= 100 - minPosition ->
  clampedPosition position containerWidth == position.
Proof.
  intros Hl Hu. unfold clampedPosition. fold minPosition.
  rewrite (Q.min_r _ _ Hu). now apply Q.max_r.
Qed.

Lemma clamp_narrow :
  containerWidth < 160 -> clampedPosition position containerWidth == minPosition.
Proof.
  intros Hw. unfold clampedPosition. fold minPosition. apply Q.max_l.
  apply Qle_trans with (100 - minPosition); [apply Q.le_min_l|].
  assert (H : 50 < minPosition).
  { rewrite minPosition_value. apply Qlt_shift_div_l; lra. }
  lra.
Qed.

Lemma minPosition_center : minPosition / 100 * containerWidth == 80.
Proof. unfold minPosition, THUMBNAIL_WIDTH. field. lra. Qed.

End ClampEdges.

(** Away from the edges the preview follows the pointer: a hover percent at
    least half a preview width from both ends of the container is returned
    as it is. *)
Theorem clamp_follows_pointer (position containerWidth : Q) :
  (0 < containerWidth)%Q ->
  ((THUMBNAIL_WIDTH / 2 / containerWidth) * 100 <= position)%Q ->
  (position <= 100 - (THUMBNAIL_WIDTH / 2 / containerWidth) * 100)%Q ->
  (clampedPosition position containerWidth == position)%Q.
Proof. intros Hw Hl Hu. now apply clamp_inside. Qed.

Lemma clamp_follows_pointer_witness : (clampedPosition 50 400 == 50)%Q.
Proof.
  apply (clamp_follows_pointer 50 400); vm_compute; congruence.
Defined.

(** In a container narrower than the preview, the clamp ignores the pointer:
    it returns [8000 / containerWidth] percent (above 50) for every hover
    percent, which puts the left edge of the preview on the left edge of the
    container and lets its right edge stick out. *)
Theorem clamp_narrow_container (position containerWidth : Q) :
  (0 < containerWidth)%Q -> (containerWidth < THUMBNAIL_WIDTH)%Q ->
  let center := (clampedPosition position containerWidth / 100 * containerWidth)%Q in
  (clampedPosition position containerWidth == 8000 / containerWidth)%Q /\
  (center - THUMBNAIL_WIDTH / 2 == 0)%Q /\
  (containerWidth < center + THUMBNAIL_WIDTH / 2)%Q.
Proof.
  intros Hp Hw center. unfold THUMBNAIL_WIDTH in Hw.
  pose proof (clamp_narrow position containerWidth Hp Hw) as Hc.
  assert (Hcenter : (center == 80)%Q).
  { unfold center. rewrite Hc. now apply minPosition_center. }
  split; [|split].
  - rewrite Hc. now apply minPosition_value.
  - rewrite Hcenter. reflexivity.
  - rewrite Hcenter. unfold THUMBNAIL_WIDTH. setoid_replace (160 / 2)%Q with 80%Q by reflexivity.
    lra.
Qed.

Lemma clamp_narrow_container_witness :
  (clampedPosition 10 100 == 80)%Q /\ (clampedPosition 90 100 == 80)%Q.
Proof.
  split.
  - destruct (clamp_narrow_container 10 100) as [H _]; [reflexivity | reflexivity |].
    rewrite H. reflexivity.
  - destruct (clamp_narrow_container 90 100) as [H _]; [reflexivity | reflexivity |].
    rewrite H. reflexivity.
Defined.

(** * Further properties of the progress bar *)

Section ProgressBar.

Local Open Scope Q_scope.

Lemma pointer_percent_range clientX rect_left rect_width :
  0 <= pointer_percent clientX rect_left rect_width <= 1.
Proof.
  unfold pointer_percent. split; [apply Q.le_max_l|].
  apply Q.max_lub; [lra | apply Q.le_min_l].
Qed.

Lemma truthy_number_pos x : 0 < x -> truthy_number x = true.
Proof.
  intros H. unfold truthy_number. destruct (Qeq_bool x 0) eqn:E; [|reflexivity].
  apply Qeq_bool_eq in E. lra.
Qed.

Lemma scaled_range (p d : Q) : 0 <= p <= 1 -> 0 <= d -> 0 <= p * d <= d.
Proof.
  intros [Hl Hu] Hd. split.
  - now apply Qmult_le_0_compat.
  - setoid_replace d with (1 * d) at 2 by ring. now apply Qmult_le_compat_r.
Qed.

Lemma wide_clamp_edges position containerWidth :
  160 <= containerWidth ->
  0 <= clampedPosition position containerWidth / 100 * containerWidth - 80 /\
  clampedPosition position containerWidth / 100 * containerWidth + 80 <= containerWidth.
Proof.
  intros Hw.
  assert (Hpos : 0 < containerWidth) by lra.
  set (minPosition := (THUMBNAIL_WIDTH / 2 / containerWidth) * 100).
  assert (Hmin : minPosition <= 50).
  { unfold minPosition. rewrite (minPosition_value containerWidth Hpos).
    apply Qle_shift_div_r; lra. }
  assert (Hl : minPosition <= clampedPosition position containerWidth).
  { unfold clampedPosition. apply Q.le_max_l. }
  assert (Hu : clampedPosition position containerWidth <= 100 - minPosition).
  { unfold clampedPosition. fold minPosition. apply Q.max_lub; [lra | apply Q.le_min_l]. }
  assert (Hscale : forall a b, a <= b -> a / 100 * containerWidth <= b / 100 * containerWidth).
  { intros a b H. apply Qmult_le_compat_r; [|lra]. unfold Qdiv.
    apply Qmult_le_compat_r; [exact H | discriminate]. }
  apply Hscale in Hl, Hu.
  unfold minPosition in Hl. rewrite (minPosition_center containerWidth Hpos) in Hl.
  setoid_replace ((100 - minPosition) / 100 * containerWidth)
    with (containerWidth - minPosition / 100 * containerWidth) in Hu by (field; lra).
  unfold minPosition in Hu. rewrite (minPosition_center containerWidth Hpos) in Hu.
  split; lra.
Qed.

Lemma pointer_at_left_edge clientX rect_left rect_width :
  0 < rect_width ->
  Qeq_bool (pointer_percent clientX rect_left rect_width) 0 = Qle_bool clientX rect_left.
Proof.
  intros Hw. unfold pointer_percent.
  set (x := (clientX - rect_left) / rect_width).
  destruct (Qle_bool clientX rect_left) eqn:E.
  - apply Qle_bool_iff in E. apply Qeq_bool_iff.
    assert (Hx : x <= 0) by (apply Qle_shift_div_r; [exact Hw | lra]).
    destruct (Q.min_spec 1 x) as [[Hc Hm]|[Hc Hm]];
      destruct (Q.max_spec 0 (Qmin 1 x)) as [[Hlt HM]|[Hle HM]]; lra.
  - destruct (Qeq_bool _ 0) eqn:E0; [|reflexivity].
    apply Qeq_bool_iff in E0.
    assert (Hlt : rect_left < clientX).
    { apply Qnot_le_lt. intros H. apply Qle_bool_iff in H. congruence. }
    assert (Hx : 0 < x) by (apply Qlt_shift_div_l; [exact Hw | lra]).
    destruct (Q.min_spec 1 x) as [[Hc Hm]|[Hc Hm]];
      destruct (Q.max_spec 0 (Qmin 1 x)) as [[Hl HM]|[Hle HM]]; lra.
Qed.

Lemma times_infinity clientX rect_left rect_width :
  0 < rect_width ->
  times (pointer_percent clientX rect_left rect_width) Infinity
  = if Qle_bool clientX rect_left then NaN else Infinity.
Proof.
  intros Hw. unfold times. rewrite (pointer_at_left_edge _ _ _ Hw).
  destruct (Qle_bool clientX rect_left); [reflexivity|].
  destruct (pointer_percent_range clientX rect_left rect_width) as [Hp _].
  apply Qle_bool_iff in Hp. now rewrite Hp.
Qed.

End ProgressBar.

(** Where a click on the progress bar seeks, for a bar of positive width
    and any pointer position (also left or right of the bar). For a finite
    positive duration the time handed to [onSeek] lies between 0 and the
    duration. For a duration of 0 or [NaN] nothing is sought. For an
    infinite duration the click is not dropped: [onSeek] gets [NaN] when the
    pointer is at or left of the left edge of the bar, and [Infinity]
    otherwise. *)
Theorem click_seek_time (duration clientX rect_left rect_width : Q) :
  (0 < rect_width)%Q ->
  ((0 < duration)%Q ->
   exists t, handleProgressClick (Finite duration) clientX rect_left rect_width
             = Some (Finite t) /\ (0 <= t <= duration)%Q) /\
  ((duration == 0)%Q ->
   handleProgressClick (Finite duration) clientX rect_left rect_width = None) /\
  handleProgressClick NaN clientX rect_left rect_width = None /\
  handleProgressClick Infinity clientX rect_left rect_width
  = Some (if Qle_bool clientX rect_left then NaN else Infinity).
Proof.
  intros Hw. unfold handleProgressClick. split; [|split; [|split]].
  - intros Hd. cbn [truthy_value times]. rewrite (truthy_number_pos duration Hd). simpl.
    eexists. split; [reflexivity|].
    apply scaled_range; [apply pointer_percent_range | lra].
  - intros Hd. cbn [truthy_value]. unfold truthy_number.
    apply Qeq_bool_iff in Hd. now rewrite Hd.
  - reflexivity.
  - cbn [truthy_value negb]. now rewrite (times_infinity _ _ _ Hw).
Qed.

Lemma click_seek_time_witness :
  (exists t, handleProgressClick (Finite 120) 900 100 400 = Some (Finite t) /\
             (0 <= t <= 120)%Q) /\
  handleProgressClick Infinity 900 100 400 = Some Infinity /\
  handleProgressClick Infinity 100 100 400 = Some NaN.
Proof.
  split; [|split].
  - apply (proj1 (click_seek_time 120 900 100 400 eq_refl)). reflexivity.
  - exact (proj2 (proj2 (proj2 (click_seek_time 120 900 100 400 eq_refl)))).
  - exact (proj2 (proj2 (proj2 (click_seek_time 120 100 100 400 eq_refl)))).
Defined.

(** A move of the pointer over a progress bar at least as wide as the
    preview. For a finite positive duration the hover time lies within the
    video, the hover position within 0 and 100 percent, the preview that
    [VideoControls] then places, 80 pixels to each side of its centre, lies
    within the bar, and [generateThumbnail] is called with the hover time
    when previews are enabled and there is a source, and not called
    otherwise. For an infinite duration the hover time, and the time
    [generateThumbnail] is called with, is [NaN] when the pointer is at or
    left of the left edge of the bar, and [Infinity] otherwise. *)
Theorem hover_time_and_preview
    (enableThumbnailPreview : bool) (videoSrc : option string)
    (duration clientX rect_left rect_width : Q) (st : hover) :
  (THUMBNAIL_WIDTH <= rect_width)%Q ->
  ((0 < duration)%Q ->
   let r := handleProgressMouseMove enableThumbnailPreview videoSrc (Finite duration)
              clientX rect_left rect_width st in
   let center := (preview_position (fst r) / 100 * rect_width)%Q in
   (exists t, hoverTime (fst r) = Some (Finite t) /\ (0 <= t <= duration)%Q /\
              snd r = if enableThumbnailPreview && truthy videoSrc
                      then Some (Finite t) else None) /\
   (0 <= hoverPosition (fst r) <= 100)%Q /\
   (0 <= center - THUMBNAIL_WIDTH / 2)%Q /\
   (center + THUMBNAIL_WIDTH / 2 <= rect_width)%Q) /\
  (let r := handleProgressMouseMove enableThumbnailPreview videoSrc Infinity
              clientX rect_left rect_width st in
   let time := if Qle_bool clientX rect_left then NaN else Infinity in
   hoverTime (fst r) = Some time /\
   snd r = if enableThumbnailPreview && truthy videoSrc then Some time else None).
Proof.
  intros Hw. unfold THUMBNAIL_WIDTH in Hw.
  assert (Hpos : (0 < rect_width)%Q) by lra.
  pose proof (pointer_percent_range clientX rect_left rect_width) as Hp.
  split.
  - intros Hd r center.
    assert (Hr : r = ({| hoverTime := Some (Finite (pointer_percent clientX rect_left rect_width
                                                     * duration)%Q);
                         hoverPosition := (pointer_percent clientX rect_left rect_width * 100)%Q;
                         progressWidth := rect_width |},
                      if enableThumbnailPreview && truthy videoSrc
                      then Some (Finite (pointer_percent clientX rect_left rect_width
                                           * duration)%Q)
                      else None)).
    { unfold r, handleProgressMouseMove. cbn [truthy_value times].
      now rewrite (truthy_number_pos duration Hd). }
    split; [|split].
    + rewrite Hr. eexists. split; [reflexivity|]. split; [|reflexivity].
      apply scaled_range; [exact Hp | lra].
    + rewrite Hr. cbn [fst hoverPosition]. apply scaled_range; [exact Hp | lra].
    + unfold center, preview_position. rewrite Hr. cbn [fst hoverPosition progressWidth].
      rewrite truthy_number_pos by lra.
      setoid_replace (THUMBNAIL_WIDTH / 2)%Q with 80%Q by reflexivity.
      now apply wide_clamp_edges.
  - intros r time. unfold r, handleProgressMouseMove. cbn [truthy_value negb fst snd hoverTime].
    cbv zeta. rewrite (times_infinity _ _ _ Hpos). split; reflexivity.
Qed.

Lemma hover_time_and_preview_witness :
  let r := handleProgressMouseMove true (Some "a.mp4"%string) (Finite 120) 900 100 400
             (mkHover None 0 0) in
  (exists t, hoverTime (fst r) = Some (Finite t) /\ (0 <= t <= 120)%Q /\
             snd r = Some (Finite t)) /\
  (0 <= preview_position (fst r) / 100 * 400 - THUMBNAIL_WIDTH / 2)%Q /\
  (preview_position (fst r) / 100 * 400 + THUMBNAIL_WIDTH / 2 <= 400)%Q.
Proof.
  intros r.
  destruct (proj1 (hover_time_and_preview true (Some "a.mp4"%string) 120 900 100 400
                     (mkHover None 0 0) ltac:(vm_compute; discriminate)) eq_refl)
    as (H1 & _ & H3).
  split; [exact H1 | exact H3].
Defined.

(** * Further properties of the hook *)

Lemma run_app a b c : run (a ++ b) c = run b (run a c).
Proof. unfold run. apply fold_left_app. Qed.

Lemma cache_follows_refl c : cache_follows c c.
Proof. exists []. split; [reflexivity | intros v []]. Qed.

Lemma cache_follows_trans a b c :
  cache_follows a b -> cache_follows b c -> cache_follows a c.
Proof.
  intros (o1 & -> & H1) (o2 & -> & H2). exists (o1 ++ o2). split.
  - now rewrite run_app.
  - intros v Hv. rewrite set_values_app in Hv. apply in_app_or in Hv as [Hv|Hv]; auto.
Qed.

Lemma cache_follows_step c o :
  (forall k v, o = OSet k v -> v <> ""%string) -> cache_follows c (step c o).
Proof.
  intros Hv. exists [o]. split; [reflexivity|]. intros v Hin.
  destruct o as [k|k v'|k|]; simpl in Hin; try tauto.
  destruct Hin as [<-|[]]. now apply (Hv k).
Qed.

Lemma cache_follows_clear c : cache_follows c (lru_clear c).
Proof. apply (cache_follows_step c OClear). discriminate. Qed.

Lemma cache_follows_get c k : cache_follows c (snd (lru_get c k)).
Proof. apply (cache_follows_step c (OGet k)). discriminate. Qed.

Lemma truthy_nonempty url : truthy (Some url) = true -> url <> ""%string.
Proof. simpl. intros H ->. discriminate. Qed.

Lemma cache_follows_set c k url :
  truthy (Some url) = true -> cache_follows c (lru_set c k url).
Proof.
  intros H. apply (cache_follows_step c (OSet k url)). intros k' v' [= _ <-].
  now apply truthy_nonempty.
Qed.

Lemma teardown_cache h : cache_follows (cacheRef h) (cacheRef (teardown h)).
Proof.
  unfold teardown. destruct (videoRef h); cbn; apply cache_follows_clear.
Qed.

Lemma create_elements_cache isBrowser h :
  cacheRef (create_elements isBrowser h) = cacheRef h.
Proof. unfold create_elements. now destruct (_ || _). Qed.

Lemma bind_source_cache h : cache_follows (cacheRef h) (cacheRef (bind_source h)).
Proof.
  unfold bind_source. destruct (videoRef h); [|apply cache_follows_refl].
  destruct (videoSrc h); [|apply cache_follows_refl].
  destruct (_ || _); [apply cache_follows_refl|].
  destruct (option_string_eqb _ _); [apply cache_follows_refl|].
  cbn. apply cache_follows_clear.
Qed.

Lemma render_cache isBrowser src en h :
  cache_follows (cacheRef h) (cacheRef (render isBrowser src en h)).
Proof.
  unfold render.
  assert (H1 : cache_follows (cacheRef h)
                 (cacheRef (if Bool.eqb (enabled h) en
                            then h |> set_videoSrc src |> set_enabled en
                            else create_elements isBrowser
                                   (if cleanup h
                                    then teardown (h |> set_videoSrc src |> set_enabled en)
                                    else h |> set_videoSrc src |> set_enabled en)))).
  { destruct (Bool.eqb (enabled h) en); [apply cache_follows_refl|].
    rewrite create_elements_cache. destruct (cleanup h); [|apply cache_follows_refl].
    apply (teardown_cache (h |> set_videoSrc src |> set_enabled en)). }
  destruct (_ && _); [exact H1|].
  eapply cache_follows_trans; [exact H1 | apply bind_source_cache].
Qed.

Lemma timeout_callback_cache src h :
  cache_follows (cacheRef h) (cacheRef (timeout_callback src h)).
Proof.
  unfold timeout_callback. destruct (pendingTimeRef h) as [t|]; [|apply cache_follows_refl].
  cbn zeta. destruct (truthy _); [cbn; apply cache_follows_get|].
  cbn [videoRef set_cacheRef set_attempts].
  destruct (videoRef h); cbn; apply cache_follows_get.
Qed.

Lemma timer_fires_cache h : cache_follows (cacheRef h) (cacheRef (timer_fires h)).
Proof.
  unfold timer_fires. destruct (debounceTimeoutRef h) as [tm|]; [|apply cache_follows_refl].
  apply (timeout_callback_cache (closure_src tm) (set_debounceTimeoutRef None h)).
Qed.

Lemma handle_cache ev frame h l :
  cache_follows (cacheRef h) (cacheRef (handle ev frame h l)).
Proof.
  unfold handle. destruct (attached l h); [|apply cache_follows_refl].
  destruct ev; unfold handleSeeked, handleError; [|apply cache_follows_refl].
  destruct (captureThumbnail frame h) as [url|]; [|apply cache_follows_refl].
  destruct (truthy (Some url)) eqn:E; [|apply cache_follows_refl].
  cbn. now apply cache_follows_set.
Qed.

Lemma dispatch_cache video ev frame h :
  cache_follows (cacheRef h) (cacheRef (dispatch video ev frame h)).
Proof.
  unfold dispatch. generalize (filter (listens video ev) (listeners h)) as ls. intros ls.
  revert h. induction ls as [|l r IH]; intros h; simpl; [apply cache_follows_refl|].
  eapply cache_follows_trans; [apply (handle_cache ev frame h l) | apply IH].
Qed.

Lemma hook_step_cache isBrowser h e :
  cache_follows (cacheRef h) (cacheRef (hook_step isBrowser h e)).
Proof.
  destruct e as [src en| |now time| |video ev frame|]; simpl.
  - apply render_cache.
  - unfold unmount. destruct (cleanup h); [apply (teardown_cache h) | apply cache_follows_refl].
  - unfold generateThumbnail. destruct (_ || _); [apply cache_follows_refl|].
    destruct (videoSrc h); apply cache_follows_refl.
  - apply timer_fires_cache.
  - apply dispatch_cache.
  - apply cache_follows_clear.
Qed.

Lemma hook_run_cache isBrowser es : forall h,
  cache_follows (cacheRef h) (cacheRef (hook_run isBrowser es h)).
Proof.
  induction es as [|e r IH]; intros h; simpl; [apply cache_follows_refl|].
  eapply cache_follows_trans; [apply hook_step_cache | apply IH].
Qed.

Lemma mount_cache isBrowser src en :
  cache_follows (new_cache MAX_CACHE_SIZE) (cacheRef (mount isBrowser src en)).
Proof.
  unfold mount.
  eapply cache_follows_trans; [|apply bind_source_cache].
  rewrite create_elements_cache. apply cache_follows_refl.
Qed.

Lemma hook_cache_reached isBrowser src en es :
  cache_follows (new_cache MAX_CACHE_SIZE)
                (cacheRef (hook_run isBrowser es (mount isBrowser src en))).
Proof.
  eapply cache_follows_trans; [apply mount_cache | apply hook_run_cache].
Qed.

Lemma hook_cache_values (isBrowser : bool) (src : option string) (en : bool) (es : list event) :
  let c := cacheRef (hook_run isBrowser es (mount isBrowser src en)) in
  0 <= lru_size c <= MAX_CACHE_SIZE /\
  NoDup (JSMap.keys (cache c)) /\
  forall k v, In (k, v) (cache c) -> v <> ""%string.
Proof.
  intros c. destruct (hook_cache_reached isBrowser src en es) as (ops & Hc & Hv).
  fold c in Hc. rewrite Hc. split; [|split].
  - split; [apply size_nonneg|]. apply (size_reached MAX_CACHE_SIZE ops).
  - apply wf_reached.
  - intros k v Hin. apply Hv. destruct (stored_values MAX_CACHE_SIZE ops) as [H _].
    now apply (H k).
Qed.

(** Whatever happens to the hook, its cache stays within [MAX_CACHE_SIZE]:
    it never holds more than 50 frames, holds every key once, and every
    frame in it is a non-empty string. *)
Theorem hook_cache_bounded (isBrowser : bool) (src : option string) (en : bool) (es : list event) :
  let c := cacheRef (hook_run isBrowser es (mount isBrowser src en)) in
  0 <= lru_size c <= MAX_CACHE_SIZE /\
  NoDup (JSMap.keys (cache c)) /\
  forall k v, In (k, v) (cache c) -> v <> ""%string.
Proof. exact (hook_cache_values isBrowser src en es). Qed.

Lemma timeout_callback_hit src h time url :
  pendingTimeRef h = Some time ->
  JSMap.get (cache (cacheRef h)) (getCacheKey src time) = Some url ->
  url <> ""%string ->
  let h' := timeout_callback src h in
  thumbnailUrl h' = Some url /\ isLoading h' = false /\ error h' = None /\
  commands h' = commands h /\ listeners h' = listeners h /\ captures h' = captures h /\
  cacheRef h' = snd (lru_get (cacheRef h) (getCacheKey src time)).
Proof.
  intros Hp Hg Hu. unfold timeout_callback. rewrite Hp. cbn zeta.
  cbn [cacheRef set_attempts]. rewrite (lru_get_hit _ _ url Hg). cbn [fst snd].
  assert (Ht : truthy (Some url) = true).
  { simpl. destruct (String.eqb_spec url ""); [contradiction | reflexivity]. }
  rewrite Ht. now repeat split.
Qed.

(** A request whose key is in the cache is served from it: in every state
    the hook reaches, when the timeout fires for a time whose key is cached,
    the preview gets the cached frame, stops loading and has no error, and
    the video element is left alone (no seek, no new listener, no capture
    started). *)
Theorem cached_frame_served_without_seek
    (isBrowser : bool) (src : option string) (en : bool) (es : list event)
    (tm : timer) (time : Q) (url : string) :
  let h := hook_run isBrowser es (mount isBrowser src en) in
  debounceTimeoutRef h = Some tm ->
  pendingTimeRef h = Some time ->
  JSMap.get (cache (cacheRef h)) (getCacheKey (closure_src tm) time) = Some url ->
  let h' := timer_fires h in
  thumbnailUrl h' = Some url /\ isLoading h' = false /\ error h' = None /\
  commands h' = commands h /\ listeners h' = listeners h /\ captures h' = captures h.
Proof.
  intros h Htm Hp Hg h'.
  assert (Hu : url <> ""%string).
  { destruct (hook_cache_values isBrowser src en es) as (_ & _ & Hv).
    apply (Hv (getCacheKey (closure_src tm) time)). now apply get_some_in. }
  unfold h', timer_fires. rewrite Htm.
  destruct (timeout_callback_hit (closure_src tm) (set_debounceTimeoutRef None h) time url Hp Hg Hu)
    as (H1 & H2 & H3 & H4 & H5 & H6 & _).
  now repeat split.
Qed.

Lemma cached_frame_served_without_seek_witness :
  let h := hook_run true [GenerateThumbnail 0 5; TimerFires; Media 0 Seeked (Some "data:x"%string);
                          GenerateThumbnail 300 (26 # 5)]
                    (mount true (Some "a.mp4"%string) true) in
  thumbnailUrl (timer_fires h) = Some "data:x"%string /\ commands (timer_fires h) = commands h.
Proof.
  intros h.
  destruct (cached_frame_served_without_seek true (Some "a.mp4"%string) true
              [GenerateThumbnail 0 5; TimerFires; Media 0 Seeked (Some "data:x"%string);
               GenerateThumbnail 300 (26 # 5)]
              (mkTimer 400 "a.mp4") (26 # 5) "data:x")
    as (H1 & _ & _ & H4 & _); try reflexivity.
  split; [exact H1 | exact H4].
Defined.

(** A frame that was captured is reused: when [handleSeeked] of a capture
    gets a frame, it stores it under the key of the capture and shows it,
    and a request that follows for a time with the same key (the same source
    and second) is served that frame by the timeout, without a seek. *)
Theorem captured_frame_is_reused
    (src0 : option string) (en : bool) (es : list event)
    (l : listener) (url src : string) (now : Z) (time : Q) :
  let h := hook_run true es (mount true src0 en) in
  videoRef h <> None -> canvasRef h = true ->
  truthy (Some url) = true ->
  enabled h = true -> videoSrc h = Some src -> truthy (Some src) = true ->
  getCacheKey src time = l_key l ->
  let h1 := handleSeeked l (Some url) h in
  let h2 := timer_fires (generateThumbnail true now time h1) in
  lru_has (cacheRef h1) (l_key l) = true /\
  thumbnailUrl h1 = Some url /\ isLoading h1 = false /\ error h1 = None /\
  thumbnailUrl h2 = Some url /\ isLoading h2 = false /\ error h2 = None /\
  commands h2 = commands h /\ captures h2 = captures h.
Proof.
  intros h Hv Hc Hu He Hs Hts Hk h1 h2.
  destruct (hook_cache_reached true src0 en es) as (ops & Hops & _). fold h in Hops.
  assert (Hh1 : h1 = h |> set_cacheRef (lru_set (cacheRef h) (l_key l) url)
                       |> set_thumbnailUrl (Some url) |> set_error None
                       |> set_isLoading false
                       |> removeListeners (l_video l) (l_capture l)
                       |> set_completions (completions h ++ [l_capture l])).
  { unfold h1, handleSeeked, captureThumbnail.
    destruct (videoRef h); [|now elim Hv]. now rewrite Hc, Hu. }
  assert (Hget : JSMap.get (cache (cacheRef h1)) (l_key l) = Some url).
  { rewrite Hh1. cbn [cacheRef set_cacheRef set_thumbnailUrl set_error set_isLoading
                      removeListeners set_listeners set_completions].
    rewrite Hops.
    rewrite (lru_set_cache _ (l_key l) url (wf_reached MAX_CACHE_SIZE ops)).
    apply get_app_absent.
    intros Hin. apply in_keys_evict, in_keys_delete in Hin. tauto. }
  assert (Hgen : generateThumbnail true now time h1
                 = h1 |> set_pendingTimeRef (Some time)
                      |> set_debounceTimeoutRef
                           (Some {| deadline := now + DEBOUNCE_DELAY; closure_src := src |})).
  { unfold generateThumbnail. rewrite Hh1. cbn [enabled videoSrc set_cacheRef set_thumbnailUrl
      set_error set_isLoading removeListeners set_listeners set_completions].
    now rewrite He, Hs, Hts. }
  assert (Hfire : h2 = timeout_callback src
                         (h1 |> set_pendingTimeRef (Some time) |> set_debounceTimeoutRef None)).
  { unfold h2. rewrite Hgen. reflexivity. }
  destruct (timeout_callback_hit src
              (h1 |> set_pendingTimeRef (Some time) |> set_debounceTimeoutRef None) time url)
    as (H1 & H2 & H3 & H4 & _ & H6 & _).
  - reflexivity.
  - rewrite Hk. exact Hget.
  - now apply truthy_nonempty.
  - rewrite <- Hfire in H1, H2, H3, H4, H6. split.
    + unfold lru_has, JSMap.has. now rewrite Hget.
    + rewrite H1, H2, H3, H4, H6. rewrite Hh1. now repeat split.
Qed.

Lemma captured_frame_is_reused_witness :
  let h := hook_run true [GenerateThumbnail 0 5; TimerFires] (mount true (Some "a.mp4"%string) true) in
  let h1 := handleSeeked (mkListener 0 Seeked 0 "a.mp4:5") (Some "data:x"%string) h in
  let h2 := timer_fires (generateThumbnail true 300 (26 # 5) h1) in
  thumbnailUrl h2 = Some "data:x"%string /\ commands h2 = commands h.
Proof.
  intros h h1 h2.
  destruct (captured_frame_is_reused (Some "a.mp4"%string) true [GenerateThumbnail 0 5; TimerFires]
              (mkListener 0 Seeked 0 "a.mp4:5") "data:x" "a.mp4" 300 (26 # 5))
    as (_ & _ & _ & _ & H5 & _ & _ & H8 & _); try reflexivity; try discriminate.
  split; [exact H5 | exact H8].
Defined.

(** ** Without a browser *)

Lemma inert_props h src en : inert h -> inert (h |> set_videoSrc src |> set_enabled en).
Proof. intros []. now constructor. Qed.

Lemma inert_teardown h : inert h -> inert (teardown h).
Proof.
  intros [Hv Hc Ht Hl Hco Hca Hth Hlo He Ha]. unfold teardown. rewrite Hv.
  constructor; cbn; assumption || reflexivity.
Qed.

Lemma inert_create_elements h : inert h -> inert (create_elements false h).
Proof. intros []. unfold create_elements. cbn. now constructor. Qed.

Lemma inert_bind_source h : inert h -> bind_source h = h.
Proof. intros [Hv]. unfold bind_source. now rewrite Hv. Qed.

Lemma inert_step h e : inert h -> inert (hook_step false h e).
Proof.
  intros Hi. destruct e as [src en| |now time| |video ev frame|]; simpl.
  - unfold render.
    assert (H1 : inert (if Bool.eqb (enabled h) en
                        then h |> set_videoSrc src |> set_enabled en
                        else create_elements false
                               (if cleanup h
                                then teardown (h |> set_videoSrc src |> set_enabled en)
                                else h |> set_videoSrc src |> set_enabled en))).
    { destruct (Bool.eqb (enabled h) en); [now apply inert_props|].
      apply inert_create_elements.
      destruct (cleanup h); [apply inert_teardown|]; now apply inert_props. }
    destruct (_ && _); [exact H1|]. now rewrite (inert_bind_source _ H1).
  - unfold unmount. destruct (cleanup h); [|exact Hi].
    destruct (inert_teardown h Hi). now constructor.
  - unfold generateThumbnail. cbn [negb]. now rewrite orb_true_r.
  - unfold timer_fires. now rewrite (inert_timer h Hi).
  - unfold dispatch. now rewrite (inert_listeners h Hi).
  - destruct Hi as [Hv Hc Ht Hl Hco Hca Hth Hlo He Ha]. unfold clearCache.
    constructor; cbn; assumption || reflexivity.
Qed.

Lemma inert_mount src en : inert (mount false src en).
Proof.
  unfold mount.
  assert (H : inert (create_elements false (initial src en))).
  { apply inert_create_elements. now constructor. }
  now rewrite (inert_bind_source _ H).
Qed.

(** Without a browser (on the server) the hook does nothing, whatever it is
    asked: it creates no element, schedules no timeout, attaches no
    listener, runs no capture attempt, keeps its cache empty and its preview
    state as it started (no thumbnail, not loading, no error). *)
Theorem inert_without_browser (src : option string) (en : bool) (es : list event) :
  let h := hook_run false es (mount false src en) in
  videoRef h = None /\ debounceTimeoutRef h = None /\ listeners h = [] /\
  commands h = [] /\ attempts h = [] /\ cache (cacheRef h) = [] /\
  thumbnailUrl h = None /\ isLoading h = false /\ error h = None.
Proof.
  intros h.
  assert (Hi : inert h).
  { unfold h. generalize (inert_mount src en). generalize (mount false src en).
    induction es as [|e r IH]; intros h0 H0; simpl; [exact H0|].
    now apply IH, inert_step. }
  destruct Hi. now repeat split.
Qed.

(** ** The loading flag *)

Lemma loading_step isBrowser h e :
  (isLoading h = true -> listeners h <> []) ->
  isLoading (hook_step isBrowser h e) = true -> listeners (hook_step isBrowser h e) <> [].
Proof.
  intros Hinv. destruct e as [src en| |now time| |video ev frame|]; simpl.
  - destruct (render_listeners isBrowser src en h) as [-> _].
    assert (E : isLoading (render isBrowser src en h) = isLoading h); [|now rewrite E].
    unfold render, create_elements, teardown, bind_source.
    repeat match goal with
           | |- context [if ?b then _ else _] => destruct b
           | |- context [match ?x with _ => _ end] => destruct x
           end; reflexivity.
  - unfold unmount. destruct (cleanup h); [|exact Hinv].
    destruct (teardown_listeners h) as [Hl _]. cbn [listeners isLoading set_cleanup].
    rewrite Hl. unfold teardown. destruct (videoRef h); exact Hinv.
  - destruct (generateThumbnail_listeners isBrowser now time h) as [-> _].
    unfold generateThumbnail. destruct (_ || _); [exact Hinv|]. destruct (videoSrc h); exact Hinv.
  - unfold timer_fires. destruct (debounceTimeoutRef h) as [tm|]; [|exact Hinv].
    unfold timeout_callback. cbn [pendingTimeRef set_debounceTimeoutRef].
    destruct (pendingTimeRef h); [|exact Hinv]. cbn zeta.
    destruct (truthy _); [discriminate|].
    cbn [videoRef set_cacheRef set_attempts set_debounceTimeoutRef].
    destruct (videoRef h); cbn; [intros _ | exact Hinv].
    intros E. apply app_eq_nil in E as [_ E]. discriminate.
  - unfold dispatch. generalize (filter (listens video ev) (listeners h)) as ls. intros ls.
    revert h Hinv. induction ls as [|l r IH]; intros h Hinv; simpl; [exact Hinv|].
    apply IH. unfold handle. destruct (attached l h); [|exact Hinv].
    destruct ev; unfold handleSeeked, handleError.
    + destruct (captureThumbnail frame h) as [url|]; [destruct (truthy (Some url))|];
        discriminate.
    + discriminate.
  - exact Hinv.
Qed.

Lemma loading_run isBrowser es : forall h,
  (isLoading h = true -> listeners h <> []) ->
  isLoading (hook_run isBrowser es h) = true -> listeners (hook_run isBrowser es h) <> [].
Proof.
  induction es as [|e r IH]; intros h H; simpl; [exact H|].
  now apply IH, loading_step.
Qed.

Lemma mount_not_loading isBrowser src en : isLoading (mount isBrowser src en) = false.
Proof.
  unfold mount, create_elements, bind_source, initial.
  repeat match goal with
         | |- context [if ?b then _ else _] => destruct b
         | |- context [match ?x with _ => _ end] => destruct x
         end; reflexivity.
Qed.

(** The hook reports [isLoading] only while a capture is in flight: in every
    state it reaches, [isLoading] true means that some capture still has its
    listeners attached. *)
Theorem loading_means_in_flight
    (isBrowser : bool) (src : option string) (en : bool) (es : list event) :
  let h := hook_run isBrowser es (mount isBrowser src en) in
  isLoading h = true -> exists l, In l (listeners h).
Proof.
  intros h Hl.
  assert (Hinv : listeners h <> []).
  { apply loading_run; [|exact Hl]. now rewrite mount_not_loading. }
  destruct (listeners h) as [|l r] eqn:E; [now elim Hinv|]. exists l. now left.
Qed.

Lemma loading_means_in_flight_witness :
  exists l, In l (listeners (hook_run true [GenerateThumbnail 0 5; TimerFires]
                                      (mount true (Some "a.mp4"%string) true))).
Proof.
  apply (loading_means_in_flight true (Some "a.mp4"%string) true [GenerateThumbnail 0 5; TimerFires]).
  reflexivity.
Defined.

(** * Further properties of [debounce] *)

Section Subsequences.

Context {A : Type}.

Lemma subseq_refl (l : list A) : subseq l l.
Proof. induction l; constructor; assumption. Qed.

Lemma subseq_nil_l (m : list A) : subseq [] m.
Proof. induction m; constructor; assumption. Qed.

Lemma subseq_snoc_skip (l m : list A) a : subseq l m -> subseq l (m ++ [a]).
Proof.
  induction 1; simpl.
  - apply subseq_skip, subseq_nil.
  - now apply subseq_skip.
  - now apply subseq_take.
Qed.

Lemma subseq_snoc_take (l m : list A) a : subseq l m -> subseq (l ++ [a]) (m ++ [a]).
Proof.
  induction 1; simpl.
  - apply subseq_take, subseq_nil.
  - now apply subseq_skip.
  - now apply subseq_take.
Qed.

Lemma subseq_drop_last (l m : list A) a : subseq (l ++ [a]) m -> subseq l m.
Proof.
  revert l. induction m as [|b m IH]; intros l H.
  - inversion H as [E| |]. now destruct l.
  - inversion H as [|? ? ? H1|l' ? ? H1 E]; subst.
    + apply subseq_skip. now apply IH.
    + destruct l as [|c l]; simpl in E.
      * apply subseq_nil_l.
      * injection E as -> ->. apply subseq_take. now apply IH.
Qed.

Lemma subseq_length (l m : list A) : subseq l m -> (List.length l <= List.length m)%nat.
Proof. induction 1; simpl; lia. Qed.

Lemma called_with_snoc (es : list (debounce_event A)) e :
  called_with (es ++ [e])
  = called_with es ++ match e with DCall _ args => [args] | _ => [] end.
Proof.
  induction es as [|x r IH]; simpl.
  - destruct e; reflexivity.
  - destruct x; simpl; now rewrite IH.
Qed.

Lemma debounced_trace (wait : Z) (es : list (debounce_event A)) :
  let d := fold_left debounced_step es (debounce wait) in
  subseq (fn_calls d ++ pending_args d) (called_with es).
Proof.
  induction es as [|e es IH] using rev_ind; [constructor|].
  rewrite fold_left_app, called_with_snoc. cbn [fold_left].
  set (d := fold_left debounced_step es (debounce wait)) in *. cbn zeta in IH.
  assert (Hd : subseq (fn_calls d) (called_with es)).
  { unfold pending_args in IH. destruct (timeoutId d) as [[due a]|].
    - now apply subseq_drop_last in IH.
    - now rewrite app_nil_r in IH. }
  destruct e as [now args| |now]; cbn [debounced_step].
  - change (pending_args (debounced_call now args d)) with [args].
    change (fn_calls (debounced_call now args d)) with (fn_calls d).
    now apply subseq_snoc_take.
  - change (pending_args (debounced_cancel d)) with (@nil A).
    change (fn_calls (debounced_cancel d)) with (fn_calls d).
    now rewrite !app_nil_r.
  - rewrite app_nil_r. unfold debounced_advance.
    destruct (timeoutId d) as [[due a]|] eqn:E; [|exact IH].
    destruct (due <=? now); [|exact IH].
    unfold pending_args in *. cbn [timeoutId fn_calls]. rewrite E in IH.
    now rewrite app_nil_r.
Qed.

End Subsequences.

(** Whatever the calls, cancellations and delays, a debounced function calls
    [fn] only with the arguments of calls made to it, in the order of those
    calls, and at most once for each of them. *)
Theorem debounce_calls_come_from_calls {A : Type} (wait : Z) (es : list (debounce_event A)) :
  let d := fold_left debounced_step es (debounce wait) in
  subseq (fn_calls d) (called_with es) /\
  (List.length (fn_calls d) <= List.length (called_with es))%nat.
Proof.
  intros d. pose proof (debounced_trace wait es) as H. fold d in H.
  assert (Hs : subseq (fn_calls d) (called_with es)).
  { unfold pending_args in H. destruct (timeoutId d) as [[due a]|].
    - now apply subseq_drop_last in H.
    - now rewrite app_nil_r in H. }
  split; [exact Hs | now apply subseq_length].
Qed.

(** After a [cancel], the call that was pending is dropped: however long the
    clock runs, [fn] is not called until the debounced function is called
    again. *)
Theorem debounce_cancel_drops_pending {A : Type} (d : debounced A) (nows : list Z) :
  fn_calls (fold_left (fun x now => debounced_advance now x) nows (debounced_cancel d))
  = fn_calls d.
Proof.
  assert (H : forall x : debounced A, timeoutId x = None ->
              fold_left (fun x now => debounced_advance now x) nows x = x).
  { induction nows as [|n r IH]; intros x Hx; simpl; [reflexivity|].
    unfold debounced_advance at 2. rewrite Hx. now apply IH. }
  now rewrite H.
Qed.

(** * Properties of [throttle] *)

Section Throttle.

Context {A : Type}.

Implicit Types (t : throttled A) (c : Z * A).

Lemma last_call_snoc c (r : list (Z * A)) x : last_call c (r ++ [x]) = x.
Proof. revert c. induction r as [|c' r IH]; intros c; simpl; [reflexivity | apply IH]. Qed.

Lemma spaced_snoc (P : Z -> Prop) (r : list (Z * A)) : forall c x,
  spaced P (c :: r) -> P (fst x - fst (last_call c r)) -> spaced P ((c :: r) ++ [x]).
Proof.
  induction r as [|c' r IH]; intros c x Hs Hp.
  - simpl in *. tauto.
  - destruct Hs as [H1 H2]. split; [exact H1|]. now apply (IH c' x).
Qed.

Lemma spaced_append (P : Z -> Prop) (l : list (Z * A)) x :
  spaced P l ->
  (forall c r, l = c :: r -> P (fst x - fst (last_call c r))) ->
  spaced P (l ++ [x]).
Proof.
  intros Hs Hp. destruct l as [|c r]; [exact I|]. apply spaced_snoc; [exact Hs|].
  now apply Hp.
Qed.

Lemma last_fn_append t x calls' :
  calls' = throttle_calls t ++ [x] ->
  forall t', throttle_calls t' = calls' -> last_fn t' = Some x.
Proof.
  intros -> t' E. unfold last_fn. rewrite E.
  destruct (throttle_calls t) as [|c r]; [reflexivity|]. simpl. now rewrite last_call_snoc.
Qed.

Lemma throttle_inv_later now now' t : throttle_inv now t -> now <= now' -> throttle_inv now' t.
Proof.
  intros [Hs Hb Hi] Hle. constructor; [exact Hs | |].
  - intros H. destruct (Hb H) as (time & H1 & H2 & H3). exists time. repeat split; auto. lia.
  - intros H. destruct (Hi H) as (H1 & H2 & H3). repeat split; auto.
    intros time Ht. specialize (H3 time Ht). lia.
Qed.

Lemma callback_inv now t time :
  throttle_inv now t -> inThrottle t = true ->
  last_fn_time t = Some time ->
  throttle_timeout t = Some (time + Z.max 0 (limit t)) ->
  throttle_inv (time + Z.max 0 (limit t)) (throttle_callback (time + Z.max 0 (limit t)) t).
Proof.
  intros [Hs Hb Hi] Hbusy Hlast Hto. unfold throttle_callback.
  destruct (lastArgs t) as [args|] eqn:El.
  - unfold throttled_call. cbn [inThrottle negb limit throttle_calls throttle_timeout lastArgs].
    constructor; cbn [inThrottle limit throttle_calls throttle_timeout lastArgs].
    + apply spaced_append; [exact Hs|]. intros c r E. cbn [fst].
      unfold last_fn_time, last_fn in Hlast. rewrite E in Hlast. injection Hlast as Hlast.
      rewrite Hlast. lia.
    + intros _. exists (time + Z.max 0 (limit t)). repeat split; [|lia].
      unfold last_fn_time.
      rewrite (last_fn_append t (time + Z.max 0 (limit t), args) _ eq_refl); reflexivity.
    + discriminate.
  - constructor; cbn [inThrottle limit throttle_calls throttle_timeout lastArgs].
    + exact Hs.
    + discriminate.
    + intros _. repeat split. intros time' Ht.
      unfold last_fn_time, last_fn in *. cbn [throttle_calls] in Ht.
      rewrite Hlast in Ht. injection Ht as <-. lia.
Qed.

Lemma fire_inv now now' t :
  throttle_inv now t -> now <= now' -> throttle_inv now' (throttle_fire now' t).
Proof.
  intros Hinv Hle. unfold throttle_fire.
  destruct (throttle_timeout t) as [due|] eqn:Et; [|now apply throttle_inv_later with now].
  destruct (Z.leb_spec due now'); [|now apply throttle_inv_later with now].
  destruct (inThrottle t) eqn:Eb.
  - destruct (ti_busy now t Hinv Eb) as (time & H1 & H2 & H3).
    rewrite Et in H2. injection H2 as ->.
    apply throttle_inv_later with (time + Z.max 0 (limit t)); [|lia].
    now apply callback_inv with now.
  - destruct (ti_idle now t Hinv Eb) as (H1 & _). congruence.
Qed.

Lemma advance_inv now now' t :
  throttle_inv now t -> now <= now' -> throttle_inv now' (throttle_advance now' t).
Proof.
  intros Hinv Hle. unfold throttle_advance.
  apply fire_inv with now'; [|lia]. now apply fire_inv with now.
Qed.

Lemma call_inv now t args :
  throttle_inv now t -> throttle_inv now (throttled_call now args t).
Proof.
  intros [Hs Hb Hi]. unfold throttled_call. destruct (inThrottle t) eqn:Eb; cbn [negb].
  - constructor; cbn [inThrottle limit throttle_calls throttle_timeout lastArgs];
      [exact Hs | exact Hb | congruence].
  - destruct (Hi eq_refl) as (H1 & H2 & H3).
    constructor; cbn [inThrottle limit throttle_calls throttle_timeout lastArgs].
    + apply spaced_append; [exact Hs|]. intros c r E. cbn [fst].
      specialize (H3 (fst (last_call c r))). unfold last_fn_time, last_fn in H3.
      rewrite E in H3. specialize (H3 eq_refl). lia.
    + intros _. exists now. repeat split; [|lia].
      unfold last_fn_time. rewrite (last_fn_append t (now, args) _ eq_refl); reflexivity.
    + discriminate.
Qed.

Lemma limit_fire now t : limit (throttle_fire now t) = limit t.
Proof.
  unfold throttle_fire. destruct (throttle_timeout t) as [due|]; [|reflexivity].
  destruct (due <=? now); [|reflexivity]. unfold throttle_callback.
  destruct (lastArgs t); [|reflexivity]. unfold throttled_call. reflexivity.
Qed.

Lemma limit_request t c : limit (throttled_request t c) = limit t.
Proof.
  unfold throttled_request, throttled_call, throttle_advance.
  destruct (negb _); cbn [limit]; now rewrite !limit_fire.
Qed.

Lemma requests_inv (calls : list (Z * A)) : forall now t,
  throttle_inv now t -> ascending now calls ->
  throttle_inv (last_time now calls) (fold_left throttled_request calls t) /\
  limit (fold_left throttled_request calls t) = limit t.
Proof.
  induction calls as [|c r IH]; intros now t Hinv Hasc.
  - split; [exact Hinv | reflexivity].
  - destruct Hasc as [Hle Hasc]. cbn [fold_left last_time].
    assert (H1 : throttle_inv (fst c) (throttled_request t c)).
    { unfold throttled_request. apply call_inv. now apply advance_inv with now. }
    destruct (IH (fst c) _ H1 Hasc) as (Hi & Hlim).
    split; [exact Hi | now rewrite Hlim, limit_request].
Qed.

Lemma fresh_inv now (limit0 : Z) : throttle_inv now (throttle (A := A) limit0).
Proof.
  constructor; cbn; [exact I | discriminate |].
  intros _. repeat split. discriminate.
Qed.

Lemma fire_latest now (latest : A) t :
  latest_kept latest t -> latest_kept latest (throttle_fire now t).
Proof.
  intros Hk. unfold throttle_fire. destruct (throttle_timeout t) as [due|]; [|exact Hk].
  destruct (due <=? now); [|exact Hk]. unfold throttle_callback, latest_kept in *.
  destruct (lastArgs t) as [args|] eqn:El.
  - destruct Hk as [-> _]. unfold throttled_call.
    cbn [inThrottle negb limit throttle_calls throttle_timeout lastArgs].
    unfold last_fn_args. rewrite (last_fn_append t (due, latest) _ eq_refl); reflexivity.
  - cbn [lastArgs]. exact Hk.
Qed.

Lemma call_latest now t args :
  throttle_inv now t -> latest_kept args (throttled_call now args t).
Proof.
  intros Hinv. unfold throttled_call, latest_kept. destruct (inThrottle t) eqn:Eb; cbn [negb lastArgs].
  - now split.
  - destruct (ti_idle now t Hinv Eb) as (_ & -> & _).
    unfold last_fn_args. rewrite (last_fn_append t (now, args) _ eq_refl); reflexivity.
Qed.

Lemma requests_latest (r : list (Z * A)) : forall c now t,
  throttle_inv now t -> ascending now (c :: r) ->
  latest_kept (snd (last_call c r)) (fold_left throttled_request (c :: r) t).
Proof.
  induction r as [|c' r IH]; intros c now t Hinv [Hle Hasc].
  - cbn [fold_left last_call]. unfold throttled_request. apply call_latest.
    now apply advance_inv with now.
  - change (fold_left throttled_request (c :: c' :: r) t)
      with (fold_left throttled_request (c' :: r) (throttled_request t c)).
    cbn [last_call]. apply IH with (fst c); [|exact Hasc].
    unfold throttled_request. apply call_inv. now apply advance_inv with now.
Qed.

Lemma fire_keeps_none now t : lastArgs t = None -> lastArgs (throttle_fire now t) = None.
Proof.
  intros H. unfold throttle_fire. destruct (throttle_timeout t); [|exact H].
  destruct (_ <=? _); [|exact H]. unfold throttle_callback. now rewrite H.
Qed.

Lemma fire_flushes now final t :
  throttle_inv now t -> now + Z.max 0 (limit t) <= final ->
  lastArgs (throttle_fire final t) = None.
Proof.
  intros Hinv Hle. destruct (inThrottle t) eqn:Eb.
  - destruct (ti_busy now t Hinv Eb) as (time & _ & Hto & Htime).
    unfold throttle_fire. rewrite Hto.
    destruct (Z.leb_spec (time + Z.max 0 (limit t)) final); [|lia].
    unfold throttle_callback. now destruct (lastArgs t).
  - apply fire_keeps_none. now destruct (ti_idle now t Hinv Eb) as (_ & ? & _).
Qed.

Lemma ascending_last (calls : list (Z * A)) : forall now,
  ascending now calls -> now <= last_time now calls.
Proof.
  induction calls as [|c r IH]; intros now H; simpl in *; [lia|].
  destruct H as [H1 H2]. specialize (IH _ H2). lia.
Qed.

Lemma last_time_call (r : list (Z * A)) : forall c, last_time (fst c) r = fst (last_call c r).
Proof. induction r as [|c' r IH]; intros c; simpl; [reflexivity | apply IH]. Qed.

Lemma fire_calls_grow now t : exists more, throttle_calls (throttle_fire now t) = throttle_calls t ++ more.
Proof.
  unfold throttle_fire. destruct (throttle_timeout t) as [due|]; [|exists []; now rewrite app_nil_r].
  destruct (due <=? now); [|exists []; now rewrite app_nil_r].
  unfold throttle_callback. destruct (lastArgs t) as [args|].
  - exists [(due, args)]. reflexivity.
  - exists []. now rewrite app_nil_r.
Qed.

Lemma advance_calls_grow now t :
  exists more, throttle_calls (throttle_advance now t) = throttle_calls t ++ more.
Proof.
  unfold throttle_advance. destruct (fire_calls_grow now t) as [m1 E1].
  destruct (fire_calls_grow now (throttle_fire now t)) as [m2 E2].
  exists (m1 ++ m2). now rewrite E2, E1, app_assoc.
Qed.

Lemma request_calls_grow t c :
  exists more, throttle_calls (throttled_request t c) = throttle_calls t ++ more.
Proof.
  unfold throttled_request. destruct (advance_calls_grow (fst c) t) as [m E].
  unfold throttled_call. destruct (negb _); cbn [throttle_calls].
  - exists (m ++ [(fst c, snd c)]). now rewrite E, app_assoc.
  - now exists m.
Qed.

Lemma requests_calls_grow (calls : list (Z * A)) : forall t,
  exists more, throttle_calls (fold_left throttled_request calls t) = throttle_calls t ++ more.
Proof.
  induction calls as [|c r IH]; intros t; cbn [fold_left].
  - exists []. now rewrite app_nil_r.
  - destruct (IH (throttled_request t c)) as [m E]. destruct (request_calls_grow t c) as [m' E'].
    exists (m' ++ m). now rewrite E, E', app_assoc.
Qed.


(** Leading edge of [throttle]: the first call is passed to [fn] at once,
    with its own arguments, whatever follows. *)
Theorem throttle_leading_call (limit0 final : Z) (first : Z * A) (rest : list (Z * A)) :
  exists more,
    throttle_calls (throttle_advance final
      (fold_left throttled_request (first :: rest) (throttle limit0))) = first :: more.
Proof.
  cbn [fold_left].
  destruct (advance_calls_grow final
    (fold_left throttled_request rest (throttled_request (throttle limit0) first))) as [m1 E1].
  destruct (requests_calls_grow rest (throttled_request (throttle limit0) first)) as [m2 E2].
  exists (m2 ++ m1). rewrite E1, E2. destruct first as [time args]. reflexivity.
Qed.

(** Trailing edge of [throttle]: once the clock has passed the last call by
    the limit, the last call of [fn] carries the arguments of the last call
    of the throttled function, whether that call went through at once or was
    held back for the timeout. *)
Theorem throttle_trailing_call (limit0 final : Z) (first : Z * A) (rest : list (Z * A)) :
  ascending (fst first) rest ->
  last_time (fst first) rest + Z.max 0 limit0 <= final ->
  last_fn_args (throttle_advance final
    (fold_left throttled_request (first :: rest) (throttle limit0)))
  = Some (snd (last_call first rest)).
Proof.
  intros Hasc Hfinal.
  assert (Hasc' : ascending (fst first) (first :: rest)) by (split; [lia | exact Hasc]).
  destruct (requests_inv _ _ (throttle limit0) (fresh_inv (fst first) limit0) Hasc') as [Hinv Hlim].
  pose proof (requests_latest rest first _ _ (fresh_inv (fst first) limit0) Hasc') as Hk.
  cbn [last_time] in Hinv.
  set (t := fold_left throttled_request (first :: rest) (throttle limit0)) in *.
  assert (Hnone : lastArgs (throttle_advance final t) = None).
  { unfold throttle_advance. apply fire_keeps_none.
    apply fire_flushes with (last_time (fst first) rest); [exact Hinv|].
    rewrite Hlim. exact Hfinal. }
  assert (Hk' : latest_kept (snd (last_call first rest)) (throttle_advance final t)).
  { unfold throttle_advance. now apply fire_latest, fire_latest. }
  unfold latest_kept in Hk'. now rewrite Hnone in Hk'.
Qed.

End Throttle.


Lemma throttle_trailing_call_witness :
  last_fn_args (throttle_advance 500
    (fold_left throttled_request ((0, 1%nat) :: [(30, 2%nat); (60, 3%nat)]) (throttle 100)))
  = Some 3%nat.
Proof. apply (throttle_trailing_call 100 500 (0, 1%nat) [(30, 2%nat); (60, 3%nat)]); cbn; lia. Defined.

(** * Properties of [formatDuration] and [parseDuration] *)

Lemma split_without_separator (s : string) : occurs ":" s = false -> split ":" s = [s].
Proof.
  induction s as [|c r IH]; simpl; [reflexivity|]. intros H.
  apply orb_false_iff in H as [H1 H2]. rewrite H1, (IH H2). reflexivity.
Qed.

Lemma split_append (a b : string) :
  occurs ":" a = false ->
  split ":" (String.append a (String.append ":" b)) = a :: split ":" b.
Proof.
  induction a as [|c r IH]; simpl in *; [reflexivity|]. intros H.
  apply orb_false_iff in H as [H1 H2]. rewrite H1, (IH H2). reflexivity.
Qed.

Lemma zeros_without_colon (n : nat) (s : string) :
  occurs ":" (String.append (string_of_list_ascii (repeat "0"%char n)) s) = occurs ":" s.
Proof. induction n as [|n IH]; simpl; [reflexivity | exact IH]. Qed.

Lemma padStart_without_colon (k : nat) (z : Z) :
  occurs ":" (padStart k "0" (toString z)) = false.
Proof. unfold padStart. rewrite zeros_without_colon. apply Z_string_without_colon. Qed.

Lemma decimal_toString (n : Z) : 0 <= n -> decimal_value (toString n) = Some n.
Proof.
  intros Hn. destruct n as [|p|p]; [reflexivity | | lia].
  unfold decimal_value, toString. cbn [Z.to_int NilZero.string_of_int].
  rewrite NilZero.usu by apply Unsigned.to_uint_nonnil.
  cbn [option_map]. f_equal. exact (of_to (Z.pos p)).
Qed.

Lemma decimal_zeros (k : nat) (s : string) (n : Z) :
  decimal_value s = Some n ->
  decimal_value (String.append (string_of_list_ascii (repeat "0"%char k)) s) = Some n.
Proof.
  intros H. induction k as [|k IH]; [exact H|].
  cbn [repeat string_of_list_ascii String.append].
  set (r := String.append (string_of_list_ascii (repeat "0"%char k)) s) in *.
  unfold decimal_value in *. destruct r as [|c r']; [discriminate|].
  cbn [NilZero.uint_of_string] in IH.
  change (NilZero.uint_of_string (String "0" (String c r')))
    with (uint_of_char "0" (NilEmpty.uint_of_string (String c r'))).
  destruct (NilEmpty.uint_of_string (String c r')) as [d|]; [|discriminate].
  exact IH.
Qed.

Lemma decimal_padStart (k : nat) (n : Z) :
  0 <= n -> decimal_value (padStart k "0" (toString n)) = Some n.
Proof. intros Hn. apply decimal_zeros. now apply decimal_toString. Qed.

Lemma hours_minutes_seconds (total : Z) :
  0 <= total ->
  total = total / 3600 * 3600 + Z.rem total 3600 / 60 * 60 + Z.rem total 60 /\
  0 <= total / 3600 /\ 0 <= Z.rem total 3600 / 60 /\ 0 <= Z.rem total 60.
Proof.
  intros H. rewrite !Z.rem_mod_nonneg by lia.
  pose proof (Z.div_mod total 3600 ltac:(lia)) as E1.
  pose proof (Z.div_mod (total mod 3600) 60 ltac:(lia)) as E2.
  pose proof (Z.mod_pos_bound total 3600 ltac:(lia)) as B1.
  pose proof (Z.mod_pos_bound total 60 ltac:(lia)) as B2.
  assert (E3 : (total mod 3600) mod 60 = total mod 60).
  { change 3600 with (60 * 60) at 1. rewrite Z.rem_mul_r by lia.
    rewrite (Z.mul_comm 60), Z.mod_add by lia. apply Z.mod_mod. lia. }
  rewrite E3 in E2.
  pose proof (Z.div_pos total 3600 H ltac:(lia)).
  pose proof (Z.div_pos (total mod 3600) 60 ltac:(lia) ltac:(lia)).
  repeat split; lia.
Qed.

Lemma hours_zero (total : Z) :
  0 <= total -> (0 <? total / 3600) = false -> Z.rem total 3600 = total.
Proof.
  intros H Hh. apply Z.ltb_ge in Hh. rewrite Z.rem_mod_nonneg by lia.
  pose proof (Z.div_pos total 3600 H ltac:(lia)).
  apply Z.mod_small. split; [lia|]. apply Z.nle_gt. intros Hge.
  pose proof (Z.div_le_mono 3600 total 3600 ltac:(lia) Hge) as Hd.
  rewrite Z.div_same in Hd by lia. lia.
Qed.

Lemma nonneg_part (z : Z) : 0 <= z -> negb (Qle_bool 0 (inject_Z z)) = false.
Proof.
  intros H. apply negb_false_iff, Qle_bool_iff.
  change 0%Q with (inject_Z 0). now rewrite <- Zle_Qle.
Qed.

Section DurationRoundTrip.

Variable Number : string -> option Q.

Hypothesis Number_decimal :
  forall s n, decimal_value s = Some n -> Number s = Some (inject_Z n).

(** Round trip of the duration format: for a finite number of seconds that
    is not negative, whatever the options, [parseDuration] reads the string
    of [formatDuration] back as the whole seconds, given that [Number]
    reads a string of decimal digits as the number it denotes. *)
Theorem duration_round_trip (seconds : Q) (options : format_options) :
  (0 <= seconds)%Q ->
  (parseDuration Number (formatDuration (Some seconds) options) == inject_Z (Qfloor seconds))%Q.
Proof.
  intros Hs. unfold formatDuration.
  assert (Hb : negb (Qle_bool 0 seconds) = false)
    by now apply negb_false_iff, Qle_bool_iff.
  rewrite Hb. cbv zeta.
  assert (Ht : 0 <= Qfloor seconds).
  { change 0 with (Qfloor 0). now apply Qfloor_resp_le. }
  set (total := Qfloor seconds) in *.
  destruct (hours_minutes_seconds total Ht) as (E & Hh & Hm & Hsec).
  destruct ((0 <? total / 3600) || forceHours options) eqn:Ehours.
  - unfold parseDuration.
    rewrite split_append by apply Z_string_without_colon.
    rewrite split_append by apply padStart_without_colon.
    rewrite split_without_separator by apply padStart_without_colon.
    cbn [map].
    rewrite (Number_decimal _ _ (decimal_toString _ Hh)).
    rewrite (Number_decimal _ _ (decimal_padStart 2 _ Hm)).
    rewrite (Number_decimal _ _ (decimal_padStart 2 _ Hsec)).
    cbn [existsb]. rewrite !nonneg_part by assumption. cbn [orb].
    rewrite E at 4. rewrite !inject_Z_plus, !inject_Z_mult. reflexivity.
  - apply orb_false_iff in Ehours as [Eh _].
    pose proof (hours_zero total Ht Eh) as Hrem.
    assert (Hdiv : total / 3600 = 0).
    { apply Z.ltb_ge in Eh. lia. }
    assert (Hparts : forall mins,
      occurs ":" mins = false ->
      decimal_value mins = Some (Z.rem total 3600 / 60) ->
      (parseDuration Number
         (String.append mins (String.append ":" (padStart 2 "0" (toString (Z.rem total 60)))))
       == inject_Z total)%Q).
    { intros mins Hc Hv. unfold parseDuration.
      rewrite split_append by exact Hc.
      rewrite split_without_separator by apply padStart_without_colon.
      cbn [map].
      rewrite (Number_decimal _ _ Hv).
      rewrite (Number_decimal _ _ (decimal_padStart 2 _ Hsec)).
      cbn [existsb]. rewrite !nonneg_part by assumption. cbn [orb].
      rewrite E at 3. rewrite Hdiv.
      rewrite !inject_Z_plus, !inject_Z_mult.
      change (inject_Z 60) with 60%Q. change (inject_Z 0) with 0%Q. lra. }
    destruct (padMinutes options).
    + apply Hparts; [apply padStart_without_colon | now apply decimal_padStart].
    + apply Hparts; [apply Z_string_without_colon | now apply decimal_toString].
Qed.

End DurationRoundTrip.

Lemma duration_round_trip_witness :
  (parseDuration (fun s => option_map inject_Z (decimal_value s))
     (formatDuration (Some (7331 # 2)) {| forceHours := false; padMinutes := true |})
   == inject_Z (Qfloor (7331 # 2)))%Q.
Proof.
  apply (duration_round_trip (fun s => option_map inject_Z (decimal_value s))).
  - intros s n H. rewrite H. reflexivity.
  - discriminate.
Defined.

(** [parseDuration] never returns a negative number, whatever the string and
    whatever [Number] makes of its parts. *)
Theorem parseDuration_not_negative (Number : string -> option Q) (duration : string) :
  (0 <= parseDuration Number duration)%Q.
Proof.
  unfold parseDuration. generalize (map Number (split ":" duration)). intros parts.
  destruct (existsb _ parts) eqn:Ex; [apply Qle_refl|].
  assert (Hall : forall q, In (Some q) parts -> (0 <= q)%Q).
  { intros q Hin. apply Qle_bool_iff, negb_false_iff.
    destruct (negb (Qle_bool 0 q)) eqn:En; [|reflexivity].
    rewrite <- Ex. symmetry. apply existsb_exists. exists (Some q). now split. }
  destruct parts as [|[p1|] [|[p2|] [|[p3|] [|p4 r]]]]; cbv beta iota;
    try apply Qle_refl; try (apply (Hall p1); simpl; tauto).
  - pose proof (Hall p1 ltac:(simpl; tauto)). pose proof (Hall p2 ltac:(simpl; tauto)). lra.
  - pose proof (Hall p1 ltac:(simpl; tauto)). pose proof (Hall p2 ltac:(simpl; tauto)).
    pose proof (Hall p3 ltac:(simpl; tauto)). lra.
Qed.
